(** * Lightbus client core: internal command channel, transports, event client

    A shallow embedding of
    - [lightbus/client/internal_messaging/producer.py] (module [InternalProducer]),
    - [lightbus/client/internal_messaging/consumer.py] (module [InternalConsumer]),
    - [lightbus/transports/base.py] (module [EventTransport]),
    - [lightbus/client/subclients/event.py] (module [EventClient]),
    - [lightbus/utilities/config.py] (module [Config]),
    followed by the properties established for them. *)

From stdpp Require Import base option list gmap sets strings sorting.

Local Open Scope string_scope.
Local Open Scope list_scope.
Local Open Scope nat_scope.

(** ** Python values, exceptions and built-in containers *)

Module Py.

(** The exceptions the embedded code raises.  Messages are kept structured:
    the data interpolated into a message is the constructor's argument. *)
Inductive exn : Type :=
  | UnknownApi (api_name name : string)
  | EventNotFound (api_name name : string)
  | InvalidEventArguments
      (n_given : nat) (given : list string) (n_expected : nat) (expected : list string)
  | InvalidEventListener (reason : string)
  | ListenerAlreadyRegistered (listener_name : string)
  | NotImplementedError (message : string)
  | NothingToListenFor
  | AttributeError (attribute : string)
  | TypeError (message : string)
  | KeyError
  | ValueError (message : string)
  | CancelledError
  | InvalidName (api_name name : string)
  | ValidationError (message : string).

#[global] Instance exn_eq_dec : EqDecision exn.
Proof. solve_decision. Defined.

Inductive result (A : Type) : Type :=
  | Ok (a : A)
  | Err (e : exn).
Arguments Ok {A} a.
Arguments Err {A} e.

Definition bind {A B} (r : result A) (f : A -> result B) : result B :=
  match r with
  | Ok a => f a
  | Err e => Err e
  end.

(** Plain data carried by event keyword arguments and options. *)
Inductive value : Type :=
  | VNone
  | VBool (b : bool)
  | VInt (z : Z)
  | VStr (s : string).

(** [sorted(names)] on strings: Python orders [str] by code point. *)
Definition str_le (a b : string) : Prop := String.leb a b = true.

#[global] Instance str_le_dec a b : Decision (str_le a b).
Proof. unfold str_le. apply _. Defined.

Definition sorted (names : list string) : list string := merge_sort str_le names.

(** A built-in [set] supports [in], [add] and [remove]; it has no [keys]
    method and is not subscriptable. *)
Definition set_keys {A} `{Countable A} (s : gset A) : result (list A) :=
  Err (AttributeError "keys").

Definition set_getitem {A B} `{Countable A} (s : gset A) (key : A) : result B :=
  Err (TypeError "'set' object is not subscriptable").

End Py.

Export Py.

(** ** asyncio primitives used by the client *)

Module Asyncio.

(** [asyncio.Queue]: the queued items (oldest first) and the counter behind
    [task_done()]. *)
Record queue (A : Type) : Type := Queue {
  items : list A;
  unfinished_tasks : nat
}.
Arguments Queue {A} items unfinished_tasks.
Arguments items {A} q.
Arguments unfinished_tasks {A} q.

Definition new_queue {A} : queue A := Queue [] 0.

Definition qsize {A} (q : queue A) : nat := length (items q).

Definition put_nowait {A} (x : A) (q : queue A) : queue A :=
  Queue (items q ++ [x]) (S (unfinished_tasks q)).

(** [get()] on an empty queue suspends the caller: [None]. *)
Definition get {A} (q : queue A) : option (A * queue A) :=
  match items q with
  | [] => None
  | x :: rest => Some (x, Queue rest (unfinished_tasks q))
  end.

Definition task_done {A} (q : queue A) : result (queue A) :=
  match unfinished_tasks q with
  | 0 => Err (ValueError "task_done() called too many times")
  | S n => Ok (Queue (items q) n)
  end.

(** How a task's coroutine ended. *)
Inductive outcome : Type :=
  | Returned
  | Raised (e : exn)
  | Cancelled.

Inductive task_state : Type :=
  | Pending
  | Done (o : outcome).

#[global] Instance outcome_eq_dec : EqDecision outcome.
Proof. solve_decision. Defined.
#[global] Instance task_state_eq_dec : EqDecision task_state.
Proof. solve_decision. Defined.

End Asyncio.

(** ** Commands and messages *)

Module Commands.

(** Modelled from the spec: [lightbus.message.EventMessage] is not among the
    sources.  The spec's data model: API name, event name, version and
    keyword arguments with string keys; the fields are the ones [fire_event]
    passes to the constructor (the generated identifier is left out). *)
Record EventMessage : Type := {
  api_name : string;
  event_name : string;
  kwargs : gmap string value;
  version : nat
}.

(** [options: dict = None]. *)
Definition options : Type := option (gmap string value).

(** Modelled from the spec: [lightbus.client.commands] is not among the
    sources.  The spec's data model: a tagged value with the variants
    SendEvent{message, options}, AcknowledgeEvent{message, options},
    ConsumeEvents{events, destination_queue, listener_name} and
    ReceiveEvent{message, listener_name}.  A [destination_queue] is a
    reference to an [asyncio.Queue] of the client. *)
Inductive command : Type :=
  | SendEventCommand (message : EventMessage) (options : options)
  | AcknowledgeEventCommand (message : EventMessage) (options : options)
  | ConsumeEventsCommand
      (events : list (string * string)) (destination_queue : nat) (listener_name : string)
  | ReceiveEventCommand (message : EventMessage) (listener_name : string).

(** What reading an attribute of a command yields. *)
Inductive attribute : Type :=
  | AMessage (m : EventMessage)
  | AOptions (o : options)
  | AEvents (l : list (string * string))
  | AQueue (q : nat)
  | AName (s : string).

(** [command.<name>]: a command instance has its variant's fields and
    nothing else; in particular [__name__] is an attribute of classes, not
    of their instances. *)
Definition getattr (c : command) (name : string) : result attribute :=
  match c with
  | SendEventCommand m o | AcknowledgeEventCommand m o =>
      if String.eqb name "message" then Ok (AMessage m)
      else if String.eqb name "options" then Ok (AOptions o)
      else Err (AttributeError name)
  | ConsumeEventsCommand l q n =>
      if String.eqb name "events" then Ok (AEvents l)
      else if String.eqb name "destination_queue" then Ok (AQueue q)
      else if String.eqb name "listener_name" then Ok (AName n)
      else Err (AttributeError name)
  | ReceiveEventCommand m n =>
      if String.eqb name "message" then Ok (AMessage m)
      else if String.eqb name "listener_name" then Ok (AName n)
      else Err (AttributeError name)
  end.

Definition is_receive_event (c : command) : bool :=
  match c with ReceiveEventCommand _ _ => true | _ => false end.

End Commands.

Export Commands.

(** ** producer.py *)

Module InternalProducer.

(** Class attribute [size_warning = 5]. *)
Definition size_warning : nat := 5.

(** The two [logger.warning] calls of [_queue_monitor], by format string:
    - [LogShrunk n ok]: "Queue in %s has shrunk back down to %s commands. %s."
      with [current_size = n] and [everything_ok = ok];
    - [LogNowHas n]: "Queue in %s now has %s commands." with [current_size = n]. *)
Inductive log_record : Type :=
  | LogShrunk (current_size : nat) (everything_ok : string)
  | LogNowHas (current_size : nat).

Definition ok_again : string := " Queue is now at an OK size again.".

(** One pass through the body of the [while True] loop of [_queue_monitor]:
    [previous_size] is [None] before the first sample. *)
Definition monitor_iteration (size_warning : nat)
    (previous_size : option nat) (current_size : nat) : list log_record :=
  let show_size_warning :=
    (size_warning <=? current_size) && negb (bool_decide (Some current_size = previous_size)) in
  let queue_has_shrunk :=
    match previous_size with
    | None => false
    | Some previous => (current_size <? previous) && (size_warning <=? previous)
    end in
  if show_size_warning || queue_has_shrunk then
    if queue_has_shrunk then
      let everything_ok := if negb show_size_warning then ok_again else EmptyString in
      [LogShrunk current_size everything_ok]
    else if show_size_warning then
      [LogNowHas current_size]
    else []
  else [].

(** The loop over the successive values of [self.queue.qsize()], one per
    [monitor_interval]; the loop never ends, so a run is observed on a finite
    prefix of samples. *)
Fixpoint queue_monitor_from (size_warning : nat)
    (previous_size : option nat) (samples : list nat) : list log_record :=
  match samples with
  | [] => []
  | current_size :: rest =>
      monitor_iteration size_warning previous_size current_size
        ++ queue_monitor_from size_warning (Some current_size) rest
  end.

Definition _queue_monitor (size_warning : nat) (samples : list nat) : list log_record :=
  queue_monitor_from size_warning None samples.

(** Reading the log. *)
Definition is_growth_warning (r : log_record) : bool :=
  match r with LogNowHas _ => true | LogShrunk _ _ => false end.

Definition is_shrunk_message (r : log_record) : bool :=
  match r with LogShrunk _ _ => true | LogNowHas _ => false end.

Definition is_recovery_notice (r : log_record) : bool :=
  match r with
  | LogShrunk _ everything_ok => bool_decide (everything_ok = ok_again)
  | LogNowHas _ => false
  end.

(** The samples, each paired with the sample before it. *)
Fixpoint sample_pairs (previous_size : option nat) (samples : list nat)
    : list (option nat * nat) :=
  match samples with
  | [] => []
  | current_size :: rest =>
      (previous_size, current_size) :: sample_pairs (Some current_size) rest
  end.

(** A sample at or above the threshold that differs from the previous one. *)
Definition changed_at_or_above (size_warning : nat) (p : option nat * nat) : bool :=
  (size_warning <=? p.2) && negb (bool_decide (Some p.2 = p.1)).

(** A sample at or above the threshold that is the first one or larger than
    the previous one. *)
Definition grown_at_or_above (size_warning : nat) (p : option nat * nat) : bool :=
  (size_warning <=? p.2) &&
  match p.1 with None => true | Some previous => previous <? p.2 end.

(** A sample at or above the threshold that is smaller than the previous one. *)
Definition shrunk_at_or_above (size_warning : nat) (p : option nat * nat) : bool :=
  (size_warning <=? p.2) &&
  match p.1 with None => false | Some previous => p.2 <? previous end.

(** A sample below the threshold whose previous sample was at or above it. *)
Definition dropped_below (size_warning : nat) (p : option nat * nat) : bool :=
  (p.2 <? size_warning) &&
  match p.1 with None => false | Some previous => size_warning <=? previous end.

Definition count {A} (f : A -> bool) (l : list A) : nat := length (filter (fun x => f x = true) l).

(** [send]: a fresh [asyncio.Event] is allocated ([next_event] is the
    allocation counter), the pair is put on the shared queue without
    blocking, and the event is returned. *)
Definition send {C : Type} (command : C) (next_event : nat) (queue : Asyncio.queue (C * nat))
    : nat * (nat * Asyncio.queue (C * nat)) :=
  let event := next_event in
  (event, (S next_event, Asyncio.put_nowait (command, event) queue)).

(** The size a record reports. *)
Definition record_size (r : log_record) : nat :=
  match r with LogShrunk n _ => n | LogNowHas n => n end.

(** Reading the reported sizes in order, [last] being the size reported just
    before: no size twice in a row, and a size below the threshold only
    directly after one at or above it. *)
Fixpoint alternates (size_warning : nat) (last : option nat) (sizes : list nat) : Prop :=
  match sizes with
  | [] => True
  | n :: rest =>
      last <> Some n
      /\ (n < size_warning -> exists m, last = Some m /\ size_warning <= m)
      /\ alternates size_warning (Some n) rest
  end.

(** *** The monitor task and the ready event *)

(** A task made by [asyncio.ensure_future(self._queue_monitor())]: scheduled
    and not yet run, in its loop, or cancelled.  The loop of [_queue_monitor]
    is [while True] without a [break] or [return]: a monitor leaves it by
    cancellation only. *)
Inductive monitor_state : Type :=
  | MonitorScheduled
  | MonitorRunning
  | MonitorCancelled.

(** The producer's attributes and the objects they refer to:
    - [queue_monitor_task]: [self._queue_monitor_task], a task by its
      position in [monitor_tasks], or [None];
    - [monitor_ready]: the [asyncio.Event] that [self._monitor_ready] refers
      to, by allocation number;
    - [ready_set]: the events whose flag is set;
    - [next_ready]: the allocation counter of these events;
    - [monitor_tasks]: the monitor tasks made so far;
    - [stopping]: the calls of [stop()] that are suspended in
      [await cancel(...)]. *)
Record producer : Type := Producer {
  queue_monitor_task : option nat;
  monitor_ready : nat;
  ready_set : gset nat;
  next_ready : nat;
  monitor_tasks : list monitor_state;
  stopping : nat
}.

(** [__init__]: [self._queue_monitor_task = None] and [self._monitor_ready =
    asyncio.Event()]. *)
Definition init : producer := Producer None 0 ∅ 1 [] 0.

(** [start()]: the monitor is scheduled with [ensure_future]; its body runs
    later.  The done callback added to the task,
    [queue_exception_checker(self.error_queue)], writes to the error queue
    only, which is not among the attributes of this record. *)
Definition start (p : producer) : producer :=
  Producer (Some (length (monitor_tasks p))) (monitor_ready p) (ready_set p) (next_ready p)
    (monitor_tasks p ++ [MonitorScheduled]) (stopping p).

(** The first step of the coroutine [_queue_monitor] run by task [t]:
    [self._monitor_ready.set()], on the event the attribute refers to when
    the step runs; the task is then in its loop.  [None]: the task is not
    waiting to begin. *)
Definition monitor_begins (t : nat) (p : producer) : option producer :=
  match monitor_tasks p !! t with
  | Some MonitorScheduled =>
      Some (Producer (queue_monitor_task p) (monitor_ready p)
              ({[monitor_ready p]} ∪ ready_set p) (next_ready p)
              (<[t := MonitorRunning]> (monitor_tasks p)) (stopping p))
  | _ => None
  end.

(** [stop()], up to its suspension: [if self._queue_monitor_task: await
    cancel(self._queue_monitor_task)].  Without a task the call returns at
    once and nothing changes; with a task, the task is cancelled and the
    call is suspended until the event loop resumes it.  Modelled from the
    spec: [cancel] is not among the sources; the spec says that [stop]
    cancels the monitor loop and that cancelling a task takes effect at the
    task's next suspension point: a task cancelled while it sleeps, or
    before it has begun, runs no further step of [_queue_monitor]. *)
Definition stop_begins (p : producer) : producer :=
  match queue_monitor_task p with
  | Some t =>
      Producer (Some t) (monitor_ready p) (ready_set p) (next_ready p)
        (<[t := MonitorCancelled]> (monitor_tasks p)) (S (stopping p))
  | None => p
  end.

(** [stop()], resumed after its [await]: [self._queue_monitor_task = None;
    self._monitor_ready = asyncio.Event()].  [None]: no call of [stop()] is
    suspended. *)
Definition stop_resumes (p : producer) : option producer :=
  match stopping p with
  | 0 => None
  | S n =>
      Some (Producer None (next_ready p) (ready_set p) (S (next_ready p))
              (monitor_tasks p) n)
  end.

(** [wait_until_ready()]: [await self._monitor_ready.wait()].  The
    attribute is read once, when the call is made: the caller waits on that
    event object, and is resumed once the flag of that object is set. *)
Definition wait_until_ready (p : producer) : nat := monitor_ready p.

Definition resumed (event : nat) (p : producer) : bool := bool_decide (event ∈ ready_set p).

(** What may happen to a producer.  The order in which the event loop runs
    what is ready is left open: a scheduled monitor may begin, and a
    suspended [stop()] may be resumed, at any time, so that every order the
    loop can take is among the runs. *)
Inductive operation : Type :=
  | Start
  | StopBegins
  | StopResumes
  | MonitorBegins (t : nat).

Definition apply_operation (p : producer) (o : operation) : producer :=
  match o with
  | Start => start p
  | StopBegins => stop_begins p
  | StopResumes => default p (stop_resumes p)
  | MonitorBegins t => default p (monitor_begins t p)
  end.

Definition run_operations (os : list operation) (p : producer) : producer :=
  foldl apply_operation p os.

(** Kept by every operation. *)
Record well_formed (p : producer) : Prop := {
  ready_allocated : monitor_ready p < next_ready p;
  set_allocated : forall e, e ∈ ready_set p -> e < next_ready p;
  ready_running :
    monitor_ready p ∈ ready_set p ->
    (exists t, monitor_tasks p !! t = Some MonitorRunning) \/ 0 < stopping p;
  task_made : forall t, queue_monitor_task p = Some t -> t < length (monitor_tasks p)
}.

End InternalProducer.

(** ** consumer.py *)

Module InternalConsumer.

Import Asyncio.

(** The done callbacks [handle_in_background] attaches to a task. *)
Inductive callback : Type :=
  | QueueExceptionChecker
  | WhenTaskFinished (on_done : nat).

(** A task made by [asyncio.ensure_future(handler(command))].  A task is
    named by its position in [tasks]; [task_command] and [task_on_done]
    record the queue item it was made for. *)
Record task : Type := Task {
  task_command : command;
  task_on_done : nat;
  state_of : task_state;
  callbacks : list callback
}.

(** The consumer together with the objects it shares with the producer:
    the command queue, the error queue and the [asyncio.Event]s handed out
    by [InternalProducer.send].
    - [consumer_task]: [self._consumer_task is not None];
    - [running_commands]: [self._running_commands];
    - [set_calls]: the calls of [on_done.set()] so far, oldest first; an
      event's flag is set when it occurs in this list.
    The [_ready] event is left out: nothing in these sources waits for it. *)
Record state : Type := State {
  queue : Asyncio.queue (command * nat);
  error_queue : list exn;
  consumer_task : bool;
  running_commands : gset nat;
  tasks : list task;
  next_event : nat;
  set_calls : list nat
}.

Definition with_queue (q : Asyncio.queue (command * nat)) (s : state) : state :=
  State q (error_queue s) (consumer_task s) (running_commands s) (tasks s)
    (next_event s) (set_calls s).

Definition with_error_queue (eq : list exn) (s : state) : state :=
  State (queue s) eq (consumer_task s) (running_commands s) (tasks s)
    (next_event s) (set_calls s).

Definition with_consumer_task (b : bool) (s : state) : state :=
  State (queue s) (error_queue s) b (running_commands s) (tasks s)
    (next_event s) (set_calls s).

Definition with_running_commands (r : gset nat) (s : state) : state :=
  State (queue s) (error_queue s) (consumer_task s) r (tasks s)
    (next_event s) (set_calls s).

Definition with_tasks (ts : list task) (s : state) : state :=
  State (queue s) (error_queue s) (consumer_task s) (running_commands s) ts
    (next_event s) (set_calls s).

Definition with_next_event (n : nat) (s : state) : state :=
  State (queue s) (error_queue s) (consumer_task s) (running_commands s) (tasks s)
    n (set_calls s).

Definition with_set_calls (l : list nat) (s : state) : state :=
  State (queue s) (error_queue s) (consumer_task s) (running_commands s) (tasks s)
    (next_event s) l.

(** [__init__]. *)
Definition init : state := State Asyncio.new_queue [] false ∅ [] 0 [].

(** [start(handler)]: the consumer loop is scheduled and the running set is
    a new empty set. *)
Definition start (s : state) : state :=
  with_running_commands ∅ (with_consumer_task true s).

(** [InternalProducer.send(command)] on the shared queue. *)
Definition producer_send (c : command) (s : state) : nat * state :=
  let '(event, (next, q)) := InternalProducer.send c (next_event s) (queue s) in
  (event, with_queue q (with_next_event next s)).

(** [on_done.set()]. *)
Definition event_set (on_done : nat) (s : state) : state :=
  with_set_calls (set_calls s ++ [on_done]) s.

(** The closure [when_task_finished(fut)] of [handle_in_background]: the
    statements run in order, and the first one that raises ends the call
    with the state reached so far ([set.remove] raises [KeyError] on a
    missing element, [Queue.task_done] raises [ValueError] when called more
    often than items were put). *)
Definition when_task_finished (fut on_done : nat) (s : state) : state * result unit :=
  if decide (fut ∈ running_commands s) then
    let s1 := with_running_commands (running_commands s ∖ {[fut]}) s in
    match Asyncio.task_done (queue s1) with
    | Ok q => (event_set on_done (with_queue q s1), Ok tt)
    | Err e => (s1, Err e)
    end
  else (s, Err KeyError).

(** Modelled from the spec: [lightbus.client.utilities.queue_exception_checker]
    is not among the sources.  The spec: "Any exception raised by the handler
    is additionally forwarded to the shared error channel". *)
Definition queue_exception_checker (fut : nat) (s : state) : state :=
  match state_of <$> tasks s !! fut with
  | Some (Done (Raised e)) => with_error_queue (error_queue s ++ [e]) s
  | _ => s
  end.

(** [handle_in_background(queue, handler, command, on_done)]. *)
Definition handle_in_background (c : command) (on_done : nat) (s : state) : state :=
  let background_call_task := length (tasks s) in
  let s1 := with_tasks (tasks s ++ [Task c on_done Pending []]) s in
  let s2 := with_running_commands ({[background_call_task]} ∪ running_commands s1) s1 in
  let add_done_callback cb s :=
    with_tasks
      (alter (fun t => Task (task_command t) (task_on_done t) (state_of t) (callbacks t ++ [cb]))
         background_call_task (tasks s)) s in
  add_done_callback (WhenTaskFinished on_done) (add_done_callback QueueExceptionChecker s2).

(** One iteration of the [while True] of [_consumer_loop]; [None] when the
    loop is not running or is suspended in [queue.get()]. *)
Definition consumer_loop_iteration (s : state) : option state :=
  if consumer_task s then
    match Asyncio.get (queue s) with
    | Some ((c, on_done), q) => Some (handle_in_background c on_done (with_queue q s))
    | None => None
    end
  else None.

Definition set_task_state (t : nat) (st : task_state) (s : state) : state :=
  with_tasks
    (alter (fun x => Task (task_command x) (task_on_done x) st (callbacks x)) t (tasks s)) s.

Definition clear_callbacks (t : nat) (s : state) : state :=
  with_tasks
    (alter (fun x => Task (task_command x) (task_on_done x) (state_of x) []) t (tasks s)) s.

(** The event loop calls a done callback; an exception raised by a callback
    is logged by the loop and the remaining callbacks are still called. *)
Definition call_callback (fut : nat) (s : state) (cb : callback) : state :=
  match cb with
  | QueueExceptionChecker => queue_exception_checker fut s
  | WhenTaskFinished on_done => (when_task_finished fut on_done s).1
  end.

(** The callbacks of a finished task are called once, in the order they were
    added, and the task's callback list is emptied. *)
Definition run_done_callbacks (t : nat) (s : state) : state :=
  match tasks s !! t with
  | Some x => foldl (call_callback t) (clear_callbacks t s) (callbacks x)
  | None => s
  end.

(** Modelled from the spec: [lightbus.utilities.async_tools.cancel] is not
    among the sources.  The spec: [stop] cancels "the consumption loop so no
    new commands are picked up" and will "forcibly cancel every task still in
    the running-task set".  A task that has not ended ends as cancelled and
    its done callbacks are called; a task that has ended is left as it is. *)
Definition cancel_task (s : state) (t : nat) : state :=
  match state_of <$> tasks s !! t with
  | Some Pending => run_done_callbacks t (set_task_state t (Done Cancelled) s)
  | _ => s
  end.

Definition cancel (ts : list nat) (s : state) : state := foldl cancel_task s ts.

(** [stop], first part: [if self._consumer_task is not None: await
    cancel(self._consumer_task); self._consumer_task = None]. *)
Definition stop_cancel_loop (s : state) : state :=
  if consumer_task s then with_consumer_task false s else s.

(** [stop], the assignment [self._running_commands = set()]. *)
Definition stop_reset (s : state) : state := with_running_commands ∅ s.

(** What happens on the event loop while the consumer runs:
    - [Send c]: some caller runs [InternalProducer.send(c)];
    - [LoopIteration]: [queue.get()] returns in the consumer loop;
    - [HandlerEnds t e]: the coroutine [handler(command)] of task [t] ends,
      by returning ([None]) or by raising [e];
    - [DoneCallbacks t]: the loop calls the done callbacks of task [t]. *)
Inductive activity : Type :=
  | Send (c : command)
  | LoopIteration
  | HandlerEnds (t : nat) (e : option exn)
  | DoneCallbacks (t : nat).

(** The activity above and the single actions [stop] is made of. *)
Inductive label : Type :=
  | Activity (a : activity)
  | CancelLoop
  | Cancel (t : nat)
  | ResetRunning.

Definition ending (e : option exn) : outcome :=
  match e with None => Returned | Some x => Raised x end.

(** [None]: the activity cannot happen in this state. *)
Definition step_activity (a : activity) (s : state) : option state :=
  match a with
  | Send c => Some (producer_send c s).2
  | LoopIteration => consumer_loop_iteration s
  | HandlerEnds t e =>
      match state_of <$> tasks s !! t with
      | Some Pending => Some (set_task_state t (Done (ending e)) s)
      | _ => None
      end
  | DoneCallbacks t =>
      match state_of <$> tasks s !! t with
      | Some (Done _) => Some (run_done_callbacks t s)
      | _ => None
      end
  end.

Definition step (l : label) (s : state) : option state :=
  match l with
  | Activity a => step_activity a s
  | CancelLoop => Some (stop_cancel_loop s)
  | Cancel t => Some (cancel_task s t)
  | ResetRunning => Some (stop_reset s)
  end.

Definition apply_label (s : state) (l : label) : state := default s (step l s).

Definition run_labels (ls : list label) (s : state) : state := foldl apply_label s ls.

Definition run_activity (l : list activity) (s : state) : state :=
  run_labels (Activity <$> l) s.

(** [stop], second part: [for _ in range(n): if self._running_commands: await
    asyncio.sleep(wait_seconds / 100)].  [during] lists what happens on the
    event loop during each successive sleep; a sleep is one hundredth of
    [wait_seconds]. *)
Fixpoint stop_poll (n : nat) (during : list (list activity)) (s : state) : state :=
  match n with
  | 0 => s
  | S n' =>
      if decide (running_commands s = ∅) then stop_poll n' during s
      else
        match during with
        | [] => stop_poll n' [] s
        | l :: rest => stop_poll n' rest (run_activity l s)
        end
  end.

(** [stop], last part: [await cancel( *self._running_commands);
    self._running_commands = set()]. *)
Definition stop_cancel_tasks (s : state) : state :=
  stop_reset (cancel (elements (running_commands s)) s).

(** The state when the polling of [stop] is over. *)
Definition stop_window (during : list (list activity)) (s : state) : state :=
  stop_poll 100 during (stop_cancel_loop s).

(** What happens on the event loop during the sleeps of the polling. *)
Definition window_activity (during : list (list activity)) : list activity :=
  concat (take 100 during).

(** [stop(wait_seconds)]. *)
Definition stop (during : list (list activity)) (s : state) : state :=
  stop_cancel_tasks (stop_window during s).

(** The consumer after [__init__] and [start(handler)]. *)
Definition started : state := start init.

Definition status_of (t : nat) (s : state) : option task_state := state_of <$> tasks s !! t.

Definition is_done (x : task) : Prop := state_of x <> Pending.

(** The events of the queued items and of the tasks made so far. *)
Definition queued_events (s : state) : list nat := snd <$> items (queue s).

Definition task_events (s : state) : list nat := task_on_done <$> tasks s.

(** Consistency of the shared objects, kept by every label. *)
Record consistent (s : state) : Prop := {
  events_allocated :
    forall e, e ∈ queued_events s ++ task_events s -> e < next_event s;
  events_distinct : NoDup (queued_events s ++ task_events s);
  set_once : NoDup (set_calls s);
  set_after_done :
    forall e, e ∈ set_calls s ->
      exists t x, tasks s !! t = Some x /\ task_on_done x = e /\ is_done x
                  /\ t ∉ running_commands s;
  callbacks_shape :
    forall t x, tasks s !! t = Some x ->
      callbacks x = []
      \/ (callbacks x = [QueueExceptionChecker; WhenTaskFinished (task_on_done x)]
          /\ task_on_done x ∉ set_calls s);
  accounting :
    unfinished_tasks (queue s) + length (set_calls s)
      = length (items (queue s)) + length (tasks s)
}.

(** What one label may do to the completion signals: nothing, or one call
    of [on_done.set()], for a task that has ended, which at the same time
    leaves the running set while one queue item is marked as done. *)
Definition sets_with_cleanup (s s' : state) : Prop :=
  set_calls s' = set_calls s
  \/ exists t x, tasks s' !! t = Some x /\ is_done x
       /\ set_calls s' = set_calls s ++ [task_on_done x]
       /\ t ∈ running_commands s
       /\ running_commands s' = running_commands s ∖ {[t]}
       /\ S (unfinished_tasks (queue s')) = unfinished_tasks (queue s).

(** Kept by the activity of a running consumer: a task that has not ended
    is in the running set, and no task has been cancelled. *)
Record orderly (s : state) : Prop := {
  pending_running :
    forall t, status_of t s = Some Pending -> t ∈ running_commands s;
  none_cancelled :
    forall t, status_of t s <> Some (Done Cancelled)
}.

(** Kept by the activity of a running consumer: a task whose done callbacks
    have not been called is in the running set, and the event of a task
    whose done callbacks have been called is set. *)
Record signalled (s : state) : Prop := {
  waiting_running :
    forall t x, tasks s !! t = Some x -> callbacks x <> [] -> t ∈ running_commands s;
  called_set :
    forall t x, tasks s !! t = Some x -> callbacks x = [] -> task_on_done x ∈ set_calls s
}.

(** The queue item a task was made for. *)
Definition task_item (x : task) : command * nat := (task_command x, task_on_done x).

(** The commands passed to [InternalProducer.send] along a run, oldest
    first, and the same commands paired with the events [send] returned
    for them. *)
Definition sent_by (l : label) : option command :=
  match l with Activity (Send c) => Some c | _ => None end.

Definition sent (ls : list label) : list command := omap sent_by ls.

Definition numbered (cs : list command) : list (command * nat) :=
  imap (fun i c => (c, i)) cs.

(** The tasks made so far followed by the queued items are the commands
    [cs], numbered in the order they were sent. *)
Definition fifo (cs : list command) (s : state) : Prop :=
  (task_item <$> tasks s) ++ items (queue s) = numbered cs
  /\ next_event s = length cs.

(** A transition that makes no task, changes no task's item or state, and
    leaves the queued items and the consumer loop alone. *)
Definition same_tasks (s s' : state) : Prop :=
  (forall i, status_of i s' = status_of i s)
  /\ task_item <$> tasks s' = task_item <$> tasks s
  /\ consumer_task s' = consumer_task s
  /\ items (queue s') = items (queue s)
  /\ next_event s' = next_event s.

(** The consumer after [stop]: the loop is off and the running set is empty. *)
Definition stopped (s : state) : Prop :=
  consumer_task s = false /\ running_commands s = ∅.

(** The end of a handler, or the call of the done callbacks of a task. *)
Definition is_ending (a : activity) : bool :=
  match a with HandlerEnds _ _ | DoneCallbacks _ => true | _ => false end.

(** A schedule that lets a running consumer finish its work: the loop picks
    up every queued item, every handler ends (the handler of task [t] as
    [endings t] says: it returns or raises), and the done callbacks of every
    task are called. *)
Definition drain (endings : nat -> option exn) (s : state) : list activity :=
  let n := length (tasks s) + qsize (queue s) in
  replicate (qsize (queue s)) LoopIteration
    ++ ((fun t => HandlerEnds t (endings t)) <$> seq 0 n)
    ++ (DoneCallbacks <$> seq 0 n).

End InternalConsumer.

(** ** transports/base.py: EventTransport *)

Module EventTransport.

(** [send_event] of the base class. *)
Definition send_event (event_message : EventMessage) (options : options) : result unit :=
  Err (NotImplementedError EmptyString).

(** [consume] of the base class; [class_name] is [self.__class__.__name__]. *)
Definition consume (class_name : string)
    (listen_for : list (string * string)) (listener_name : string)
    : result (list (list EventMessage)) :=
  Err (NotImplementedError
         ("Event transport " +:+ class_name +:+ " does not support listening for events")).

(** [acknowledge] of the base class: [pass]. *)
Definition acknowledge (event_messages : list EventMessage) : result unit := Ok tt.

(** [history] of the base class. *)
Definition history (class_name : string) (api_name event_name : string)
    : result (list EventMessage) :=
  Err (NotImplementedError
         ("Event transport " +:+ class_name +:+ " does not support event history.")).

(** [_sanity_check_listen_for]: "Call at the start of your consume()
    implementation." *)
Definition _sanity_check_listen_for (listen_for : list (string * string)) : result unit :=
  match listen_for with
  | [] => Err NothingToListenFor
  | _ :: _ => Ok tt
  end.

End EventTransport.

(** ** client/subclients/event.py *)

Module EventClient.

(** [inspect.Parameter.kind]. *)
Inductive parameter_kind : Type :=
  | POSITIONAL_ONLY
  | POSITIONAL_OR_KEYWORD
  | VAR_POSITIONAL
  | KEYWORD_ONLY
  | VAR_KEYWORD.

(** A value passed as [listener]: not callable; callable, with the
    parameter kinds of [inspect.signature(listener)]; or callable with
    [inspect.signature(listener)] raising [raised] ([ValueError] when
    [inspect] finds no signature, as for the built-in type [int];
    [TypeError] for a kind of callable it does not support). *)
Inductive pyobject : Type :=
  | NotCallable
  | Callable (parameters : list parameter_kind)
  | CallableWithoutSignature (raised : exn).

(** The loop of [sanity_check_listener] over the signature's parameters
    ([inspect.signature(listener)] is evaluated once, before the first turn):
    the pair is [(total_positional_args, has_variable_positional_args)]. *)
Definition count_parameter (acc : nat * bool) (kind : parameter_kind) : nat * bool :=
  match kind with
  | POSITIONAL_ONLY | POSITIONAL_OR_KEYWORD => (S acc.1, acc.2)
  | VAR_POSITIONAL => (acc.1, true)
  | KEYWORD_ONLY | VAR_KEYWORD => acc
  end.

Definition sanity_check_listener (listener : pyobject) : result unit :=
  match listener with
  | NotCallable => Err (InvalidEventListener "is not callable")
  | Callable parameters =>
      let '(total_positional_args, has_variable_positional_args) :=
        foldl count_parameter (0, false) parameters in
      if has_variable_positional_args then Ok tt
      else if total_positional_args =? 0
      then Err (InvalidEventListener "must take at one positional argument")
      else Ok tt
  | CallableWithoutSignature raised => Err raised
  end.

(** Reading a signature: a positional parameter; variable positional
    arguments. *)
Definition takes_positional (kind : parameter_kind) : bool :=
  match kind with POSITIONAL_ONLY | POSITIONAL_OR_KEYWORD => true | _ => false end.

Definition is_var_positional (kind : parameter_kind) : bool :=
  match kind with VAR_POSITIONAL => true | _ => false end.

(** An entry of [event.parameters]: a [Parameter] object or a bare name. *)
Inductive parameter : Type :=
  | ParameterObject (name : string)
  | ParameterName (name : string).

(** [p.name if isinstance(p, Parameter) else p]. *)
Definition parameter_name (p : parameter) : string :=
  match p with ParameterObject n => n | ParameterName n => n end.

(** An event and an API as [fire_event] reads them ([event.parameters],
    [api.meta.name], [api.meta.version], [api.get_event(name)]); their
    classes are not among the sources. *)
Record Event : Type := { parameters : list parameter }.

Record Api : Type := {
  meta_name : string;
  meta_version : nat;
  events : gmap string Event
}.

(** [{p.name if isinstance(p, Parameter) else p for p in event.parameters}]. *)
Definition parameter_names (event : Event) : gset string :=
  list_to_set (parameter_name <$> parameters event).

(** The parts of the client that are not among the sources, taken as
    given: the API registry, the name validator, the value deformer, the
    schema validators, the per-API [cast_values] flag and the caster. *)
Record collaborators : Type := {
  api_registry : gmap string Api;
  validate_event_or_rpc_name : string -> string -> string -> result unit;
  deform_to_bus : gmap string value -> gmap string value;
  validate_outgoing : EventMessage -> result unit;
  validate_incoming : EventMessage -> result unit;
  cast_values : string -> bool;
  cast_to_signature : gmap string value -> pyobject -> gmap string value
}.

Inductive log_message : Type :=
  | SendingEvent (api_name name : string)
  | ReceivedEvent (api_name name : string)
  | UnknownListener (listener_name : string) (had : list string).

(** Calls that leave the client, in the order they are made. *)
Inductive observation : Type :=
  | LazyLoaded
  | Hook (name : string) (event_message : EventMessage)
  | Logged (m : log_message)
  | UserCallable (listener : pyobject) (args : list EventMessage) (kwargs : gmap string value).

(** What [self._event_listeners[name]] would have to be for
    [listener.incoming_events] to make sense. *)
Record listener_entry : Type := { incoming_events : nat }.

(** The operations a coroutine of the client performs on its surroundings;
    [ProducerSend] is [self.producer.send], [EventWait e] is
    [await e.wait()], [QueueGet]/[QueuePut] act on the intake queues made by
    [NewQueue]. *)
Inductive eff : Type -> Type :=
  | LazyLoadNow : eff unit
  | ExecuteHook (name : string) (event_message : EventMessage) : eff unit
  | Logger (m : log_message) : eff unit
  | EventListeners : eff (gset string)
  | EventListenersAdd (listener_name : string) : eff unit
  | NewQueue : eff nat
  | QueueGet (q : nat) : eff EventMessage
  | QueuePut (q : nat) (m : EventMessage) : eff unit
  | ProducerSend (c : command) : eff nat
  | EventWait (on_done : nat) : eff unit
  | RunUserProvidedCallable
      (listener : pyobject) (args : list EventMessage) (kwargs : gmap string value) : eff unit.

(** A coroutine: it returns, raises, or performs an operation and goes on
    with its answer. *)
Inductive coro (R : Type) : Type :=
  | Ret (r : R)
  | Raise (e : exn)
  | Vis {X : Type} (e : eff X) (k : X -> coro R).
Arguments Ret {R} r.
Arguments Raise {R} e.
Arguments Vis {R X} e k.

Fixpoint coro_bind {A B : Type} (f : A -> coro B) (c : coro A) : coro B :=
  match c with
  | Ret r => f r
  | Raise e => Raise e
  | Vis e k => Vis e (fun x => coro_bind f (k x))
  end.

Definition trigger {X : Type} (e : eff X) : coro X := Vis e Ret.

Definition lift {A : Type} (r : result A) : coro A :=
  match r with Ok a => Ret a | Err e => Raise e end.

Notation "x <- c ;; k" := (coro_bind (fun x => k) c)
  (at level 100, c at next level, right associativity).
Notation "c ;;; k" := (coro_bind (fun _ => k) c)
  (at level 100, right associativity).

(** The client and what it shares with the rest of the process:
    - [event_listeners]: [self._event_listeners];
    - [channel]: the producer's queue and events, with the consumer on the
      transport side that handles the commands;
    - [queues]: the intake queues made by [listen], by reference;
    - [trace]: the observations so far, oldest first. *)
Record world : Type := World {
  event_listeners : gset string;
  channel : InternalConsumer.state;
  queues : list (list EventMessage);
  trace : list observation
}.

Definition observe (o : observation) (w : world) : world :=
  World (event_listeners w) (channel w) (queues w) (trace w ++ [o]).

Definition with_channel (c : InternalConsumer.state) (w : world) : world :=
  World (event_listeners w) c (queues w) (trace w).

Definition with_queues (qs : list (list EventMessage)) (w : world) : world :=
  World (event_listeners w) (channel w) qs (trace w).

Definition with_event_listeners (l : gset string) (w : world) : world :=
  World l (channel w) (queues w) (trace w).

(** One operation; [None] when the coroutine has to wait: an event that is
    not set, an empty queue. *)
Definition perform {X : Type} (e : eff X) (w : world) : option (X * world) :=
  match e in eff T return option (T * world) with
  | LazyLoadNow => Some (tt, observe LazyLoaded w)
  | ExecuteHook name m => Some (tt, observe (Hook name m) w)
  | Logger m => Some (tt, observe (Logged m) w)
  | EventListeners => Some (event_listeners w, w)
  | EventListenersAdd name =>
      Some (tt, with_event_listeners ({[name]} ∪ event_listeners w) w)
  | NewQueue => Some (length (queues w), with_queues (queues w ++ [[]]) w)
  | QueueGet q =>
      match queues w !! q with
      | Some (m :: rest) => Some (m, with_queues (<[q := rest]> (queues w)) w)
      | _ => None
      end
  | QueuePut q m => Some (tt, with_queues (alter (fun l => l ++ [m]) q (queues w)) w)
  | ProducerSend c =>
      let '(event, ch) := InternalConsumer.producer_send c (channel w) in
      Some (event, with_channel ch w)
  | EventWait on_done =>
      if decide (on_done ∈ InternalConsumer.set_calls (channel w)) then Some (tt, w) else None
  | RunUserProvidedCallable listener args kwargs =>
      Some (tt, observe (UserCallable listener args kwargs) w)
  end.

Inductive status (R : Type) : Type :=
  | Returned (r : R)
  | Raised (e : exn)
  | Suspended (rest : coro R).
Arguments Returned {R} r.
Arguments Raised {R} e.
Arguments Suspended {R} rest.

(** Run a coroutine until it returns, raises or has to wait; a suspended
    coroutine is resumed by running [rest] in a later world. *)
Fixpoint run {R : Type} (c : coro R) (w : world) : world * status R :=
  match c with
  | Ret r => (w, Returned r)
  | Raise e => (w, Raised e)
  | Vis e k =>
      match perform e w with
      | Some (x, w') => run (k x) w'
      | None => (w, Suspended (Vis e k))
      end
  end.

Section Client.

Context (ext : collaborators).

(** Modelled from the spec: [BaseSubClient.send_to_event_transports] is not
    among the sources.  The spec: fire and acknowledge "dispatch a [SendEvent]
    command through the Producer". *)
Definition send_to_event_transports (c : command) : coro nat := trigger (ProducerSend c).

(** [fire_event(api_name, name, kwargs, options)]. *)
Definition fire_event (api_name name : string)
    (kwargs : option (gmap string value)) (options : options) : coro unit :=
  trigger LazyLoadNow ;;;
  let kwargs := default ∅ kwargs in
  match api_registry ext !! api_name with
  | None => Raise (UnknownApi api_name name)
  | Some api =>
      lift (validate_event_or_rpc_name ext api_name "event" name) ;;;
      match events api !! name with
      | None => Raise (EventNotFound api_name name)
      | Some event =>
          let parameter_names := parameter_names event in
          if decide (dom kwargs ≠ parameter_names) then
            Raise (InvalidEventArguments
                     (size kwargs) (sorted (elements (dom kwargs)))
                     (length (parameters event)) (sorted (elements parameter_names)))
          else
            let kwargs := deform_to_bus ext kwargs in
            let event_message :=
              {| api_name := meta_name api; event_name := name;
                 kwargs := kwargs; version := meta_version api |} in
            lift (validate_outgoing ext event_message) ;;;
            trigger (ExecuteHook "before_event_sent" event_message) ;;;
            trigger (Logger (SendingEvent api_name name)) ;;;
            on_done <- send_to_event_transports (SendEventCommand event_message options) ;;
            trigger (EventWait on_done) ;;;
            trigger (ExecuteHook "after_event_sent" event_message)
      end
  end.

(** [for api_name, name in events: validate_event_or_rpc_name(api_name,
    "event", name)]. *)
Fixpoint validate_events (events : list (string * string)) : result unit :=
  match events with
  | [] => Ok tt
  | (api_name, name) :: rest =>
      Py.bind (validate_event_or_rpc_name ext api_name "event" name)
        (fun _ => validate_events rest)
  end.

(** [_on_message(event_message, listener, options)]. *)
Definition _on_message (event_message : EventMessage) (listener : pyobject)
    (options : options) : coro unit :=
  trigger (Logger (ReceivedEvent (api_name event_message) (event_name event_message))) ;;;
  lift (validate_incoming ext event_message) ;;;
  trigger (ExecuteHook "before_event_execution" event_message) ;;;
  let parameters :=
    if cast_values ext (api_name event_message)
    then cast_to_signature ext (kwargs event_message) listener
    else kwargs event_message in
  trigger (RunUserProvidedCallable listener [event_message] parameters) ;;;
  on_done <- send_to_event_transports (AcknowledgeEventCommand event_message options) ;;
  trigger (EventWait on_done) ;;;
  trigger (ExecuteHook "after_event_execution" event_message).

(** One turn of the [while True] of the coroutine function [listener()]
    nested in [listen]; inside it the name [listener] is that nested
    function itself, which takes no parameters. *)
Definition listener_iteration (queue : nat) (options : options) : coro unit :=
  event_message <- trigger (QueueGet queue) ;;
  _on_message event_message (Callable []) options.

(** [listen(events, listener, listener_name, options)].  The nested
    [listener()] is only defined: [listen] neither calls nor schedules it,
    so [listener_iteration] does not occur below. *)
Definition listen (events : list (string * string)) (listener : pyobject)
    (listener_name : string) (options : options) : coro unit :=
  lift (sanity_check_listener listener) ;;;
  listeners <- trigger EventListeners ;;
  if decide (listener_name ∈ listeners) then
    Raise (ListenerAlreadyRegistered listener_name)
  else
    lift (validate_events events) ;;;
    queue <- trigger NewQueue ;;
    on_done <- trigger (ProducerSend (ConsumeEventsCommand events queue listener_name)) ;;
    trigger (EventWait on_done) ;;;
    trigger (EventListenersAdd listener_name).

(** [handle_receive_event(command)]. *)
Definition handle_receive_event (message : EventMessage) (listener_name : string)
    : coro unit :=
  listeners <- trigger EventListeners ;;
  if decide (listener_name ∉ listeners) then
    had <- lift (Py.set_keys listeners) ;;
    trigger (Logger (UnknownListener listener_name had)) ;;;
    Ret tt
  else
    listener <- lift (Py.set_getitem listeners listener_name) ;;
    trigger (QueuePut (incoming_events listener) message).

(** The text an attribute takes in an f-string (only names are rendered). *)
Definition render (a : attribute) : string :=
  match a with AName s => s | _ => "..." end.

(** [handle(command)]: single dispatch on the command's class, with
    [handle_receive_event] registered for [ReceiveEventCommand]; the default
    body formats [command.__name__] into the message it raises. *)
Definition handle (c : command) : coro unit :=
  match c with
  | ReceiveEventCommand message listener_name => handle_receive_event message listener_name
  | _ =>
      name <- lift (Commands.getattr c "__name__") ;;
      Raise (NotImplementedError ("Did not recognise command " +:+ render name))
  end.

End Client.

End EventClient.

(** ** utilities/config.py *)

Module Config.

Import EventClient.

(** An [inspect.Parameter] of the signature of [from_config]: its name, its
    kind, and its annotation and default, which are carried along and never
    looked at. *)
Record signature_parameter : Type := {
  name : string;
  kind : parameter_kind;
  annotation : string;
  default_of : option value
}.

(** [from_config_method] as [inspect.signature] sees it: an object with a
    signature, or one for which [inspect.signature] raises ([TypeError] for
    an object that is not callable, [ValueError] for a callable without a
    signature that [inspect] can find). *)
Inductive method : Type :=
  | WithSignature (parameters : list signature_parameter)
  | WithoutSignature (e : exn).

(** [inspect.signature(from_config_method).parameters.values()]. *)
Definition signature (from_config_method : method) : result (list signature_parameter) :=
  match from_config_method with
  | WithSignature parameters => Ok parameters
  | WithoutSignature e => Err e
  end.

(** The two [logger.warning] calls, with the class name they mention. *)
Inductive log_record : Type :=
  | PositionalNotSupported (class_name : string)
  | KwargsNotSupported (class_name : string).

Definition newline : string := String (Ascii.ascii_of_nat 10) EmptyString.

(** [f"class {class_name}Config(NamedTuple):\n    pass\n"]. *)
Definition class_header (class_name : string) : string :=
  "class " +:+ class_name +:+ "Config(NamedTuple):" +:+ newline +:+ "    pass" +:+ newline.

(** [f"    {name}: p['{name}'].annotation = p['{name}'].default\n"]. *)
Definition field_line (name : string) : string :=
  "    " +:+ name +:+ ": p['" +:+ name +:+ "'].annotation = p['" +:+ name
    +:+ "'].default" +:+ newline.

(** The variables of the loop of [make_from_config_structure]: the source
    text [code], the dictionary [vars["p"]] and the warnings logged. *)
Record structure : Type := Structure {
  code : string;
  p : gmap string signature_parameter;
  log : list log_record
}.

(** The body of [for parameter in itertools.chain(parameters,
    extra_parameters)]. *)
Definition add_parameter (class_name : string) (acc : structure)
    (parameter : signature_parameter) : structure :=
  if String.eqb (name parameter) "config" then acc
  else
    match kind parameter with
    | POSITIONAL_ONLY | VAR_POSITIONAL =>
        Structure (code acc) (p acc) (log acc ++ [PositionalNotSupported class_name])
    | VAR_KEYWORD =>
        Structure (code acc) (p acc) (log acc ++ [KwargsNotSupported class_name])
    | POSITIONAL_OR_KEYWORD | KEYWORD_ONLY =>
        Structure (code acc +:+ field_line (name parameter))
          (<[name parameter := parameter]> (p acc)) (log acc)
    end.

(** A class object, by the attributes set on it. *)
Definition pyclass : Type := gmap string value.

(** What the interpreter makes of the generated source: [exec(code,
    globals_)] with [p] among the globals, followed by the lookup
    [globals_[f"{class_name}Config"]].  The outcome is the class, or the
    exception that [exec] or the lookup raises: [NamedTuple] refuses a field
    whose name starts with an underscore, and a class name that is no
    identifier makes the source ill-formed.  The interpreter is not
    embedded: [make_from_config_structure] takes it as its first
    argument. *)
Definition interpreter : Type :=
  string -> gmap string signature_parameter -> string -> result pyclass.

(** [enable_config_inheritance(cls)]: [cls._enable_config_inheritance =
    True; return cls]. *)
Definition enable_config_inheritance (cls : pyclass) : pyclass :=
  <["_enable_config_inheritance" := VBool true]> cls.

(** [make_from_config_structure(class_name, from_config_method,
    extra_parameters)]: the warnings logged, and the class returned or the
    exception raised.  An exception of [inspect.signature] leaves before the
    loop; one of [exec] or of the lookup leaves after it, with the warnings
    logged and before [enable_config_inheritance]. *)
Definition make_from_config_structure (exec : interpreter) (class_name : string)
    (from_config_method : method) (extra_parameters : list signature_parameter)
    : list log_record * result pyclass :=
  match signature from_config_method with
  | Err e => ([], Err e)
  | Ok parameters =>
      let vars :=
        foldl (add_parameter class_name) (Structure (class_header class_name) ∅ [])
          (parameters ++ extra_parameters) in
      (log vars,
       Py.bind (exec (code vars) (p vars) (class_name +:+ "Config"))
         (fun cls => Ok (enable_config_inheritance cls)))
  end.

(** Reading a signature: the parameters that become fields, and the ones
    that are warned about. *)
Definition is_field (parameter : signature_parameter) : bool :=
  negb (String.eqb (name parameter) "config")
  && match kind parameter with
     | POSITIONAL_OR_KEYWORD | KEYWORD_ONLY => true
     | _ => false
     end.

Definition warning_for (class_name : string) (parameter : signature_parameter)
    : option log_record :=
  if String.eqb (name parameter) "config" then None
  else
    match kind parameter with
    | POSITIONAL_ONLY | VAR_POSITIONAL => Some (PositionalNotSupported class_name)
    | VAR_KEYWORD => Some (KwargsNotSupported class_name)
    | _ => None
    end.

Definition lines (names : list string) : string :=
  foldr (fun n rest => field_line n +:+ rest) EmptyString names.

End Config.

(** ** A concrete client, for the scenarios of the specification *)

Module Scenario.

Import EventClient.

Definition order_placed : Event := {| parameters := [ParameterName "order_id"] |}.

Definition shop : Api :=
  {| meta_name := "shop"; meta_version := 1;
     events := {["order_placed" := order_placed]} |}.

(** Names starting with an underscore are refused; everything else passes. *)
Definition ext : collaborators :=
  {| api_registry := {["shop" := shop]};
     validate_event_or_rpc_name := fun api_name _ name =>
       if String.prefix "_" name then Err (InvalidName api_name name) else Ok tt;
     deform_to_bus := fun kwargs => kwargs;
     validate_outgoing := fun _ => Ok tt;
     validate_incoming := fun _ => Ok tt;
     cast_values := fun _ => false;
     cast_to_signature := fun kwargs _ => kwargs |}.

(** The same API with one more event, whose name the name check above
    refuses, and a client that has this API registered. *)
Definition shop_internal : Api :=
  {| meta_name := "shop"; meta_version := 1;
     events := {["order_placed" := order_placed; "_internal" := order_placed]} |}.

Definition ext_internal : collaborators :=
  {| api_registry := {["shop" := shop_internal]};
     validate_event_or_rpc_name := validate_event_or_rpc_name ext;
     deform_to_bus := deform_to_bus ext;
     validate_outgoing := validate_outgoing ext;
     validate_incoming := validate_incoming ext;
     cast_values := cast_values ext;
     cast_to_signature := cast_to_signature ext |}.

Definition order_1 : gmap string value := {["order_id" := VInt 1]}.

Definition M : EventMessage :=
  {| api_name := "shop"; event_name := "order_placed"; kwargs := order_1; version := 1 |}.

(** A listener [def on_order(event_message, **kwargs)]. *)
Definition on_order : pyobject := Callable [POSITIONAL_OR_KEYWORD; VAR_KEYWORD].

(** A fresh client whose producer feeds a started consumer. *)
Definition w0 : world := World ∅ InternalConsumer.started [] [].

(** Resuming a suspended coroutine in a later world. *)
Definition resume {R : Type} (r : world * status R) (w : world) : world * status R :=
  match r.2 with
  | Suspended rest => run rest w
  | _ => r
  end.

(** [listen] for "L1" on the fresh client, up to its suspension. *)
Definition listening : world * status unit :=
  run (listen ext [("shop", "order_placed")] on_order "L1" None) w0.

(** The consumer picks the command up, its handler returns, its done
    callbacks are called. *)
Definition handled : list InternalConsumer.label :=
  [InternalConsumer.Activity InternalConsumer.LoopIteration;
   InternalConsumer.Activity (InternalConsumer.HandlerEnds 0 None);
   InternalConsumer.Activity (InternalConsumer.DoneCallbacks 0)].

(** The client once [listen] has been resumed and has returned. *)
Definition registered : world :=
  (resume listening
     (with_channel (InternalConsumer.run_labels handled (channel listening.1))
        listening.1)).1.

(** Two commands sent and picked up: two handlers running. *)
Definition c1 : command := SendEventCommand M None.

Definition c2 : command := AcknowledgeEventCommand M None.

Definition two_running : list InternalConsumer.activity :=
  [InternalConsumer.Send c1; InternalConsumer.Send c2;
   InternalConsumer.LoopIteration; InternalConsumer.LoopIteration].

End Scenario.

(** * Properties *)

(** ** The queue monitor *)

Section QueueMonitor.

Import InternalProducer.

Lemma monitor_iteration_cases (T : nat) (prev : option nat) (cur : nat) :
  monitor_iteration T prev cur =
    if grown_at_or_above T (prev, cur) then [LogNowHas cur]
    else if shrunk_at_or_above T (prev, cur) then [LogShrunk cur EmptyString]
    else if dropped_below T (prev, cur) then [LogShrunk cur ok_again]
    else [].
Proof.
  unfold monitor_iteration, grown_at_or_above, shrunk_at_or_above, dropped_below; simpl.
  destruct prev as [p|]; simpl.
  - destruct (Nat.eq_dec cur p) as [Heq|Hne]; case_bool_decide; try congruence;
      destruct (Nat.leb_spec T cur), (Nat.ltb_spec cur p), (Nat.ltb_spec p cur),
        (Nat.leb_spec T p), (Nat.ltb_spec cur T); simpl; try lia; reflexivity.
  - destruct (Nat.leb_spec T cur); simpl; try reflexivity.
    destruct (Nat.ltb_spec cur T); reflexivity.
Qed.

Lemma queue_monitor_from_pairs (T : nat) (samples : list nat) (prev : option nat) :
  queue_monitor_from T prev samples =
    flat_map (fun p => monitor_iteration T p.1 p.2) (sample_pairs prev samples).
Proof.
  revert prev; induction samples as [|cur rest IH]; intros prev; simpl; [reflexivity|].
  by rewrite IH.
Qed.

Lemma count_app {A} (f : A -> bool) (l1 l2 : list A) :
  count f (l1 ++ l2) = count f l1 + count f l2.
Proof. unfold count. by rewrite filter_app, length_app. Qed.

Lemma count_cons {A} (f : A -> bool) (x : A) (l : list A) :
  count f (x :: l) = (if f x then 1 else 0) + count f l.
Proof.
  unfold count. destruct (f x) eqn:E.
  - rewrite filter_cons_True by done. reflexivity.
  - rewrite filter_cons_False by (rewrite E; done). reflexivity.
Qed.

Lemma count_nil {A} (f : A -> bool) : count f [] = 0.
Proof. reflexivity. Qed.

(** The three situations in which something is logged exclude each other. *)
Lemma sample_cases_exclusive (T : nat) (p : option nat * nat) :
  (grown_at_or_above T p = true -> shrunk_at_or_above T p = false /\ dropped_below T p = false)
  /\ (shrunk_at_or_above T p = true -> dropped_below T p = false)
  /\ changed_at_or_above T p = grown_at_or_above T p || shrunk_at_or_above T p.
Proof.
  destruct p as [[q|] cur]; unfold grown_at_or_above, shrunk_at_or_above, dropped_below,
    changed_at_or_above; simpl.
  - destruct (Nat.eq_dec cur q) as [Heq|Hne]; case_bool_decide; try congruence;
      destruct (Nat.leb_spec T cur), (Nat.ltb_spec cur q), (Nat.ltb_spec q cur),
        (Nat.leb_spec T q), (Nat.ltb_spec cur T); simpl; repeat split; intros; try lia;
        try discriminate; reflexivity.
  - destruct (Nat.leb_spec T cur), (Nat.ltb_spec cur T); simpl; repeat split; intros;
      try lia; try discriminate; reflexivity.
Qed.

Lemma queue_monitor_counts (T : nat) (samples : list nat) (prev : option nat) :
  let log := queue_monitor_from T prev samples in
  let pairs := sample_pairs prev samples in
  count is_growth_warning log = count (grown_at_or_above T) pairs
  /\ count is_recovery_notice log = count (dropped_below T) pairs
  /\ count (fun r => is_shrunk_message r && negb (is_recovery_notice r)) log
     = count (shrunk_at_or_above T) pairs
  /\ count (fun r => negb (is_recovery_notice r)) log = count (changed_at_or_above T) pairs.
Proof.
  revert prev; induction samples as [|cur rest IH]; intros prev; simpl; [done|].
  specialize (IH (Some cur)); simpl in IH. destruct IH as (IH1 & IH2 & IH3 & IH4).
  rewrite !count_app, !count_cons, IH1, IH2, IH3, IH4; simpl.
  rewrite monitor_iteration_cases.
  destruct (sample_cases_exclusive T (prev, cur)) as (Hg & Hs & ->).
  destruct (grown_at_or_above T (prev, cur)) eqn:Eg.
  { destruct (Hg eq_refl) as [-> ->]. rewrite !count_cons, !count_nil. simpl. done. }
  destruct (shrunk_at_or_above T (prev, cur)) eqn:Es.
  { rewrite (Hs eq_refl). rewrite !count_cons, !count_nil. simpl. done. }
  destruct (dropped_below T (prev, cur)) eqn:Ed; rewrite ?count_cons, !count_nil; simpl; done.
Qed.

(** C6, as stated, fails on the samples 10, 7 with the default threshold 5: the second
    sample is at or above the threshold and differs from the first, yet the
    only record logged for it is the "has shrunk back down" message (with an
    empty [everything_ok]), so one growth warning is logged for two such
    samples. *)
Lemma queue_monitor_shrunk_above_threshold :
  _queue_monitor size_warning [10; 7] = [LogNowHas 10; LogShrunk 7 EmptyString]
  /\ count (changed_at_or_above size_warning) (sample_pairs None [10; 7]) = 2
  /\ count is_growth_warning (_queue_monitor size_warning [10; 7]) = 1.
Proof. repeat split. Qed.

(** C6 (amended): for every threshold and every sequence of sampled queue
    lengths, the log is the concatenation of what each sample contributes,
    and a sample contributes at most one record:
    - the growth warning exactly when it is at or above the threshold and is
      the first sample or larger than the previous one;
    - the "shrunk back down" message without the recovery text exactly when
      it is at or above the threshold and smaller than the previous one;
    - the recovery notice exactly when it is below the threshold and the
      previous sample was at or above it;
    - nothing otherwise, in particular nothing for an unchanged size.
    Hence one record that is not a recovery notice per sample at or above
    the threshold that differs from the previous one, one recovery notice
    per drop below the threshold, and none while at or above it. *)
Theorem queue_monitor_log (T : nat) (samples : list nat) :
  let log := _queue_monitor T samples in
  let pairs := sample_pairs None samples in
  log = flat_map (fun p => monitor_iteration T p.1 p.2) pairs
  /\ (forall prev cur,
        (monitor_iteration T prev cur = [LogNowHas cur]
           <-> grown_at_or_above T (prev, cur) = true)
        /\ (monitor_iteration T prev cur = [LogShrunk cur EmptyString]
           <-> shrunk_at_or_above T (prev, cur) = true)
        /\ (monitor_iteration T prev cur = [LogShrunk cur ok_again]
           <-> dropped_below T (prev, cur) = true)
        /\ (monitor_iteration T prev cur = []
           <-> changed_at_or_above T (prev, cur) = false
               /\ dropped_below T (prev, cur) = false)
        /\ (prev = Some cur -> monitor_iteration T prev cur = [])
        /\ (T <= cur -> count is_recovery_notice (monitor_iteration T prev cur) = 0))
  /\ count is_growth_warning log = count (grown_at_or_above T) pairs
  /\ count (fun r => is_shrunk_message r && negb (is_recovery_notice r)) log
     = count (shrunk_at_or_above T) pairs
  /\ count is_recovery_notice log = count (dropped_below T) pairs
  /\ count (fun r => negb (is_recovery_notice r)) log
     = count (changed_at_or_above T) pairs.
Proof.
  simpl. split; [apply queue_monitor_from_pairs|]. split.
  - intros prev cur. rewrite monitor_iteration_cases.
    destruct (sample_cases_exclusive T (prev, cur)) as (Hg & Hs & ->).
    assert (Hunch : prev = Some cur ->
              grown_at_or_above T (prev, cur) = false
              /\ shrunk_at_or_above T (prev, cur) = false
              /\ dropped_below T (prev, cur) = false).
    { intros ->. unfold grown_at_or_above, shrunk_at_or_above, dropped_below; simpl.
      rewrite Nat.ltb_irrefl, andb_false_r.
      destruct (Nat.ltb_spec cur T), (Nat.leb_spec T cur); simpl; try lia; done. }
    assert (Hab : T <= cur -> dropped_below T (prev, cur) = false).
    { intros HT. unfold dropped_below; simpl. destruct (Nat.ltb_spec cur T); [lia|done]. }
    destruct (grown_at_or_above T (prev, cur)) eqn:Eg;
      [destruct (Hg eq_refl) as [-> ->]|];
      (destruct (shrunk_at_or_above T (prev, cur)) eqn:Es;
        [try rewrite (Hs eq_refl)|]);
      destruct (dropped_below T (prev, cur)) eqn:Ed;
      repeat split; intros; simpl in *; try done;
      repeat match goal with
        | H : _ /\ _ |- _ => destruct H
        | H : prev = Some cur |- _ => destruct (Hunch H) as (? & ? & ?); clear Hunch
        | H : T <= cur |- _ => pose proof (Hab H); clear Hab H
        end; try done; try congruence.
  - pose proof (queue_monitor_counts T samples None) as H; simpl in H.
    destruct H as (H1 & H2 & H3 & H4). done.
Qed.

(** *** What the log looks like *)

Lemma monitor_iteration_below (T : nat) (prev : option nat) (cur : nat) :
  cur < T -> (forall p, prev = Some p -> p < T) -> monitor_iteration T prev cur = [].
Proof.
  intros Hc Hp. rewrite monitor_iteration_cases.
  unfold grown_at_or_above, shrunk_at_or_above, dropped_below; simpl.
  destruct (Nat.leb_spec T cur); [lia|]. simpl.
  destruct prev as [p|]; [|by rewrite andb_false_r].
  specialize (Hp p eq_refl). destruct (Nat.leb_spec T p); [lia|]. by rewrite andb_false_r.
Qed.

Lemma monitor_iteration_reaches (T : nat) (prev : option nat) (cur : nat) :
  T <= cur -> (forall p, prev = Some p -> p < T) -> monitor_iteration T prev cur = [LogNowHas cur].
Proof.
  intros Hc Hp. rewrite monitor_iteration_cases.
  unfold grown_at_or_above; simpl.
  destruct (Nat.leb_spec T cur); [|lia]. simpl.
  destruct prev as [p|]; [|done].
  specialize (Hp p eq_refl). destruct (Nat.ltb_spec p cur); [done|lia].
Qed.

Lemma queue_monitor_from_silent (T : nat) (prev : option nat) (samples : list nat) :
  (forall p, prev = Some p -> p < T) ->
  queue_monitor_from T prev samples = [] <-> Forall (fun n => n < T) samples.
Proof.
  revert prev. induction samples as [|cur rest IH]; intros prev Hp; simpl.
  { split; [constructor|done]. }
  destruct (Nat.lt_ge_cases cur T) as [Hlt|Hge].
  - rewrite monitor_iteration_below by done. simpl.
    rewrite (IH (Some cur)) by (by intros p [= <-]).
    split; [by constructor|]. by inversion 1.
  - rewrite monitor_iteration_reaches by done. split; [done|].
    inversion 1; subst; lia.
Qed.

(** X1: whatever the threshold and the samples, the monitor logs nothing
    exactly when no sampled queue length reaches the threshold. *)
Theorem queue_monitor_silent_iff_below_threshold (T : nat) (samples : list nat) :
  _queue_monitor T samples = [] <-> Forall (fun n => n < T) samples.
Proof. apply queue_monitor_from_silent. done. Qed.

(** What one sample adds to the log, by the sizes reported. *)
Lemma monitor_iteration_sizes (T : nat) (prev : option nat) (cur : nat) :
  let log := monitor_iteration T prev cur in
  (exists r, log = [r] /\ record_size r = cur /\ is_recovery_notice r = false
             /\ T <= cur /\ prev <> Some cur)
  \/ (exists r p, log = [r] /\ record_size r = cur /\ is_recovery_notice r = true
                  /\ cur < T /\ prev = Some p /\ T <= p)
  \/ (log = [] /\ ((T <= cur /\ prev = Some cur)
                   \/ (cur < T /\ forall p, prev = Some p -> p < T))).
Proof.
  simpl. rewrite monitor_iteration_cases.
  unfold grown_at_or_above, shrunk_at_or_above, dropped_below; simpl.
  destruct (Nat.leb_spec T cur) as [Hge|Hlt]; simpl.
  - destruct prev as [p|]; [|left; exists (LogNowHas cur); by split_and!].
    destruct (Nat.ltb_spec p cur).
    { left. exists (LogNowHas cur). split_and!; try done. intros [= ->]. lia. }
    destruct (Nat.ltb_spec cur p).
    { left. exists (LogShrunk cur EmptyString). split_and!; try done. intros [= ->]. lia. }
    destruct (Nat.ltb_spec cur T); [lia|]. simpl.
    right; right. split; [done|]. left. split; [done|]. f_equal. lia.
  - destruct (Nat.ltb_spec cur T); [|lia]. simpl.
    destruct prev as [p|]; [|right; right; split; [done|right; split; [done|done]]].
    destruct (Nat.leb_spec T p).
    + right; left. exists (LogShrunk cur ok_again), p. split_and!; try done.
    + right; right. split; [done|]. right. split; [done|]. by intros ? [= <-].
Qed.

Lemma queue_monitor_from_alternates (T : nat) (samples : list nat)
    (prev last : option nat) :
  (forall p, prev = Some p -> T <= p -> last = Some p) ->
  (forall n, last = Some n -> T <= n -> prev = Some n) ->
  (forall n, last = Some n -> n < T -> exists p, prev = Some p /\ p < T) ->
  alternates T last (record_size <$> queue_monitor_from T prev samples).
Proof.
  revert prev last. induction samples as [|cur rest IH]; intros prev last H1 H2 H3; [done|].
  simpl. rewrite fmap_app.
  destruct (monitor_iteration_sizes T prev cur)
    as [(r & -> & Hr & _ & Hge & Hne)|[(r & p & -> & Hr & _ & Hlt & -> & Hp)|[-> Hsilent]]];
    simpl.
  - rewrite Hr. split; [|split].
    + intros ->. destruct Hne. by apply H2.
    + lia.
    + apply IH.
      * by intros ? [= <-].
      * by intros ? [= <-].
      * intros ? [= <-]. lia.
  - rewrite Hr. split; [|split].
    + intros ->. destruct (H3 cur eq_refl Hlt) as (p' & [= <-] & ?). lia.
    + intros _. exists p. split; [|done]. by apply H1.
    + apply IH.
      * intros ? [= <-]. lia.
      * intros ? [= <-]. lia.
      * intros ? [= <-] _. eauto.
  - apply IH.
    + intros ? [= <-] Hge. destruct Hsilent as [[_ ->]|[? _]]; [|lia]. by apply H1.
    + intros n -> Hge. destruct Hsilent as [[_ ->]|[? Hp]].
      * by rewrite (H2 n eq_refl Hge).
      * pose proof (H2 n eq_refl Hge) as ->. specialize (Hp n eq_refl). lia.
    + intros n -> Hlt. destruct (H3 n eq_refl Hlt) as (p & -> & Hp).
      destruct Hsilent as [[? [= ->]]|[? _]]; [lia|]. eauto.
Qed.

Lemma alternates_lookup (T : nat) (last : option nat) (sizes : list nat) :
  alternates T last sizes ->
  (forall n, sizes !! 0 = Some n -> last <> Some n /\ (n < T -> exists m, last = Some m /\ T <= m))
  /\ (forall i a b, sizes !! i = Some a -> sizes !! S i = Some b ->
        a <> b /\ (b < T -> T <= a)).
Proof.
  revert last. induction sizes as [|n rest IH]; intros last; simpl; [done|].
  intros (Hne & Hlow & Hrest). split.
  - intros ? [= <-]. done.
  - intros [|i] a b Ha Hb; simpl in *.
    + injection Ha as <-. destruct (IH _ Hrest) as [H0 _].
      destruct (H0 b Hb) as [Hab Hb']. split; [congruence|].
      intros Hlt. destruct (Hb' Hlt) as (m & [= <-] & ?). done.
    + destruct (IH _ Hrest) as [_ HS]. by apply (HS i).
Qed.

Lemma queue_monitor_from_sublist (T : nat) (samples : list nat) (prev : option nat) :
  sublist (record_size <$> queue_monitor_from T prev samples) samples.
Proof.
  revert prev. induction samples as [|cur rest IH]; intros prev; simpl; [done|].
  rewrite fmap_app.
  destruct (monitor_iteration_sizes T prev cur)
    as [(r & -> & Hr & _)|[(r & p & -> & Hr & _)|[-> _]]]; simpl.
  - rewrite Hr. by apply sublist_skip.
  - rewrite Hr. by apply sublist_skip.
  - by apply sublist_cons.
Qed.

Lemma queue_monitor_from_recovery (T : nat) (samples : list nat) (prev : option nat)
    (r : log_record) :
  r ∈ queue_monitor_from T prev samples ->
  (is_recovery_notice r = true <-> record_size r < T).
Proof.
  revert prev. induction samples as [|cur rest IH]; intros prev; simpl.
  { by intros ?%elem_of_nil. }
  rewrite elem_of_app. intros [Hin|Hin]; [|by eapply IH].
  destruct (monitor_iteration_sizes T prev cur)
    as [(r' & Hl & Hr & Hrec & Hge & _)|[(r' & p & Hl & Hr & Hrec & Hlt & _)|[Hl _]]];
    rewrite Hl in Hin.
  - apply list_elem_of_singleton in Hin as ->. rewrite Hrec, Hr. split; [done|lia].
  - apply list_elem_of_singleton in Hin as ->. rewrite Hrec, Hr. done.
  - by apply elem_of_nil in Hin.
Qed.

(** X2: the sizes the records report, in the order logged, are sampled
    queue lengths in the order sampled, at most one record per sample. *)
Theorem queue_monitor_reports_sampled_sizes (T : nat) (samples : list nat) :
  sublist (record_size <$> _queue_monitor T samples) samples.
Proof. apply queue_monitor_from_sublist. Qed.

(** X3: two records logged one after the other never report the same
    size. *)
Theorem queue_monitor_never_repeats_a_size (T : nat) (samples : list nat) (i : nat)
    (r1 r2 : log_record) :
  _queue_monitor T samples !! i = Some r1 ->
  _queue_monitor T samples !! S i = Some r2 ->
  record_size r1 <> record_size r2.
Proof.
  unfold _queue_monitor. intros H1 H2.
  pose proof (queue_monitor_from_alternates T samples None None) as Halt.
  destruct (alternates_lookup T None _ (Halt ltac:(done) ltac:(done) ltac:(done))) as [_ HS].
  apply (HS i); rewrite list_lookup_fmap; [by rewrite H1|by rewrite H2].
Qed.

(** The samples 10, 7 with the class threshold. *)
Lemma queue_monitor_never_repeats_a_size_witness :
  _queue_monitor size_warning [10; 7] !! 0 = Some (LogNowHas 10)
  /\ _queue_monitor size_warning [10; 7] !! 1 = Some (LogShrunk 7 EmptyString)
  /\ record_size (LogNowHas 10) <> record_size (LogShrunk 7 EmptyString).
Proof.
  split; [reflexivity|]. split; [reflexivity|].
  exact (queue_monitor_never_repeats_a_size size_warning [10; 7] 0
           (LogNowHas 10) (LogShrunk 7 EmptyString) eq_refl eq_refl).
Defined.

(** X4: a record is a recovery notice exactly when the size it reports is
    below the threshold; the log never begins with a recovery notice, and
    the record logged just before a recovery notice is not one and reports a
    size at or above the threshold. *)
Theorem queue_monitor_recovery_follows_warning (T : nat) (samples : list nat) :
  let log := _queue_monitor T samples in
  (forall r, r ∈ log -> (is_recovery_notice r = true <-> record_size r < T))
  /\ (forall i r, log !! i = Some r -> is_recovery_notice r = true ->
        exists j r', i = S j /\ log !! j = Some r'
                     /\ is_recovery_notice r' = false /\ T <= record_size r').
Proof.
  simpl. unfold _queue_monitor. split; [intros r; apply queue_monitor_from_recovery|].
  intros i r Hi Hrec.
  assert (Hlt : record_size r < T).
  { apply (queue_monitor_from_recovery T samples None); [|done].
    by eapply list_elem_of_lookup_2. }
  pose proof (queue_monitor_from_alternates T samples None None) as Halt.
  destruct (alternates_lookup T None _ (Halt ltac:(done) ltac:(done) ltac:(done)))
    as [H0 HS].
  destruct i as [|j].
  - destruct (H0 (record_size r)) as [_ Hm]; [by rewrite list_lookup_fmap, Hi|].
    by destruct (Hm Hlt) as (m & ? & _).
  - destruct (queue_monitor_from T None samples !! j) as [r'|] eqn:Hj.
    2: { apply lookup_ge_None in Hj. apply lookup_lt_Some in Hi. lia. }
    exists j, r'. split; [done|]. split; [done|].
    destruct (HS j (record_size r') (record_size r)) as [_ Hge];
      [by rewrite list_lookup_fmap, Hj|by rewrite list_lookup_fmap, Hi|].
    split; [|by apply Hge].
    destruct (is_recovery_notice r') eqn:E; [|done].
    apply (queue_monitor_from_recovery T samples None) in E; [lia|].
    by eapply list_elem_of_lookup_2.
Qed.

End QueueMonitor.

(** ** The producer's monitor task and ready event *)

Section ProducerLifecycle.

Import InternalProducer.

Lemma init_well_formed : well_formed init.
Proof.
  split; simpl; try done; lia.
Qed.

Lemma apply_operation_well_formed (o : operation) (p : producer) :
  well_formed p -> well_formed (apply_operation p o).
Proof.
  intros Hp. pose proof Hp as [H1 H2 H3 H4]. destruct o as [| | |t]; simpl.
  - split; simpl; try done.
    + intros He. destruct (H3 He) as [[t Ht]|?]; [left|by right].
      exists t. by apply lookup_app_l_Some.
    + intros t [= <-]. rewrite length_app. simpl. lia.
  - unfold stop_begins. destruct (queue_monitor_task p) as [t|] eqn:Ht; [|exact Hp].
    split; simpl; try done.
    + intros _. right. lia.
    + intros t' [= <-]. rewrite length_insert. by apply H4.
  - unfold stop_resumes. destruct (stopping p) as [|n]; simpl; [exact Hp|].
    split; simpl; try done; try lia.
    + intros e He. specialize (H2 e He). lia.
    + intros He. specialize (H2 _ He). lia.
  - unfold monitor_begins.
    destruct (monitor_tasks p !! t) as [[| |]|] eqn:Ht; simpl; try exact Hp.
    split; simpl; try done.
    + intros e [->%elem_of_singleton|He]%elem_of_union; [done|by apply H2].
    + intros _. left. exists t. rewrite list_lookup_insert_eq; [done|].
      by eapply lookup_lt_Some.
    + intros t' Ht'. rewrite length_insert. by apply H4.
Qed.

Lemma run_operations_well_formed (os : list operation) (p : producer) :
  well_formed p -> well_formed (run_operations os p).
Proof.
  revert p. induction os as [|o os IH]; intros p Hp; simpl; [done|].
  by apply IH, apply_operation_well_formed.
Qed.

(** X5: after any sequence of calls of [start()], calls of [stop()] (each
    up to its [await], and resumed later) and monitors beginning, in any
    order:
    - a call of [wait_until_ready()] returns at once only if some monitor
      task is in its loop or a call of [stop()] is suspended in its [await];
    - when a suspended [stop()] is resumed, the producer holds no monitor
      task and [wait_until_ready()] does not return at once: the ready event
      is a new one;
    - [stop()] on a producer that holds no monitor task changes nothing;
    - when a scheduled monitor begins, a caller that called
      [wait_until_ready()] just before is resumed. *)
Theorem ready_only_while_monitoring (os : list operation) :
  let p := run_operations os init in
  (resumed (wait_until_ready p) p = true ->
     (exists t, monitor_tasks p !! t = Some MonitorRunning) \/ 0 < stopping p)
  /\ (forall p', stop_resumes p = Some p' ->
        queue_monitor_task p' = None /\ resumed (wait_until_ready p') p' = false)
  /\ (queue_monitor_task p = None -> stop_begins p = p)
  /\ (forall t p', monitor_begins t p = Some p' -> resumed (wait_until_ready p) p' = true).
Proof.
  intros p. pose proof (run_operations_well_formed os init init_well_formed) as Hp.
  fold p in Hp. destruct Hp as [H1 H2 H3 H4]. split_and!.
  - unfold resumed, wait_until_ready. rewrite bool_decide_eq_true. apply H3.
  - unfold stop_resumes. intros p'. destruct (stopping p); [done|]. intros [= <-].
    split; [done|]. unfold resumed, wait_until_ready. simpl.
    rewrite bool_decide_eq_false. intros He. specialize (H2 _ He). lia.
  - unfold stop_begins. by intros ->.
  - unfold monitor_begins. intros t p'.
    destruct (monitor_tasks p !! t) as [[| |]|]; try done. intros [= <-].
    unfold resumed, wait_until_ready. simpl.
    rewrite bool_decide_eq_true. apply elem_of_union; left. by apply elem_of_singleton.
Qed.

(** Only the event the attribute refers to is ever set, and the attribute
    never refers to an earlier event again. *)
Lemma apply_operation_stale (o : operation) (p : producer) (e : nat) :
  well_formed p -> e < monitor_ready p -> e ∉ ready_set p ->
  e < monitor_ready (apply_operation p o) /\ e ∉ ready_set (apply_operation p o).
Proof.
  intros [H1 H2 H3 H4] Hlt Hunset. destruct o as [| | |t]; simpl.
  - done.
  - unfold stop_begins. by destruct (queue_monitor_task p).
  - unfold stop_resumes. destruct (stopping p); simpl; [done|]. split; [lia|done].
  - unfold monitor_begins. destruct (monitor_tasks p !! t) as [[| |]|]; simpl; try done.
    split; [done|]. intros [->%elem_of_singleton|He]%elem_of_union; [lia|done].
Qed.

Lemma run_operations_stale (os : list operation) (p : producer) (e : nat) :
  well_formed p -> e < monitor_ready p -> e ∉ ready_set p ->
  e ∉ ready_set (run_operations os p).
Proof.
  revert p. induction os as [|o os IH]; intros p Hp Hlt Hunset; simpl; [done|].
  destruct (apply_operation_stale o p e Hp Hlt Hunset) as [Hlt' Hunset'].
  apply IH; [by apply apply_operation_well_formed|done|done].
Qed.

Lemma run_operations_ready_monotone (os : list operation) (p : producer) :
  well_formed p -> monitor_ready p <= monitor_ready (run_operations os p).
Proof.
  revert p. induction os as [|o os IH]; intros p Hp; simpl; [done|].
  etrans; [|apply IH, apply_operation_well_formed, Hp].
  destruct o as [| | |t]; simpl; try done.
  - unfold stop_begins. by destruct (queue_monitor_task p).
  - unfold stop_resumes. destruct (stopping p); simpl; [done|].
    pose proof (ready_allocated p Hp). lia.
  - unfold monitor_begins. by destruct (monitor_tasks p !! t) as [[| |]|].
Qed.

(** X6: a caller of [wait_until_ready()] waits on the event object the
    attribute referred to when it called.  If a later [stop()] has replaced
    that event before its flag was set, the caller is never resumed,
    whatever is done with the producer afterwards: only the event the
    attribute refers to is ever set, and a replaced event is never referred
    to again. *)
Theorem waiter_on_a_replaced_event_is_never_resumed (os os' os'' : list operation) :
  let called := run_operations os init in
  let event := wait_until_ready called in
  let p := run_operations os' called in
  wait_until_ready p <> event ->
  resumed event p = false ->
  resumed event (run_operations os'' p) = false.
Proof.
  intros called event p Hreplaced Hunset.
  pose proof (run_operations_well_formed os init init_well_formed) as Hc. fold called in Hc.
  pose proof (run_operations_well_formed os' called Hc) as Hp. fold p in Hp.
  pose proof (run_operations_ready_monotone os' called Hc) as Hle. fold p in Hle.
  unfold resumed in *. rewrite bool_decide_eq_false in *.
  apply run_operations_stale; [exact Hp| |exact Hunset].
  subst event. unfold wait_until_ready in *. simpl in Hle.
  destruct (decide (monitor_ready p = monitor_ready called)); [done|lia].
Qed.

(** A caller waits after [start()]; [stop()] is called and resumed before
    the monitor has begun; then a new [start()], whose monitor begins: the
    early caller still waits, a new caller does not. *)
Lemma waiter_on_a_replaced_event_is_never_resumed_witness :
  wait_until_ready (run_operations [StopBegins; StopResumes] (run_operations [Start] init))
    <> wait_until_ready (run_operations [Start] init)
  /\ resumed (wait_until_ready (run_operations [Start] init))
       (run_operations [StopBegins; StopResumes] (run_operations [Start] init)) = false
  /\ resumed (wait_until_ready (run_operations [Start] init))
       (run_operations [Start; MonitorBegins 1]
          (run_operations [StopBegins; StopResumes] (run_operations [Start] init))) = false
  /\ resumed 1
       (run_operations [Start; MonitorBegins 1]
          (run_operations [StopBegins; StopResumes] (run_operations [Start] init))) = true.
Proof.
  split; [discriminate|]. split; [reflexivity|]. split; [|reflexivity].
  apply (waiter_on_a_replaced_event_is_never_resumed
           [Start] [StopBegins; StopResumes] [Start; MonitorBegins 1]);
    [discriminate|reflexivity].
Defined.



End ProducerLifecycle.

(** ** The event transport base class *)

Section Transport.

Import EventTransport.

(** C8, as stated, fails: on the base class an empty [listen_for] gets the
    same unsupported-operation error as any other, not the empty-listen-for
    error. *)
Lemma consume_empty_listen_for_is_unsupported :
  consume "EventTransport" [] "L1" = consume "EventTransport" [("shop", "order_placed")] "L1"
  /\ consume "EventTransport" [] "L1" <> Err NothingToListenFor.
Proof. split; [reflexivity | discriminate]. Qed.

(** C8 (amended): [consume] of the base class fails with the
    unsupported-operation error for every [listen_for], empty or not; the
    empty-listen-for error is what [_sanity_check_listen_for] raises, exactly
    when [listen_for] is empty, and an implementation of [consume] gets it by
    calling that check first. *)
Theorem consume_base_class_unsupported
    (class_name : string) (listen_for : list (string * string)) (listener_name : string) :
  (exists message, consume class_name listen_for listener_name = Err (NotImplementedError message))
  /\ (_sanity_check_listen_for listen_for = Err NothingToListenFor <-> listen_for = [])
  /\ (_sanity_check_listen_for listen_for = Ok tt <-> listen_for <> [])
  /\ (forall (implementation : result (list (list EventMessage))),
        listen_for = [] ->
        Py.bind (_sanity_check_listen_for listen_for) (fun _ => implementation)
          = Err NothingToListenFor).
Proof.
  split; [eexists; reflexivity|].
  destruct listen_for as [|x l]; simpl; repeat split; try done.
Qed.

End Transport.

(** ** The consumer *)

Section Consumer.

Import Asyncio InternalConsumer.

(** Membership goals over the running set. *)
Ltac set_tauto := set_unfold; intuition (subst; try lia; auto).

Lemma handle_in_background_eq (c : command) (e : nat) (s : state) :
  handle_in_background c e s =
    State (queue s) (error_queue s) (consumer_task s)
      ({[length (tasks s)]} ∪ running_commands s)
      (tasks s ++ [Task c e Pending [QueueExceptionChecker; WhenTaskFinished e]])
      (next_event s) (set_calls s).
Proof.
  unfold handle_in_background, with_tasks, with_running_commands; simpl.
  rewrite !alter_app_r_alt by (rewrite ?length_alter, ?length_app; simpl; lia).
  rewrite Nat.sub_diag. reflexivity.
Qed.

(** *** Updates of one task *)

Lemma task_events_alter (f : task -> task) (t : nat) (l : list task) :
  (forall x, task_on_done (f x) = task_on_done x) ->
  task_on_done <$> alter f t l = task_on_done <$> l.
Proof.
  intros Hf. apply list_eq; intros i. rewrite !list_lookup_fmap.
  destruct (decide (t = i)) as [->|Hne].
  - rewrite list_lookup_alter_eq. destruct (l !! i); simpl; [by rewrite Hf|done].
  - by rewrite list_lookup_alter_ne.
Qed.

Lemma lookup_alter_task (f : task -> task) (t i : nat) (l : list task) (y : task) :
  alter f t l !! i = Some y ->
  exists x, l !! i = Some x /\ (y = x \/ (i = t /\ y = f x)).
Proof.
  destruct (decide (t = i)) as [->|Hne].
  - rewrite list_lookup_alter_eq. destruct (l !! i) as [x|]; simpl; [|done].
    intros [= <-]. eauto.
  - rewrite list_lookup_alter_ne by done. eauto.
Qed.

Lemma lookup_task_alter (f : task -> task) (t i : nat) (l : list task) (x : task) :
  l !! i = Some x ->
  alter f t l !! i = Some (if decide (t = i) then f x else x).
Proof.
  intros H. case_decide as Hd.
  - subst. by rewrite list_lookup_alter_eq, H.
  - by rewrite list_lookup_alter_ne.
Qed.

Lemma consistent_alter_task (f : task -> task) (t : nat) (s : state) :
  consistent s ->
  (forall x, task_on_done (f x) = task_on_done x) ->
  (forall x, is_done x -> is_done (f x)) ->
  (forall x, callbacks (f x) = [] \/ callbacks (f x) = callbacks x) ->
  consistent (with_tasks (alter f t (tasks s)) s).
Proof.
  intros [Ha Hd Hs Hsd Hc Hacc] Hf Hdone Hcb.
  split; unfold queued_events, task_events in *; simpl.
  - by rewrite task_events_alter.
  - by rewrite task_events_alter.
  - done.
  - intros e He. destruct (Hsd e He) as (t' & x & Hx & Hxe & Hxd & Hxr).
    exists t'. eexists. split; [by apply lookup_task_alter|].
    case_decide; subst; rewrite ?Hf; auto.
  - intros t' y Hy. apply lookup_alter_task in Hy as (x & Hx & [->|[-> ->]]); [by eauto|].
    rewrite Hf. destruct (Hcb x) as [->| ->]; [by left|]. by eauto.
  - by rewrite length_alter.
Qed.

Lemma consistent_with_error_queue (q : list exn) (s : state) :
  consistent s -> consistent (with_error_queue q s).
Proof. intros [? ? ? ? ? ?]. by split. Qed.

Lemma consistent_with_consumer_task (b : bool) (s : state) :
  consistent s -> consistent (with_consumer_task b s).
Proof. intros [? ? ? ? ? ?]. by split. Qed.

Lemma consistent_shrink_running (r : gset nat) (s : state) :
  consistent s -> r ⊆ running_commands s -> consistent (with_running_commands r s).
Proof.
  intros [Ha Hd Hs Hsd Hc Hacc] Hr. split; try done. simpl.
  intros e He. destruct (Hsd e He) as (t & x & ? & ? & ? & ?).
  exists t, x. repeat split; try done. set_solver.
Qed.

Lemma queue_exception_checker_consistent (t : nat) (s : state) :
  consistent s -> consistent (queue_exception_checker t s).
Proof.
  intros H. unfold queue_exception_checker.
  destruct (state_of <$> tasks s !! t) as [[|[| |]]|]; auto using consistent_with_error_queue.
Qed.

Lemma task_lookup_unique (s : state) (t t' : nat) (x x' : task) :
  consistent s -> tasks s !! t = Some x -> tasks s !! t' = Some x' ->
  task_on_done x = task_on_done x' -> t = t'.
Proof.
  intros [_ Hd _ _ _ _] Hx Hx' He.
  apply NoDup_app in Hd as (_ & _ & Hd).
  eapply NoDup_lookup; [exact Hd| |]; unfold task_events;
    rewrite list_lookup_fmap; [rewrite Hx|rewrite Hx']; simpl; by rewrite ?He.
Qed.

(** *** [when_task_finished] *)

(** A transition either calls no [on_done.set()], or calls it once for a
    task that has ended, having removed that task from the running set and
    having marked one queue item as done. *)

Lemma when_task_finished_cases (t e : nat) (s : state) :
  let s' := (when_task_finished t e s).1 in
  tasks s' = tasks s /\ items (queue s') = items (queue s)
  /\ next_event s' = next_event s /\ consumer_task s' = consumer_task s
  /\ running_commands s' ⊆ running_commands s
  /\ running_commands s ∖ {[t]} ⊆ running_commands s'
  /\ ((set_calls s' = set_calls s /\ unfinished_tasks (queue s') = unfinished_tasks (queue s))
      \/ (set_calls s' = set_calls s ++ [e] /\ t ∈ running_commands s
          /\ running_commands s' = running_commands s ∖ {[t]}
          /\ S (unfinished_tasks (queue s')) = unfinished_tasks (queue s))).
Proof.
  unfold when_task_finished. case_decide as Ht; simpl.
  2: { repeat split; try done; [set_tauto|]. by left. }
  unfold task_done; simpl. destruct (unfinished_tasks (queue s)) eqn:E; simpl.
  - repeat split; try done; [set_tauto|]. left. by rewrite E.
  - repeat split; try done; [set_tauto|]. right. auto.
Qed.

Lemma when_task_finished_consistent (t e : nat) (s : state) (x : task) :
  consistent s -> tasks s !! t = Some x -> task_on_done x = e -> is_done x ->
  callbacks x = [] -> e ∉ set_calls s ->
  consistent (when_task_finished t e s).1.
Proof.
  intros Hcons Hx Hxe Hxd Hxc He.
  unfold when_task_finished. case_decide as Ht; simpl; [|done].
  unfold task_done; simpl. destruct (unfinished_tasks (queue s)) as [|n] eqn:E; simpl.
  { apply consistent_shrink_running; [done|set_tauto]. }
  pose proof Hcons as [Ha Hd Hs Hsd Hc Hacc].
  split; unfold queued_events, task_events in *; simpl; try done.
  - apply NoDup_app. repeat split; [done| |apply NoDup_singleton].
    intros y Hy ->%list_elem_of_singleton. done.
  - intros e' [He'| ->%list_elem_of_singleton]%elem_of_app.
    + destruct (Hsd e' He') as (t' & x' & ? & ? & ? & ?).
      exists t', x'. repeat split; try done. set_tauto.
    + exists t, x. repeat split; try done. set_tauto.
  - intros t' x' Hx'. destruct (Hc t' x' Hx') as [?|[Hfull Hns]]; [by left|right].
    split; [done|]. intros [?| Heq%list_elem_of_singleton]%elem_of_app; [done|].
    assert (t' = t) as -> by (eapply task_lookup_unique; eauto; congruence).
    rewrite Hx in Hx'. injection Hx' as <-. rewrite Hxc in Hfull. done.
  - rewrite length_app; simpl. lia.
Qed.


(** *** Done callbacks *)

Lemma status_of_alter (f : task -> task) (t i : nat) (s : state) :
  (forall x, state_of (f x) = state_of x) ->
  status_of i (with_tasks (alter f t (tasks s)) s) = status_of i s.
Proof.
  intros Hf. unfold status_of; simpl.
  destruct (decide (t = i)) as [->|Hne].
  - rewrite list_lookup_alter_eq. destruct (tasks s !! i); simpl; by rewrite ?Hf.
  - by rewrite list_lookup_alter_ne.
Qed.

Lemma task_items_alter (f : task -> task) (t : nat) (l : list task) :
  (forall x, task_item (f x) = task_item x) ->
  task_item <$> alter f t l = task_item <$> l.
Proof.
  intros Hf. apply list_eq; intros i. rewrite !list_lookup_fmap.
  destruct (decide (t = i)) as [->|Hne].
  - rewrite list_lookup_alter_eq. destruct (l !! i); simpl; [by rewrite Hf|done].
  - by rewrite list_lookup_alter_ne.
Qed.

Lemma run_done_callbacks_spec (t : nat) (s : state) (x : task) :
  consistent s -> tasks s !! t = Some x -> is_done x ->
  let s' := run_done_callbacks t s in
  consistent s' /\ sets_with_cleanup s s' /\ same_tasks s s'
  /\ running_commands s' ⊆ running_commands s
  /\ running_commands s ∖ {[t]} ⊆ running_commands s'.
Proof.
  intros Hcons Hx Hxd. unfold run_done_callbacks. rewrite Hx.
  set (s1 := clear_callbacks t s).
  assert (Hcons1 : consistent s1).
  { apply consistent_alter_task; simpl; auto. }
  assert (Hst1 : forall i, status_of i s1 = status_of i s).
  { intros i. by apply status_of_alter. }
  assert (Hcmd1 : task_item <$> tasks s1 = task_item <$> tasks s).
  { by apply task_items_alter. }
  destruct (callbacks_shape s Hcons t x Hx) as [->|[-> Hns]]; simpl.
  { split; [exact Hcons1|]. split; [by left|]. split; [|simpl; set_tauto].
    unfold same_tasks. auto. }
  set (s2 := queue_exception_checker t s1).
  assert (Hs2 : consistent s2) by by apply queue_exception_checker_consistent.
  assert (Hf2 : tasks s2 = tasks s1 /\ queue s2 = queue s1 /\ next_event s2 = next_event s1
                /\ consumer_task s2 = consumer_task s1
                /\ running_commands s2 = running_commands s1
                /\ set_calls s2 = set_calls s1).
  { unfold s2, queue_exception_checker.
    destruct (state_of <$> tasks s1 !! t) as [[|[| |]]|]; done. }
  destruct Hf2 as (Ht2 & Hq2 & Hn2 & Hc2 & Hr2 & Hsc2).
  set (x1 := Task (task_command x) (task_on_done x) (state_of x) []).
  assert (Hx1 : tasks s2 !! t = Some x1).
  { rewrite Ht2. unfold s1; simpl. by rewrite list_lookup_alter_eq, Hx. }
  pose proof (when_task_finished_cases t (task_on_done x) s2) as Hcases; simpl in Hcases.
  destruct Hcases as (Ht3 & Hi3 & Hn3 & Hc3 & Hr3 & Hr4 & Hset).
  split; [|split; [|split; [|split]]].
  - eapply when_task_finished_consistent; eauto. by rewrite Hsc2.
  - destruct Hset as [[Hsame _]|(Happ & Hin & Hrun & Hunf)].
    + left. by rewrite Hsame, Hsc2.
    + right. exists t, x1. rewrite Ht3, Happ, Hsc2, Hrun, Hr2. rewrite Hr2 in Hin.
      rewrite Hq2 in Hunf. repeat split; done.
  - repeat split.
    + intros i. unfold status_of. rewrite Ht3, Ht2. apply Hst1.
    + by rewrite Ht3, Ht2.
    + by rewrite Hc3, Hc2.
    + by rewrite Hi3, Hq2.
    + by rewrite Hn3, Hn2.
  - rewrite Hr2 in Hr3. exact Hr3.
  - rewrite Hr2 in Hr4. exact Hr4.
Qed.


(** *** The labels keep the state consistent *)

Lemma producer_send_consistent (c : command) (s : state) :
  consistent s -> consistent (producer_send c s).2.
Proof.
  intros [Ha Hd Hs Hsd Hc Hacc].
  split; unfold queued_events, task_events in *; simpl in *; try done.
  - intros e. rewrite fmap_app; simpl.
    intros [[He| ->%list_elem_of_singleton]%elem_of_app|He]%elem_of_app; [|lia|].
    + apply Nat.lt_lt_succ_r, Ha, elem_of_app; auto.
    + apply Nat.lt_lt_succ_r, Ha, elem_of_app; auto.
  - rewrite fmap_app; simpl.
    assert (Hfresh : next_event s ∉ (snd <$> items (queue s)) ++ (task_on_done <$> tasks s)).
    { intros Hin. apply Ha in Hin. lia. }
    assert (((snd <$> items (queue s)) ++ [next_event s]) ++ (task_on_done <$> tasks s)
              ≡ₚ next_event s :: (snd <$> items (queue s)) ++ (task_on_done <$> tasks s)) as ->.
    { rewrite <- app_assoc. simpl. by rewrite <- Permutation_middle. }
    by apply NoDup_cons.
  - rewrite length_app; simpl. lia.
Qed.

Lemma consumer_loop_iteration_consistent (s s' : state) :
  consistent s -> consumer_loop_iteration s = Some s' -> consistent s'.
Proof.
  intros [Ha Hd Hs Hsd Hc Hacc]. unfold consumer_loop_iteration, get.
  destruct (consumer_task s); [|done].
  destruct (items (queue s)) as [|[c e] rest] eqn:Hitems; [done|].
  intros [= <-]. rewrite handle_in_background_eq.
  unfold queued_events, task_events in *; rewrite ?Hitems in *; simpl in *.
  assert (Hperm : rest.*2 ++ (task_on_done <$> tasks s) ++ [e]
                    ≡ₚ e :: rest.*2 ++ (task_on_done <$> tasks s)).
  { rewrite app_assoc. by rewrite <- Permutation_cons_append. }
  assert (Hne : e ∉ set_calls s).
  { intros He. destruct (Hsd e He) as (t & x & Hx & Hxe & _).
    apply NoDup_cons in Hd as [Hd _]. apply Hd.
    apply elem_of_app; right. apply list_elem_of_fmap. exists x.
    split; [done|]. by eapply list_elem_of_lookup_2. }
  split; unfold queued_events, task_events; simpl.
  - intros e'. rewrite fmap_app; simpl. rewrite Hperm. apply Ha.
  - rewrite fmap_app; simpl. by rewrite Hperm.
  - done.
  - intros e' He'. destruct (Hsd e' He') as (t & x & Hx & Hxe & Hxd & Hxr).
    exists t, x. repeat split; try done; [by apply lookup_app_l_Some|].
    apply lookup_lt_Some in Hx. set_tauto.
  - intros t x [Hx|[_ Hx]]%lookup_app_Some; [by apply (Hc t)|].
    destruct (t - length (tasks s)); simpl in Hx; [|done].
    injection Hx as <-. simpl. by right.
  - rewrite length_app; simpl. lia.
Qed.

Lemma set_task_state_consistent (t : nat) (o : outcome) (s : state) :
  consistent s -> consistent (set_task_state t (Done o) s).
Proof.
  intros H. apply consistent_alter_task; simpl; auto.
  intros x _. unfold is_done. simpl. done.
Qed.

Lemma status_lookup (t : nat) (s : state) (st : task_state) :
  state_of <$> tasks s !! t = Some st ->
  exists x, tasks s !! t = Some x /\ state_of x = st.
Proof. destruct (tasks s !! t) as [x|]; simpl; [|done]. intros [= <-]. eauto. Qed.

Lemma cancel_task_spec (t : nat) (s : state) :
  consistent s ->
  let s' := cancel_task s t in
  consistent s' /\ sets_with_cleanup s s'
  /\ (forall i, status_of i s' =
        if decide (i = t /\ status_of t s = Some Pending)
        then Some (Done Cancelled) else status_of i s)
  /\ task_item <$> tasks s' = task_item <$> tasks s
  /\ consumer_task s' = consumer_task s
  /\ running_commands s' ⊆ running_commands s
  /\ items (queue s') = items (queue s)
  /\ next_event s' = next_event s.
Proof.
  intros Hcons. unfold cancel_task.
  destruct (state_of <$> tasks s !! t) as [[|o]|] eqn:Hst; simpl.
  2,3: (split; [done|]; split; [by left|]; split; [|done]);
       intros i; case_decide as Hd; [|done]; destruct Hd as [_ Hd];
       unfold status_of in Hd; congruence.
  apply status_lookup in Hst as (x & Hx & Hxs).
  set (s1 := set_task_state t (Done Cancelled) s).
  set (x1 := Task (task_command x) (task_on_done x) (Done Cancelled) (callbacks x)).
  assert (Hx1 : tasks s1 !! t = Some x1).
  { unfold s1; simpl. by rewrite list_lookup_alter_eq, Hx. }
  destruct (run_done_callbacks_spec t s1 x1) as (Hc' & Hsw & Hsame & Hr & _);
    [by apply set_task_state_consistent|done|done|].
  destruct Hsame as (Hst' & Hcmd & Hct & Hit & Hne').
  split; [done|]. split; [|split; [|split; [|split; [|split; [|split]]]]].
  - destruct Hsw as [?|(t' & x' & ? & ? & ? & ? & ? & ?)]; [by left|right].
    exists t', x'. done.
  - intros i. rewrite Hst'. unfold status_of, s1; simpl.
    case_decide as Hd.
    + destruct Hd as [-> _]. by rewrite list_lookup_alter_eq, Hx.
    + destruct (decide (t = i)) as [->|Hne].
      * exfalso. apply Hd. split; [done|]. unfold status_of. rewrite Hx; simpl. by rewrite Hxs.
      * by rewrite list_lookup_alter_ne.
  - rewrite Hcmd. unfold s1; simpl. by apply task_items_alter.
  - done.
  - done.
  - done.
  - done.
Qed.

Lemma step_consistent (l : label) (s s' : state) :
  consistent s -> step l s = Some s' -> consistent s' /\ sets_with_cleanup s s'.
Proof.
  intros Hcons. destruct l as [[c| |t e|t]| |t|]; simpl.
  - intros [= <-]. split; [by apply producer_send_consistent|by left].
  - intros Hstep. split; [by eapply consumer_loop_iteration_consistent|left].
    unfold consumer_loop_iteration in Hstep.
    destruct (consumer_task s); [|done].
    destruct (get (queue s)) as [[[c e] q]|]; [|done].
    injection Hstep as <-. by rewrite handle_in_background_eq.
  - destruct (state_of <$> tasks s !! t) as [[|o]|]; try done.
    intros [= <-]. split; [by apply set_task_state_consistent|by left].
  - destruct (state_of <$> tasks s !! t) as [[|o]|] eqn:Hst; try done.
    intros [= <-]. apply status_lookup in Hst as (x & Hx & Hxs).
    destruct (run_done_callbacks_spec t s x) as (? & ? & _); try done.
    unfold is_done. by rewrite Hxs.
  - intros [= <-]. unfold stop_cancel_loop.
    destruct (consumer_task s); [|by split; [|left]].
    split; [by apply consistent_with_consumer_task|by left].
  - intros [= <-]. destruct (cancel_task_spec t s) as (? & ? & _); done.
  - intros [= <-]. split; [|by left].
    apply consistent_shrink_running; [done|set_solver].
Qed.

Lemma started_consistent : consistent started.
Proof.
  split; unfold queued_events, task_events; simpl; try done.
  - intros e He. by apply elem_of_nil in He.
  - apply NoDup_nil_2.
  - apply NoDup_nil_2.
  - intros e He. by apply elem_of_nil in He.
Qed.

Lemma apply_label_consistent (l : label) (s : state) :
  consistent s -> consistent (apply_label s l) /\ sets_with_cleanup s (apply_label s l).
Proof.
  intros H. unfold apply_label. destruct (step l s) as [s'|] eqn:E; simpl.
  - by eapply step_consistent.
  - split; [done|by left].
Qed.

Lemma run_labels_consistent (ls : list label) (s : state) :
  consistent s -> consistent (run_labels ls s).
Proof.
  revert s. induction ls as [|l ls IH]; intros s H; simpl; [done|].
  apply IH. by apply apply_label_consistent.
Qed.


(** *** Commands are picked up in the order they were sent *)

Lemma numbered_snoc (cs : list command) (c : command) :
  numbered (cs ++ [c]) = numbered cs ++ [(c, length cs)].
Proof. unfold numbered. rewrite imap_app. simpl. by rewrite Nat.add_0_r. Qed.

Lemma step_fifo (l : label) (cs : list command) (s s' : state) :
  consistent s -> fifo cs s -> step l s = Some s' -> fifo (cs ++ sent [l]) s'.
Proof.
  intros Hcons [Hf Hn].
  assert (Hsame : forall s1, same_tasks s s1 -> fifo cs s1).
  { intros s1 (_ & Hti & _ & Hit & Hne). split; by rewrite ?Hti, ?Hit, ?Hne. }
  destruct l as [[c| |t e|t]| |t|]; simpl; unfold sent; simpl; rewrite ?app_nil_r.
  - intros [= <-]. split; simpl.
    + by rewrite numbered_snoc, app_assoc, Hf, Hn.
    + rewrite length_app; simpl. lia.
  - unfold consumer_loop_iteration, get. destruct (consumer_task s); [|done].
    destruct (items (queue s)) as [|[c e] rest] eqn:Hitems; [done|].
    intros [= <-]. rewrite handle_in_background_eq. split; simpl; [|done].
    rewrite fmap_app; simpl. by rewrite <- app_assoc.
  - destruct (state_of <$> tasks s !! t) as [[|o]|]; try done.
    intros [= <-]. split; simpl; [|done]. by rewrite task_items_alter.
  - destruct (state_of <$> tasks s !! t) as [[|o]|] eqn:Hst; try done.
    intros [= <-]. apply status_lookup in Hst as (x & Hx & Hxs).
    destruct (run_done_callbacks_spec t s x) as (_ & _ & ? & _); auto.
    unfold is_done. by rewrite Hxs.
  - intros [= <-]. unfold stop_cancel_loop. by destruct (consumer_task s).
  - intros [= <-].
    destruct (cancel_task_spec t s Hcons) as (_ & _ & _ & Hti & _ & _ & Hit & Hne).
    split; by rewrite ?Hti, ?Hit, ?Hne.
  - by intros [= <-].
Qed.

Lemma run_labels_snoc (ls : list label) (l : label) (s : state) :
  run_labels (ls ++ [l]) s = apply_label (run_labels ls s) l.
Proof. unfold run_labels. by rewrite foldl_app. Qed.

Lemma run_labels_fifo (ls : list label) : fifo (sent ls) (run_labels ls started).
Proof.
  induction ls as [|l ls IH] using rev_ind; [done|].
  rewrite run_labels_snoc. unfold sent in *. rewrite omap_app.
  unfold apply_label. destruct (step l (run_labels ls started)) as [s'|] eqn:E; simpl.
  - eapply step_fifo; eauto. apply run_labels_consistent, started_consistent.
  - destruct l as [[c| |t e|t]| |t|]; simpl in *; try done; by rewrite app_nil_r.
Qed.

(** Every event that has been set was returned by [send] earlier. *)
Lemma set_calls_allocated (s : state) (e : nat) :
  consistent s -> e ∈ set_calls s -> e < next_event s.
Proof.
  intros Hcons He. destruct (set_after_done s Hcons e He) as (t & x & Hx & <- & _).
  apply (events_allocated s Hcons). apply elem_of_app; right.
  apply list_elem_of_fmap. exists x. split; [done|]. by eapply list_elem_of_lookup_2.
Qed.

(** *** A running consumer is orderly *)

Lemma step_activity_orderly (a : activity) (s s' : state) :
  consistent s -> orderly s -> step_activity a s = Some s' ->
  orderly s'
  /\ (consumer_task s = false ->
      consumer_task s' = false /\ task_item <$> tasks s' = task_item <$> tasks s).
Proof.
  intros Hcons [Hp Hn]. destruct a as [c| |t e|t]; simpl.
  - intros [= <-]. split; [by split|done].
  - unfold consumer_loop_iteration, get. destruct (consumer_task s); [|done].
    destruct (items (queue s)) as [|[c e] rest]; [done|].
    intros [= <-]. rewrite handle_in_background_eq. split; [|done].
    split; unfold status_of; simpl.
    + intros t. rewrite lookup_app.
      destruct (tasks s !! t) as [x|] eqn:Hx; simpl.
      * intros Hs. apply elem_of_union; right. apply Hp.
        unfold status_of. by rewrite Hx.
      * apply lookup_ge_None in Hx.
        destruct (t - length (tasks s)) as [|k] eqn:Hk; simpl; [|done].
        intros _. assert (t = length (tasks s)) as -> by lia.
        apply elem_of_union; left. by apply elem_of_singleton.
    + intros t. rewrite lookup_app.
      destruct (tasks s !! t) as [x|] eqn:Hx; simpl.
      * specialize (Hn t). unfold status_of in Hn. by rewrite Hx in Hn.
      * destruct (t - length (tasks s)) as [|k]; simpl; done.
  - destruct (state_of <$> tasks s !! t) as [[|o]|] eqn:Hst; try done.
    intros [= <-]. split.
    + split; unfold status_of; simpl; intros i.
      * destruct (decide (t = i)) as [->|Hne].
        -- rewrite list_lookup_alter_eq. destruct (tasks s !! i); simpl; done.
        -- rewrite list_lookup_alter_ne by done. apply Hp.
      * destruct (decide (t = i)) as [->|Hne].
        -- rewrite list_lookup_alter_eq. destruct (tasks s !! i); simpl; [|done].
           destruct e; simpl; done.
        -- rewrite list_lookup_alter_ne by done. apply Hn.
    + intros Hoff. split; [done|]. simpl. by apply task_items_alter.
  - destruct (state_of <$> tasks s !! t) as [[|o]|] eqn:Hst; try done.
    intros [= <-]. pose proof Hst as Hst0.
    apply status_lookup in Hst as (x & Hx & Hxs).
    destruct (run_done_callbacks_spec t s x) as (_ & _ & Hsame & _ & Hr); auto.
    { unfold is_done. by rewrite Hxs. }
    destruct Hsame as (Hst' & Hti & Hct & _). split.
    + split; intros i; rewrite Hst'; [|apply Hn].
      intros Hi. apply Hr. apply elem_of_difference. split; [by apply Hp|].
      intros ->%elem_of_singleton. unfold status_of in Hi. congruence.
    + intros Hoff. by rewrite Hct, Hti.
Qed.

Lemma run_activity_spec (l : list activity) (s : state) :
  consistent s -> orderly s ->
  consistent (run_activity l s) /\ orderly (run_activity l s)
  /\ (consumer_task s = false ->
      consumer_task (run_activity l s) = false
      /\ task_item <$> tasks (run_activity l s) = task_item <$> tasks s).
Proof.
  unfold run_activity. revert s.
  induction l as [|a l IH]; intros s Hc Ho; [done|].
  change (run_labels (Activity <$> a :: l) s)
    with (run_labels (Activity <$> l) (default s (step_activity a s))).
  destruct (step_activity a s) as [s'|] eqn:E; simpl; [|by apply IH].
  destruct (step_activity_orderly a s s' Hc Ho E) as (Ho' & Hoff).
  destruct (step_consistent (Activity a) s s' Hc E) as (Hc' & _).
  destruct (IH s' Hc' Ho') as (? & ? & Hoff').
  split; [done|]. split; [done|]. intros Hz.
  destruct (Hoff Hz) as (H1 & H2). destruct (Hoff' H1) as (? & ?).
  split; [done|]. congruence.
Qed.

Lemma stop_poll_spec (n : nat) (during : list (list activity)) (s : state) :
  consistent s -> orderly s -> consumer_task s = false ->
  let s' := stop_poll n during s in
  consistent s' /\ orderly s' /\ consumer_task s' = false
  /\ task_item <$> tasks s' = task_item <$> tasks s.
Proof.
  revert during s. induction n as [|n IH]; intros during s Hc Ho Hoff; simpl; [done|].
  case_decide; [by apply IH|].
  destruct during as [|l rest]; [by apply IH|].
  destruct (run_activity_spec l s Hc Ho) as (Hc' & Ho' & Hoff').
  destruct (Hoff' Hoff) as (H1 & H2).
  destruct (IH rest (run_activity l s) Hc' Ho' H1) as (? & ? & ? & H3).
  split; [done|]. split; [done|]. split; [done|]. by rewrite H3.
Qed.

Lemma cancel_spec (ts : list nat) (s : state) :
  consistent s ->
  let s' := cancel ts s in
  consistent s'
  /\ (forall i, status_of i s' =
        if decide (i ∈ ts /\ status_of i s = Some Pending)
        then Some (Done Cancelled) else status_of i s)
  /\ task_item <$> tasks s' = task_item <$> tasks s
  /\ consumer_task s' = consumer_task s.
Proof.
  unfold cancel. revert s. induction ts as [|t ts IH]; intros s Hc.
  { change (foldl cancel_task s []) with s.
    split; [done|]. split; [|done]. intros i. rewrite decide_False; [done|].
    intros [Hd _]. by apply elem_of_nil in Hd. }
  change (foldl cancel_task s (t :: ts)) with (foldl cancel_task (cancel_task s t) ts).
  destruct (cancel_task_spec t s Hc) as (Hc1 & _ & Hst1 & Hti1 & Hct1 & _).
  destruct (IH _ Hc1) as (Hc2 & Hst2 & Hti2 & Hct2).
  split; [done|]. split; [|split; congruence].
  intros i. rewrite Hst2, Hst1.
  destruct (decide (i = t /\ status_of t s = Some Pending)) as [[-> Hp]|Hn1];
    destruct (decide (_ ∈ ts /\ _)) as [[Hin Hq]|Hn2];
    destruct (decide (_ ∈ _ :: ts /\ _)) as [[Hin' Hq']|Hn3]; try done.
  - exfalso. apply Hn3. split; [apply elem_of_cons; by left|done].
  - exfalso. apply Hn3. split; [apply elem_of_cons; by right|done].
  - exfalso. apply elem_of_cons in Hin' as [->|Hin']; [by apply Hn1|by apply Hn2].
Qed.


(** C1: along every run of the consumer (any interleaving of [send] calls,
    loop iterations, handlers ending, done callbacks and the actions of
    [stop]):
    - the tasks made so far followed by the queued items are the commands
      sent so far, in order, each with the event [send] returned for it;
    - [on_done.set()] has been called at most once per event;
    - an event that has been set belongs to a task whose handler has ended
      and that is no longer in the running set;
    - whatever happens next, if it sets an event then it is the event of a
      task that has ended, and the same transition removes the task from
      the running set and marks one queue item as done;
    - the items not yet marked as done are the commands sent minus the
      events set. *)
Theorem completion_signal_set_once_after_handler (ls : list label) :
  let s := run_labels ls started in
  (task_item <$> tasks s) ++ items (queue s) = numbered (sent ls)
  /\ NoDup (set_calls s)
  /\ (forall e, e ∈ set_calls s ->
        exists t x, tasks s !! t = Some x /\ task_on_done x = e /\ is_done x
                    /\ t ∉ running_commands s)
  /\ (forall l, sets_with_cleanup s (apply_label s l))
  /\ unfinished_tasks (queue s) + length (set_calls s) = length (sent ls).
Proof.
  intros s.
  assert (Hc : consistent s) by apply run_labels_consistent, started_consistent.
  destruct (run_labels_fifo ls) as [Hf _]. fold s in Hf.
  split; [done|]. split; [apply (set_once s Hc)|].
  split; [apply (set_after_done s Hc)|].
  split; [intros l; by apply apply_label_consistent|].
  rewrite (accounting s Hc).
  apply (f_equal length) in Hf. unfold numbered in Hf.
  rewrite length_app, length_fmap, length_imap in Hf. lia.
Qed.

(** *** Without [stop], the done callbacks do not raise *)

Lemma lookup_alter_cases (f : task -> task) (t i : nat) (l : list task) (y : task) :
  alter f t l !! i = Some y ->
  (i <> t /\ l !! i = Some y) \/ (i = t /\ exists x, l !! t = Some x /\ y = f x).
Proof.
  destruct (decide (t = i)) as [->|Hne].
  - rewrite list_lookup_alter_eq. destruct (l !! i) as [x|]; simpl; [|done].
    intros [= <-]. right. eauto.
  - rewrite list_lookup_alter_ne by done. left. split; [congruence|done].
Qed.

(** A task whose event is not set still has its queue item counted. *)
Lemma unset_event_unfinished (s : state) (t : nat) (x : task) :
  consistent s -> tasks s !! t = Some x -> task_on_done x ∉ set_calls s ->
  0 < unfinished_tasks (queue s).
Proof.
  intros Hcons Hx Hunset. pose proof Hcons as [Ha Hd Hs Hsd Hc Hacc].
  assert (Hsub : task_on_done x :: set_calls s ⊆+ task_events s).
  { apply NoDup_submseteq; [by apply NoDup_cons|].
    intros e [->|He]%elem_of_cons.
    - apply list_elem_of_fmap. exists x. split; [done|]. by eapply list_elem_of_lookup_2.
    - destruct (Hsd e He) as (t' & x' & Hx' & <- & _).
      apply list_elem_of_fmap. exists x'. split; [done|]. by eapply list_elem_of_lookup_2. }
  apply submseteq_length in Hsub. unfold task_events in Hsub.
  rewrite length_fmap in Hsub. simpl in Hsub. lia.
Qed.

Lemma step_activity_signalled (a : activity) (s s' : state) :
  consistent s -> signalled s -> step_activity a s = Some s' -> signalled s'.
Proof.
  intros Hcons [Hw Hcs]. destruct a as [c| |t e|t]; simpl.
  - intros [= <-]. by split.
  - unfold consumer_loop_iteration, get. destruct (consumer_task s); [|done].
    destruct (items (queue s)) as [|[c e] rest]; [done|].
    intros [= <-]. rewrite handle_in_background_eq. split; simpl.
    + intros t x [Hx|[Hlen Hx]]%lookup_app_Some Hne.
      * apply elem_of_union; right. by eapply Hw.
      * destruct (t - length (tasks s)) eqn:E; [|done].
        assert (t = length (tasks s)) as -> by lia. set_tauto.
    + intros t x [Hx|[Hlen Hx]]%lookup_app_Some Hnil; [by eapply Hcs|].
      destruct (t - length (tasks s)); [|done]. injection Hx as <-. done.
  - destruct (state_of <$> tasks s !! t) as [[|o]|]; try done.
    intros [= <-]. split; simpl.
    + intros i y Hy Hne.
      apply lookup_alter_cases in Hy as [[_ Hy]|[-> (x & Hx & ->)]]; by eapply Hw.
    + intros i y Hy Hnil.
      apply lookup_alter_cases in Hy as [[_ Hy]|[-> (x & Hx & ->)]];
        [by eapply Hcs|by apply (Hcs t x)].
  - destruct (state_of <$> tasks s !! t) as [[|o]|] eqn:Hst; try done.
    intros [= <-]. apply status_lookup in Hst as (x & Hx & Hxs).
    unfold run_done_callbacks. rewrite Hx.
    destruct (callbacks_shape s Hcons t x Hx) as [Hnil|[Hfull Hunset]]; rewrite ?Hnil, ?Hfull.
    { simpl. split; simpl.
      - intros i y Hy Hne.
        apply lookup_alter_cases in Hy as [[_ Hy]|[-> (x' & Hx' & ->)]];
          [by eapply Hw|done].
      - intros i y Hy Hy'.
        apply lookup_alter_cases in Hy as [[_ Hy]|[-> (x' & Hx' & ->)]];
          [by eapply Hcs|]. simpl. rewrite Hx in Hx'. injection Hx' as <-. by eapply Hcs. }
    assert (Hin : t ∈ running_commands s) by (eapply Hw; [done|by rewrite Hfull]).
    pose proof (unset_event_unfinished s t x Hcons Hx Hunset) as Hpos.
    change (signalled (when_task_finished t (task_on_done x)
                         (queue_exception_checker t (clear_callbacks t s))).1).
    set (s2 := queue_exception_checker t (clear_callbacks t s)).
    assert (Hq : running_commands s2 = running_commands s /\ queue s2 = queue s
                 /\ tasks s2 = tasks (clear_callbacks t s)
                 /\ set_calls s2 = set_calls s).
    { unfold s2, queue_exception_checker.
      destruct (state_of <$> tasks (clear_callbacks t s) !! t) as [[|[| |]]|]; done. }
    destruct Hq as (Hq1 & Hq2 & Hq3 & Hq4).
    unfold when_task_finished. rewrite decide_True by (by rewrite Hq1).
    unfold task_done; simpl. rewrite Hq2.
    destruct (unfinished_tasks (queue s)) as [|n]; [lia|]. simpl.
    split; simpl; rewrite ?Hq1, ?Hq3, ?Hq4; simpl.
    + intros i y Hy Hne.
      apply lookup_alter_cases in Hy as [[Hi Hy]|[-> (x' & Hx' & ->)]]; [|done].
      apply elem_of_difference. split; [by eapply Hw|].
      by intros ->%elem_of_singleton.
    + intros i y Hy Hnil. apply elem_of_app.
      apply lookup_alter_cases in Hy as [[Hi Hy]|[-> (x' & Hx' & ->)]].
      * left. by eapply Hcs.
      * right. simpl. rewrite Hx in Hx'. injection Hx' as <-. by apply list_elem_of_singleton.
Qed.

Lemma run_activity_signalled (l : list activity) (s : state) :
  consistent s -> signalled s -> signalled (run_activity l s).
Proof.
  unfold run_activity. revert s. induction l as [|a l IH]; intros s Hc Hs; [done|].
  change (run_labels (Activity <$> a :: l) s)
    with (run_labels (Activity <$> l) (default s (step_activity a s))).
  destruct (step_activity a s) as [s'|] eqn:E; simpl; [|by apply IH].
  apply IH; [by destruct (step_consistent (Activity a) s s' Hc E)|].
  by eapply step_activity_signalled.
Qed.

(** X8: as long as [stop] has not been called, the event of a task is set
    exactly when the task's done callbacks have been called (which happens
    only once its handler has ended), and a task whose callbacks have not
    been called yet is in the running set: no callback has raised. *)
Lemma ended_handlers_are_signalled (l : list activity) :
  let s := run_activity l started in
  forall t x, tasks s !! t = Some x ->
    (task_on_done x ∈ set_calls s <-> callbacks x = [])
    /\ (callbacks x <> [] -> t ∈ running_commands s)
    /\ (state_of x = Pending -> callbacks x <> []).
Proof.
  intros s t x Hx.
  assert (Hc : consistent s) by apply run_labels_consistent, started_consistent.
  assert (Hs : signalled s).
  { apply run_activity_signalled; [apply started_consistent|].
    split; simpl; intros i y Hy; by rewrite lookup_nil in Hy. }
  split; [|split].
  - split; [|by apply (called_set s Hs t)].
    intros Hset. destruct (callbacks_shape s Hc t x Hx) as [?|[_ ?]]; done.
  - by apply (waiting_running s Hs).
  - intros Hp Hnil. apply (called_set s Hs t x Hx) in Hnil.
    destruct (set_after_done s Hc _ Hnil) as (t' & x' & Hx' & He & Hd & _).
    assert (t' = t) as -> by (eapply task_lookup_unique; eauto).
    rewrite Hx in Hx'. injection Hx' as <-. by apply Hd.
Qed.

(** Two commands picked up, the handler of the first has ended and its
    done callbacks have been called. *)
Lemma ended_handlers_are_signalled_witness :
  exists x,
    tasks (run_activity (Scenario.two_running ++ [HandlerEnds 0 None; DoneCallbacks 0])
             started) !! 0 = Some x
    /\ callbacks x = []
    /\ task_on_done x
       ∈ set_calls (run_activity
                      (Scenario.two_running ++ [HandlerEnds 0 None; DoneCallbacks 0]) started).
Proof.
  eexists. split; [vm_compute; reflexivity|]. split; [reflexivity|].
  apply (ended_handlers_are_signalled
           (Scenario.two_running ++ [HandlerEnds 0 None; DoneCallbacks 0]) 0 _
           ltac:(vm_compute; reflexivity)).
  reflexivity.
Defined.

(** *** Runs of the consumer *)

(** Both handlers end, the second by raising: both events are set, in the
    order the callbacks ran, the exception is on the error queue, the
    running set is empty and every queue item is marked as done. *)
Example consumer_handles_two_commands :
  let s := run_activity
             (Scenario.two_running
                ++ [HandlerEnds 0 None; DoneCallbacks 0;
                    HandlerEnds 1 (Some (ValueError "boom")); DoneCallbacks 1])
             started in
  set_calls s = [0; 1]
  /\ error_queue s = [ValueError "boom"]
  /\ running_commands s = ∅
  /\ unfinished_tasks (queue s) = 0
  /\ state_of <$> tasks s = [Done Returned; Done (Raised (ValueError "boom"))].
Proof. vm_compute. repeat split. Qed.

(** [stop] with two handlers running: the first ends during the first sleep
    and keeps its outcome, the second is cancelled after the polling; a
    command sent during the second sleep stays queued, although the event
    loop was given the chance to run a consumer-loop iteration. *)
Example stop_with_two_handlers_running :
  let s := stop [[HandlerEnds 0 None; DoneCallbacks 0];
                 [Send Scenario.c1; LoopIteration]]
             (run_activity Scenario.two_running started) in
  state_of <$> tasks s = [Done Returned; Done Cancelled]
  /\ set_calls s = [0; 1]
  /\ running_commands s = ∅
  /\ qsize (queue s) = 1
  /\ consumer_task s = false.
Proof. vm_compute. repeat split. Qed.

(** A handler that has ended when the polling is over, but whose done
    callbacks are called only after [stop] has replaced the running set: it
    is not cancelled, and [when_task_finished] raises [KeyError] before it
    reaches [on_done.set()]. *)
Example done_callbacks_after_stop :
  let s := apply_label
             (stop [[HandlerEnds 0 None]]
                (run_activity [Send Scenario.c1; LoopIteration] started))
             (Activity (DoneCallbacks 0)) in
  state_of <$> tasks s = [Done Returned]
  /\ set_calls s = []
  /\ unfinished_tasks (queue s) = 1.
Proof. vm_compute. repeat split. Qed.

(** *** What the activity does to one task *)

(** Only the end of its own handler changes the state of a task. *)
Lemma step_activity_other (a : activity) (s s' : state) (t : nat) (st : task_state) :
  consistent s -> step_activity a s = Some s' ->
  (forall e, a <> HandlerEnds t e) ->
  status_of t s = Some st -> status_of t s' = Some st.
Proof.
  intros Hcons Hstep Ha Hst. destruct a as [c| |t' e|t']; simpl in Hstep.
  - by injection Hstep as <-.
  - unfold consumer_loop_iteration, get in Hstep. destruct (consumer_task s); [|done].
    destruct (items (queue s)) as [|[c e] rest]; [done|].
    injection Hstep as <-. rewrite handle_in_background_eq. unfold status_of in *; simpl.
    destruct (tasks s !! t) as [x|] eqn:Hx; [|done].
    by rewrite (lookup_app_l_Some _ _ _ _ Hx).
  - destruct (state_of <$> tasks s !! t') as [[|o]|]; try done.
    injection Hstep as <-. unfold status_of in *; simpl.
    rewrite list_lookup_alter_ne; [done|]. intros ->. by apply (Ha e).
  - destruct (state_of <$> tasks s !! t') as [[|o]|] eqn:Hst'; try done.
    injection Hstep as <-. apply status_lookup in Hst' as (x & Hx & Hxs).
    destruct (run_done_callbacks_spec t' s x) as (_ & _ & (Hs & _) & _); auto.
    { unfold is_done. by rewrite Hxs. }
    by rewrite Hs.
Qed.

Lemma step_activity_ends (t : nat) (e : option exn) (s : state) :
  status_of t s = Some Pending ->
  exists s', step_activity (HandlerEnds t e) s = Some s'
             /\ status_of t s' = Some (Done (ending e)).
Proof.
  intros Hst. simpl. unfold status_of in Hst. rewrite Hst. eexists. split; [done|].
  unfold status_of; simpl. rewrite list_lookup_alter_eq.
  by destruct (tasks s !! t).
Qed.

Lemma run_activity_cons (a : activity) (l : list activity) (s : state) :
  run_activity (a :: l) s = run_activity l (default s (step_activity a s)).
Proof. done. Qed.

(** A task that has ended keeps its outcome. *)
Lemma run_activity_done (l : list activity) (s : state) (t : nat) (o : outcome) :
  consistent s -> status_of t s = Some (Done o) ->
  status_of t (run_activity l s) = Some (Done o).
Proof.
  revert s. induction l as [|a l IH]; intros s Hc Hst; [done|].
  rewrite run_activity_cons.
  destruct (step_activity a s) as [s'|] eqn:E; simpl; [|by apply IH].
  apply IH; [by destruct (step_consistent (Activity a) s s' Hc E)|].
  eapply step_activity_other; eauto.
  intros e ->. simpl in E. unfold status_of in Hst. by rewrite Hst in E.
Qed.

(** A pending task ends during [l] exactly when [l] has the end of its
    handler. *)
Lemma run_activity_pending (l : list activity) (s : state) (t : nat) :
  consistent s -> status_of t s = Some Pending ->
  (exists e, HandlerEnds t e ∈ l /\ status_of t (run_activity l s) = Some (Done (ending e)))
  \/ ((forall e, HandlerEnds t e ∉ l) /\ status_of t (run_activity l s) = Some Pending).
Proof.
  revert s. induction l as [|a l IH]; intros s Hc Hst.
  { right. split; [|done]. intros e He. by apply elem_of_nil in He. }
  rewrite run_activity_cons.
  assert (Hdec : (exists e, a = HandlerEnds t e) \/ (forall e, a <> HandlerEnds t e)).
  { destruct a as [c| |t' e|t']; try (right; intros ?; congruence).
    destruct (decide (t' = t)) as [->|Hd]; [left; eauto|right; intros ?; congruence]. }
  destruct Hdec as [[e ->]|Ha].
  - destruct (step_activity_ends t e s Hst) as (s' & E & Hs').
    rewrite E; simpl. left. exists e. split; [by left|].
    apply run_activity_done; [|done].
    by destruct (step_consistent (Activity (HandlerEnds t e)) s s' Hc E).
  - assert (Hnext : consistent (default s (step_activity a s))
                    /\ status_of t (default s (step_activity a s)) = Some Pending).
    { destruct (step_activity a s) as [s'|] eqn:E; simpl; [|done].
      split; [by destruct (step_consistent (Activity a) s s' Hc E)|].
      by eapply step_activity_other. }
    destruct Hnext as [Hc' Hst']. destruct (IH _ Hc' Hst') as [(e & He & Hs')|[Hno Hs']].
    + left. exists e. split; [by right|done].
    + right. split; [|done]. intros e He.
      apply elem_of_cons in He as [He|He]; [by destruct (Ha e)|by destruct (Hno e)].
Qed.

(** *** The polling of [stop], task by task *)

Lemma stop_poll_done (n : nat) (during : list (list activity)) (s : state)
    (t : nat) (o : outcome) :
  consistent s -> orderly s -> status_of t s = Some (Done o) ->
  status_of t (stop_poll n during s) = Some (Done o).
Proof.
  revert during s. induction n as [|n IH]; intros during s Hc Ho Hst; simpl; [done|].
  case_decide; [by apply IH|].
  destruct during as [|l rest]; [by apply IH|].
  destruct (run_activity_spec l s Hc Ho) as (Hc' & Ho' & _).
  apply IH; [done|done|]. by apply run_activity_done.
Qed.

(** A handler that is running when the polling starts ends during it exactly
    when the end of the handler is in one of the [n] sleeps. *)
Lemma stop_poll_pending (n : nat) (during : list (list activity)) (s : state) (t : nat) :
  consistent s -> orderly s -> status_of t s = Some Pending ->
  (exists e, HandlerEnds t e ∈ concat (take n during)
             /\ status_of t (stop_poll n during s) = Some (Done (ending e)))
  \/ ((forall e, HandlerEnds t e ∉ concat (take n during))
      /\ status_of t (stop_poll n during s) = Some Pending).
Proof.
  revert during s. induction n as [|n IH]; intros during s Hc Ho Hst.
  { right. split; [|done]. intros e He. rewrite take_0 in He. by apply elem_of_nil in He. }
  simpl stop_poll. rewrite decide_False; last first.
  { intros Hempty. apply (pending_running s Ho) in Hst. rewrite Hempty in Hst.
    by apply not_elem_of_empty in Hst. }
  destruct during as [|l rest].
  { destruct (IH [] s Hc Ho Hst) as [(e & He & _)|[_ Hs']].
    - rewrite take_nil in He. by apply elem_of_nil in He.
    - right. split; [|done]. intros e He. by apply elem_of_nil in He. }
  change (concat (take (S n) (l :: rest))) with (l ++ concat (take n rest)).
  destruct (run_activity_spec l s Hc Ho) as (Hc' & Ho' & _).
  destruct (run_activity_pending l s t Hc Hst) as [(e & He & Hs')|[Hno Hs']].
  - left. exists e. split; [apply elem_of_app; by left|].
    by apply stop_poll_done.
  - destruct (IH rest _ Hc' Ho' Hs') as [(e & He & Hs'')|[Hno' Hs'']].
    + left. exists e. split; [apply elem_of_app; by right|done].
    + right. split; [|done]. intros e He.
      apply elem_of_app in He as [He|He]; [by destruct (Hno e)|by destruct (Hno' e)].
Qed.
Lemma tasks_stop_reset (s : state) : tasks (stop_reset s) = tasks s.
Proof. reflexivity. Qed.

Lemma status_of_stop_reset (t : nat) (s : state) :
  status_of t (stop_reset s) = status_of t s.
Proof. reflexivity. Qed.

(** C3: [stop] called on a consumer that has been running, whatever happens
    on the event loop during the sleeps of its polling:
    (a) the consumer loop is off when the polling ends and the tasks after
        [stop] are the tasks there were when [stop] began: no handler was
        started, though commands may have been sent meanwhile;
    (b) a task that had ended when the polling was over keeps its outcome,
        and none of these is a cancellation; so a handler running when
        [stop] began and whose end falls in one of the hundred sleeps ends
        as it returned or raised;
    (c) a task that had not ended when the polling was over is cancelled; so
        a handler running when [stop] began and whose end falls in none of
        the sleeps is cancelled;
    (d) the running set is empty when [stop] returns. *)
Theorem stop_drains_then_cancels (l : list activity) (during : list (list activity)) :
  let s := run_activity l started in
  let polled := stop_window during s in
  let s' := stop during s in
  (consumer_task polled = false /\ task_item <$> tasks s' = task_item <$> tasks s)
  /\ ((forall t o, status_of t polled = Some (Done o) ->
         status_of t s' = Some (Done o) /\ o <> Cancelled)
      /\ (forall t e, status_of t s = Some Pending ->
            HandlerEnds t e ∈ window_activity during ->
            exists e', HandlerEnds t e' ∈ window_activity during
                       /\ status_of t s' = Some (Done (ending e'))))
  /\ ((forall t, status_of t polled = Some Pending -> status_of t s' = Some (Done Cancelled))
      /\ (forall t, status_of t s = Some Pending ->
            (forall e, HandlerEnds t e ∉ window_activity during) ->
            status_of t s' = Some (Done Cancelled)))
  /\ running_commands s' = ∅.
Proof.
  intros s polled s'. unfold s', polled, stop, stop_cancel_tasks, stop_window.
  clear s' polled.
  destruct (run_activity_spec l started started_consistent) as (Hc & Ho & _).
  { split; intros t; unfold status_of; simpl; done. }
  fold s in Hc, Ho.
  assert (H1 : consistent (stop_cancel_loop s) /\ orderly (stop_cancel_loop s)
               /\ consumer_task (stop_cancel_loop s) = false
               /\ tasks (stop_cancel_loop s) = tasks s).
  { unfold stop_cancel_loop. destruct (consumer_task s) eqn:E; [|done].
    split; [by apply consistent_with_consumer_task|].
    split; [|done]. destruct Ho as [Hp Hn]. by split. }
  destruct H1 as (Hc1 & Ho1 & Hoff1 & Ht1).
  pose proof (stop_poll_spec 100 during _ Hc1 Ho1 Hoff1) as H2. cbv zeta in H2.
  assert (Hpoll : forall t, status_of t s = Some Pending ->
            (exists e, HandlerEnds t e ∈ window_activity during
               /\ status_of t (stop_poll 100 during (stop_cancel_loop s))
                  = Some (Done (ending e)))
            \/ ((forall e, HandlerEnds t e ∉ window_activity during)
                /\ status_of t (stop_poll 100 during (stop_cancel_loop s)) = Some Pending)).
  { intros t Ht. apply (stop_poll_pending 100 during _ t Hc1 Ho1).
    unfold status_of. rewrite Ht1. exact Ht. }
  set (polled := stop_poll 100 during (stop_cancel_loop s)) in *.
  destruct H2 as (Hc2 & Ho2 & Hoff2 & Ht2).
  destruct (cancel_spec (elements (running_commands polled)) polled Hc2)
    as (Hc3 & Hst3 & Ht3 & _).
  assert (Hkept : forall t o, status_of t polled = Some (Done o) ->
            status_of t (stop_reset (cancel (elements (running_commands polled)) polled))
            = Some (Done o)).
  { intros t o Ht. rewrite status_of_stop_reset, Hst3, Ht.
    rewrite decide_False; [reflexivity|]. intros [_ ?]; discriminate. }
  assert (Hcancelled : forall t, status_of t polled = Some Pending ->
            status_of t (stop_reset (cancel (elements (running_commands polled)) polled))
            = Some (Done Cancelled)).
  { intros t Ht. rewrite status_of_stop_reset, Hst3. rewrite decide_True; [reflexivity|].
    split; [|exact Ht]. apply elem_of_elements. exact (pending_running polled Ho2 t Ht). }
  split; [|split; [|split]].
  - split; [exact Hoff2|]. rewrite tasks_stop_reset, Ht3, Ht2, Ht1. reflexivity.
  - split.
    + intros t o Ht. split; [by apply Hkept|].
      intros ->. exact (none_cancelled polled Ho2 t Ht).
    + intros t e Ht He. destruct (Hpoll t Ht) as [(e' & He' & Hs')|[Hno _]].
      * exists e'. split; [exact He'|]. by apply Hkept.
      * destruct (Hno e He).
  - split; [exact Hcancelled|].
    intros t Ht Hno. destruct (Hpoll t Ht) as [(e' & He' & _)|[_ Hs']].
    + destruct (Hno e' He').
    + by apply Hcancelled.
  - reflexivity.
Qed.

(** *** What the callbacks leave alone *)

Lemma call_callback_frame (t : nat) (s : state) (cb : callback) :
  let s' := call_callback t s cb in
  tasks s' = tasks s /\ consumer_task s' = consumer_task s
  /\ items (queue s') = items (queue s) /\ next_event s' = next_event s
  /\ running_commands s' ⊆ running_commands s
  /\ (running_commands s = ∅ -> set_calls s' = set_calls s /\ queue s' = queue s).
Proof.
  destruct cb as [|e]; simpl.
  - unfold queue_exception_checker.
    destruct (state_of <$> tasks s !! t) as [[|[| |]]|]; simpl; split_and!; done.
  - destruct (when_task_finished_cases t e s) as (H1 & H2 & H3 & H4 & H5 & _).
    split_and!; try done.
    intros Hempty. unfold when_task_finished.
    rewrite decide_False; [done|]. rewrite Hempty. apply not_elem_of_empty.
Qed.

Lemma call_callbacks_frame (t : nat) (cbs : list callback) (s : state) :
  let s' := foldl (call_callback t) s cbs in
  tasks s' = tasks s /\ consumer_task s' = consumer_task s
  /\ items (queue s') = items (queue s) /\ next_event s' = next_event s
  /\ running_commands s' ⊆ running_commands s
  /\ (running_commands s = ∅ -> set_calls s' = set_calls s /\ queue s' = queue s).
Proof.
  revert s. induction cbs as [|cb cbs IH]; intros s; simpl; [done|].
  destruct (call_callback_frame t s cb) as (H1 & H2 & H3 & H4 & H5 & H6).
  destruct (IH (call_callback t s cb)) as (I1 & I2 & I3 & I4 & I5 & I6).
  split_and!; try congruence; [by etrans|].
  intros Hempty. destruct (H6 Hempty) as [E1 E2].
  assert (Hempty' : running_commands (call_callback t s cb) = ∅).
  { apply equiv_empty_L. by rewrite <- Hempty. }
  destruct (I6 Hempty') as [-> ->]. done.
Qed.

Lemma run_done_callbacks_frame (t : nat) (s : state) :
  let s' := run_done_callbacks t s in
  tasks s' = tasks (clear_callbacks t s) /\ consumer_task s' = consumer_task s
  /\ items (queue s') = items (queue s) /\ next_event s' = next_event s
  /\ running_commands s' ⊆ running_commands s
  /\ (running_commands s = ∅ -> set_calls s' = set_calls s /\ queue s' = queue s).
Proof.
  unfold run_done_callbacks. destruct (tasks s !! t) as [x|] eqn:Hx; simpl.
  - apply (call_callbacks_frame t (callbacks x) (clear_callbacks t s)).
  - split_and!; try done. unfold clear_callbacks; simpl.
    symmetry. apply list_eq. intros i. destruct (decide (t = i)) as [->|Hne].
    + by rewrite list_lookup_alter_eq, Hx.
    + by rewrite list_lookup_alter_ne.
Qed.

(** The consumer loop is switched off by [stop] only. *)
Lemma step_activity_consumer_task (a : activity) (s s' : state) :
  step_activity a s = Some s' -> consumer_task s' = consumer_task s.
Proof.
  destruct a as [c| |t e|t]; simpl.
  - by intros [= <-].
  - unfold consumer_loop_iteration. destruct (consumer_task s) eqn:E; [|done].
    destruct (get (queue s)) as [[[c e] q]|]; [|done].
    intros [= <-]. by rewrite handle_in_background_eq.
  - destruct (state_of <$> tasks s !! t) as [[|o]|]; try done. by intros [= <-].
  - destruct (state_of <$> tasks s !! t) as [[|o]|]; try done. intros [= <-].
    by destruct (run_done_callbacks_frame t s) as (_ & ? & _).
Qed.

Lemma run_activity_consumer_task (l : list activity) (s : state) :
  consumer_task (run_activity l s) = consumer_task s.
Proof.
  revert s. induction l as [|a l IH]; intros s; [done|].
  rewrite run_activity_cons, IH.
  destruct (step_activity a s) as [s'|] eqn:E; simpl; [|done].
  by eapply step_activity_consumer_task.
Qed.

Lemma stop_poll_consumer_task (n : nat) (during : list (list activity)) (s : state) :
  consumer_task (stop_poll n during s) = consumer_task s.
Proof.
  revert during s. induction n as [|n IH]; intros during s; simpl; [done|].
  case_decide; [apply IH|]. destruct during as [|l rest]; [apply IH|].
  by rewrite IH, run_activity_consumer_task.
Qed.

Lemma cancel_consumer_task (ts : list nat) (s : state) :
  consumer_task (cancel ts s) = consumer_task s.
Proof.
  unfold cancel. revert s. induction ts as [|t ts IH]; intros s; simpl; [done|].
  rewrite IH. unfold cancel_task.
  destruct (state_of <$> tasks s !! t) as [[|o]|]; try done.
  by destruct (run_done_callbacks_frame t (set_task_state t (Done Cancelled) s)) as (_ & -> & _).
Qed.

Lemma consumer_task_stop_reset (s : state) :
  consumer_task (stop_reset s) = consumer_task s.
Proof. reflexivity. Qed.

Lemma running_commands_stop_reset (s : state) : running_commands (stop_reset s) = ∅.
Proof. reflexivity. Qed.

Lemma stop_stopped (during : list (list activity)) (s : state) : stopped (stop during s).
Proof.
  unfold stopped, stop, stop_cancel_tasks, stop_window.
  rewrite consumer_task_stop_reset, running_commands_stop_reset.
  split; [|reflexivity].
  rewrite cancel_consumer_task, stop_poll_consumer_task.
  unfold stop_cancel_loop. destruct (consumer_task s) eqn:E; [reflexivity|exact E].
Qed.

(** *** After [stop] *)

Lemma step_activity_stopped (a : activity) (s s' : state) :
  stopped s -> step_activity a s = Some s' ->
  stopped s' /\ set_calls s' = set_calls s
  /\ task_item <$> tasks s' = task_item <$> tasks s
  /\ match a with
     | Send c =>
         items (queue s') = items (queue s) ++ [(c, next_event s)]
         /\ unfinished_tasks (queue s') = S (unfinished_tasks (queue s))
         /\ next_event s' = S (next_event s)
     | _ => queue s' = queue s /\ next_event s' = next_event s
     end.
Proof.
  intros [Hoff Hempty]. destruct a as [c| |t e|t]; simpl.
  - intros [= <-]. by split_and!.
  - unfold consumer_loop_iteration. by rewrite Hoff.
  - destruct (state_of <$> tasks s !! t) as [[|o]|]; try done. intros [= <-].
    split_and!; try done. simpl. by apply task_items_alter.
  - destruct (state_of <$> tasks s !! t) as [[|o]|]; try done. intros [= <-].
    destruct (run_done_callbacks_frame t s) as (Ht & Hc & _ & Hn & Hr & Hs).
    destruct (Hs Hempty) as [Hset Hq].
    split_and!; try done.
    + split; [congruence|]. apply equiv_empty_L. by rewrite <- Hempty.
    + rewrite Ht. simpl. by apply task_items_alter.
Qed.

Lemma sent_activity_cons (a : activity) (l : list activity) :
  sent (Activity <$> a :: l)
  = match a with Send c => [c] | _ => [] end ++ sent (Activity <$> l).
Proof. unfold sent. simpl. by destruct a. Qed.

Lemma run_activity_stopped (l : list activity) (s : state) :
  stopped s ->
  let s' := run_activity l s in
  stopped s' /\ set_calls s' = set_calls s
  /\ task_item <$> tasks s' = task_item <$> tasks s
  /\ items (queue s')
     = items (queue s) ++ imap (fun i c => (c, next_event s + i)) (sent (Activity <$> l))
  /\ unfinished_tasks (queue s')
     = unfinished_tasks (queue s) + length (sent (Activity <$> l))
  /\ next_event s' = next_event s + length (sent (Activity <$> l)).
Proof.
  revert s. induction l as [|a l IH]; intros s Hs.
  { simpl. rewrite app_nil_r, !Nat.add_0_r. by split_and!. }
  cbv zeta. rewrite run_activity_cons, sent_activity_cons.
  destruct (step_activity a s) as [s1|] eqn:E; simpl.
  - destruct (step_activity_stopped a s s1 Hs E) as (Hs1 & Hset & Hti & Hq).
    destruct (IH s1 Hs1) as (I1 & I2 & I3 & I4 & I5 & I6).
    rewrite I2, I3, I4, I5, I6, Hset, Hti.
    destruct a as [c| |t e|t]; simpl.
    + destruct Hq as (-> & -> & ->). rewrite <- app_assoc. simpl.
      split_and!; try done; try lia.
      do 2 f_equal; [by rewrite Nat.add_0_r|]. apply imap_ext. intros i x _. simpl.
      f_equal. lia.
    + destruct Hq as (-> & ->). by split_and!.
    + destruct Hq as (-> & ->). by split_and!.
    + destruct Hq as (-> & ->). by split_and!.
  - destruct a as [c| |t e|t]; simpl in E; try done; simpl; by apply IH.
Qed.

(** X9: once [stop] has returned, whatever happens next on the event loop
    (commands sent, handlers ending, done callbacks called), no completion
    signal is set any more and no handler is started: the running set stays
    empty, the loop stays off, and the commands sent pile up in the queue,
    none of them marked as done. *)
Theorem nothing_is_signalled_after_stop
    (s : state) (during : list (list activity)) (l : list activity) :
  let s' := stop during s in
  let s'' := run_activity l s' in
  set_calls s'' = set_calls s'
  /\ task_item <$> tasks s'' = task_item <$> tasks s'
  /\ running_commands s'' = ∅ /\ consumer_task s'' = false
  /\ items (queue s'')
     = items (queue s') ++ imap (fun i c => (c, next_event s' + i)) (sent (Activity <$> l))
  /\ unfinished_tasks (queue s'')
     = unfinished_tasks (queue s') + length (sent (Activity <$> l)).
Proof.
  intros s' s''.
  destruct (run_activity_stopped l s' (stop_stopped during s))
    as ([Hoff Hempty] & H2 & H3 & H4 & H5 & _).
  by split_and!.
Qed.

(** *** [stop] on a consumer with nothing running *)

Lemma stop_poll_idle (n : nat) (during : list (list activity)) (s : state) :
  running_commands s = ∅ -> stop_poll n during s = s.
Proof.
  intros Hempty. induction n as [|n IH]; simpl; [done|]. by rewrite decide_True.
Qed.

Lemma stop_idle (during : list (list activity)) (s : state) :
  running_commands s = ∅ -> stop during s = stop_reset (stop_cancel_loop s).
Proof.
  intros Hempty. unfold stop, stop_cancel_tasks, stop_window.
  assert (Hempty' : running_commands (stop_cancel_loop s) = ∅).
  { unfold stop_cancel_loop. by destruct (consumer_task s). }
  rewrite (stop_poll_idle 100 during _ Hempty'), Hempty', elements_empty. reflexivity.
Qed.

Lemma stop_stopped_noop (during : list (list activity)) (s : state) :
  stopped s -> stop during s = s.
Proof.
  intros [Hoff Hempty]. rewrite stop_idle by done.
  unfold stop_cancel_loop. rewrite Hoff. destruct s; simpl in *. by subst.
Qed.

(** X10: [stop] on a consumer that has been stopped changes nothing, and
    so does [stop] on a consumer that was never started; with an empty
    running set [stop] does not sleep: what it returns does not depend on
    what the event loop would have done during the sleeps. *)
Theorem stop_again_changes_nothing (s : state) (during during' : list (list activity)) :
  stop during' (stop during s) = stop during s
  /\ stop during init = init
  /\ (running_commands s = ∅ -> stop during s = stop [] s).
Proof.
  split; [apply stop_stopped_noop, stop_stopped|].
  split; [by apply stop_stopped_noop|].
  intros Hempty. by rewrite !stop_idle.
Qed.

(** *** A running consumer can always finish its work *)

Lemma started_signalled : signalled started.
Proof. split; simpl; intros i y Hy; by rewrite lookup_nil in Hy. Qed.

Lemma started_orderly : orderly started.
Proof. split; intros t; unfold status_of; simpl; done. Qed.

(** The consumer loop picks up [k] items without waiting for any handler. *)
Lemma loop_iterations_spec (k : nat) (s : state) :
  consumer_task s = true ->
  let s' := run_activity (replicate k LoopIteration) s in
  tasks s'
  = tasks s ++ ((fun item => Task item.1 item.2 Pending
                                [QueueExceptionChecker; WhenTaskFinished item.2])
                  <$> take k (items (queue s)))
  /\ items (queue s') = drop k (items (queue s))
  /\ running_commands s'
     = list_to_set (seq (length (tasks s)) (k `min` qsize (queue s))) ∪ running_commands s
  /\ set_calls s' = set_calls s /\ next_event s' = next_event s
  /\ unfinished_tasks (queue s') = unfinished_tasks (queue s).
Proof.
  revert s. induction k as [|k IH]; intros s Hon.
  { simpl. rewrite app_nil_r, drop_0. split_and!; try done. set_tauto. }
  cbv zeta.
  change (replicate (S k) LoopIteration) with (LoopIteration :: replicate k LoopIteration).
  rewrite run_activity_cons. simpl step_activity.
  unfold consumer_loop_iteration, get, qsize. rewrite Hon.
  destruct (items (queue s)) as [|[c e] rest] eqn:Hitems; simpl default.
  - destruct (IH s Hon) as (I1 & I2 & I3 & I4 & I5 & I6).
    rewrite I1, I2, I3, I4, I5, I6, Hitems. unfold qsize. rewrite Hitems. simpl.
    rewrite !Nat.min_0_r. by rewrite take_nil, drop_nil.
  - rewrite handle_in_background_eq.
    match goal with |- context [run_activity _ ?x] => set (s1 := x) end.
    destruct (IH s1 Hon) as (I1 & I2 & I3 & I4 & I5 & I6).
    rewrite I1, I2, I3, I4, I5, I6. unfold s1, qsize; simpl.
    rewrite <- app_assoc. split_and!; try done.
    rewrite length_app. simpl. rewrite (Nat.add_1_r (length (tasks s))).
    set_tauto.
Qed.

Lemma status_of_lt (t : nat) (s : state) :
  t < length (tasks s) -> exists st, status_of t s = Some st.
Proof.
  intros Hlt. unfold status_of. destruct (lookup_lt_is_Some_2 (tasks s) t Hlt) as [x ->].
  by eexists.
Qed.

(** Once every handler has been told to end, every task has ended. *)
Lemma handlers_end_spec (endings : nat -> option exn) (ts : list nat) (s : state) (t : nat) :
  consistent s -> orderly s -> t ∈ ts -> t < length (tasks s) ->
  exists o, status_of t (run_activity ((fun t => HandlerEnds t (endings t)) <$> ts) s)
            = Some (Done o) /\ o <> Cancelled.
Proof.
  intros Hc Ho Hin Hlt. destruct (status_of_lt t s Hlt) as [[|o] Hst].
  - destruct (run_activity_pending ((fun t => HandlerEnds t (endings t)) <$> ts) s t Hc Hst)
      as [(e & _ & He)|[Hno _]].
    + exists (ending e). split; [done|]. by destruct e.
    + destruct (Hno (endings t)). apply list_elem_of_fmap. by exists t.
  - exists o. split; [by apply run_activity_done|].
    intros ->. by apply (none_cancelled s Ho t).
Qed.

(** A task whose done callbacks have been called has none left. *)
Lemma step_activity_called (a : activity) (s s' : state) (t : nat) (x : task) :
  step_activity a s = Some s' -> tasks s !! t = Some x -> callbacks x = [] ->
  exists x', tasks s' !! t = Some x' /\ callbacks x' = [].
Proof.
  intros Hstep Hx Hnil. destruct a as [c| |t' e|t']; simpl in Hstep.
  - injection Hstep as <-. eauto.
  - unfold consumer_loop_iteration in Hstep. destruct (consumer_task s); [|done].
    destruct (get (queue s)) as [[[c e] q]|]; [|done].
    injection Hstep as <-. rewrite handle_in_background_eq. simpl.
    exists x. split; [|done]. by apply lookup_app_l_Some.
  - destruct (state_of <$> tasks s !! t') as [[|o]|]; try done.
    injection Hstep as <-. simpl. rewrite (lookup_task_alter _ _ _ _ x Hx).
    eexists. split; [done|]. by case_decide.
  - destruct (state_of <$> tasks s !! t') as [[|o]|]; try done.
    injection Hstep as <-.
    destruct (run_done_callbacks_frame t' s) as (-> & _). simpl.
    rewrite (lookup_task_alter _ _ _ _ x Hx).
    eexists. split; [done|]. by case_decide.
Qed.

Lemma run_activity_called (l : list activity) (s : state) (t : nat) (x : task) :
  tasks s !! t = Some x -> callbacks x = [] ->
  exists x', tasks (run_activity l s) !! t = Some x' /\ callbacks x' = [].
Proof.
  revert s x. induction l as [|a l IH]; intros s x Hx Hnil; [by eauto|].
  rewrite run_activity_cons.
  destruct (step_activity a s) as [s'|] eqn:E; simpl; [|by eapply IH].
  destruct (step_activity_called a s s' t x E Hx Hnil) as (x' & Hx' & Hnil').
  by eapply IH.
Qed.

Lemma done_callbacks_spec (ts : list nat) (s : state) (t : nat) (o : outcome) :
  consistent s -> status_of t s = Some (Done o) -> t ∈ ts ->
  exists x, tasks (run_activity (DoneCallbacks <$> ts) s) !! t = Some x /\ callbacks x = [].
Proof.
  revert s. induction ts as [|t' ts IH]; intros s Hc Hst Hin.
  { by apply elem_of_nil in Hin. }
  rewrite fmap_cons, run_activity_cons.
  destruct (decide (t' = t)) as [->|Hne].
  - simpl step_activity. unfold status_of in Hst. rewrite Hst. simpl default.
    destruct (run_done_callbacks_frame t s) as (Ht & _).
    apply status_lookup in Hst as (x & Hx & _).
    eapply (run_activity_called _ _ t);
      [rewrite Ht; simpl; by rewrite list_lookup_alter_eq, Hx|].
    done.
  - apply elem_of_cons in Hin as [->|Hin]; [done|].
    destruct (step_activity (DoneCallbacks t') s) as [s'|] eqn:E; simpl default; [|by apply IH].
    apply IH; [by destruct (step_consistent (Activity (DoneCallbacks t')) s s' Hc E)| |done].
    by eapply step_activity_other.
Qed.

(** The end of a handler and the done callbacks leave the queue and the
    items of the tasks alone. *)
Lemma step_activity_ending_frame (a : activity) (s s' : state) :
  is_ending a = true -> step_activity a s = Some s' ->
  length (tasks s') = length (tasks s) /\ items (queue s') = items (queue s).
Proof.
  destruct a as [c| |t e|t]; try done; intros _; simpl.
  - destruct (state_of <$> tasks s !! t) as [[|o]|]; try done. intros [= <-]. simpl.
    by rewrite length_alter.
  - destruct (state_of <$> tasks s !! t) as [[|o]|]; try done. intros [= <-].
    destruct (run_done_callbacks_frame t s) as (-> & _ & -> & _). simpl.
    by rewrite length_alter.
Qed.

Lemma run_activity_ending_frame (l : list activity) (s : state) :
  Forall (fun a => is_ending a = true) l ->
  length (tasks (run_activity l s)) = length (tasks s)
  /\ items (queue (run_activity l s)) = items (queue s).
Proof.
  revert s. induction l as [|a l IH]; intros s Hl; [done|].
  apply Forall_cons in Hl as [Ha Hl]. rewrite run_activity_cons.
  destruct (step_activity a s) as [s'|] eqn:E; simpl; [|by apply IH].
  destruct (step_activity_ending_frame a s s' Ha E) as [<- <-]. by apply IH.
Qed.

(** A task in the running set has been made. *)
Lemma step_activity_running_bounded (a : activity) (s s' : state) :
  (forall t, t ∈ running_commands s -> t < length (tasks s)) ->
  step_activity a s = Some s' ->
  forall t, t ∈ running_commands s' -> t < length (tasks s').
Proof.
  intros Hb. destruct a as [c| |t' e|t']; simpl.
  - by intros [= <-].
  - unfold consumer_loop_iteration. destruct (consumer_task s); [|done].
    destruct (get (queue s)) as [[[c e] q]|]; [|done].
    intros [= <-]. rewrite handle_in_background_eq. simpl. intros t.
    rewrite length_app. simpl. intros [->%elem_of_singleton|Hin%Hb]%elem_of_union; lia.
  - destruct (state_of <$> tasks s !! t') as [[|o]|]; try done. intros [= <-]. simpl.
    intros t. rewrite length_alter. apply Hb.
  - destruct (state_of <$> tasks s !! t') as [[|o]|]; try done. intros [= <-].
    destruct (run_done_callbacks_frame t' s) as (-> & _ & _ & _ & Hsub & _). simpl.
    intros t Hin. rewrite length_alter. apply Hb. by apply Hsub.
Qed.

Lemma run_activity_running_bounded (l : list activity) (s : state) :
  (forall t, t ∈ running_commands s -> t < length (tasks s)) ->
  forall t, t ∈ running_commands (run_activity l s) -> t < length (tasks (run_activity l s)).
Proof.
  revert s. induction l as [|a l IH]; intros s Hb; [done|].
  rewrite run_activity_cons.
  destruct (step_activity a s) as [s'|] eqn:E; simpl; [|by apply IH].
  apply IH. by eapply step_activity_running_bounded.
Qed.

Lemma run_activity_app (l1 l2 : list activity) (s : state) :
  run_activity (l1 ++ l2) s = run_activity l2 (run_activity l1 s).
Proof. unfold run_activity, run_labels. by rewrite fmap_app, foldl_app. Qed.

Lemma sent_drain (endings : nat -> option exn) (s : state) :
  sent (Activity <$> drain endings s) = [].
Proof.
  unfold drain, sent. rewrite !fmap_app, !omap_app.
  assert (H1 : forall k, omap sent_by (Activity <$> replicate k LoopIteration) = []).
  { induction k; simpl; done. }
  assert (H2 : forall ts,
    omap sent_by (Activity <$> ((fun t => HandlerEnds t (endings t)) <$> ts)) = []).
  { induction ts; simpl; done. }
  assert (H3 : forall ts, omap sent_by (Activity <$> (DoneCallbacks <$> ts)) = []).
  { induction ts; simpl; done. }
  by rewrite H1, H2, H3.
Qed.

Lemma started_running : consumer_task started = true.
Proof. reflexivity. Qed.

Lemma drain_spec (l : list activity) (endings : nat -> option exn) :
  let s := run_activity l started in
  let s' := run_activity (drain endings s) s in
  items (queue s') = []
  /\ length (tasks s') = next_event s
  /\ next_event s' = next_event s
  /\ (forall t, t < next_event s ->
        exists x o, tasks s' !! t = Some x /\ task_on_done x = t
                    /\ state_of x = Done o /\ o <> Cancelled /\ callbacks x = []
                    /\ t ∈ set_calls s')
  /\ running_commands s' = ∅
  /\ unfinished_tasks (queue s') = 0.
Proof.
  intros s s'.
  assert (Hrun : s' = run_activity (l ++ drain endings s) started).
  { unfold s', s. by rewrite run_activity_app. }
  destruct (run_activity_spec l started started_consistent started_orderly) as (Hc & Ho & _).
  fold s in Hc, Ho.
  assert (Hon : consumer_task s = true).
  { unfold s. by rewrite run_activity_consumer_task. }
  destruct (run_labels_fifo (Activity <$> l)) as [Hf Hn].
  change (run_labels (Activity <$> l) started) with s in Hf, Hn.
  destruct (run_labels_fifo (Activity <$> (l ++ drain endings s))) as [Hf' Hn'].
  change (run_labels (Activity <$> (l ++ drain endings s)) started)
    with (run_activity (l ++ drain endings s) started) in Hf', Hn'.
  rewrite <- Hrun in Hf', Hn'.
  assert (Hsent : sent (Activity <$> (l ++ drain endings s)) = sent (Activity <$> l)).
  { unfold sent. rewrite fmap_app, omap_app. fold (sent (Activity <$> drain endings s)).
    by rewrite sent_drain, app_nil_r. }
  rewrite Hsent in Hf', Hn'.
  set (n := length (tasks s) + qsize (queue s)).
  assert (Hnn : n = next_event s).
  { rewrite Hn. apply (f_equal length) in Hf. unfold numbered in Hf.
    rewrite length_app, length_fmap, length_imap in Hf. unfold n, qsize. lia. }
  (* The three phases of the schedule. *)
  set (s1 := run_activity (replicate (qsize (queue s)) LoopIteration) s).
  set (s2 := run_activity ((fun t => HandlerEnds t (endings t)) <$> seq 0 n) s1).
  assert (Hs' : s' = run_activity (DoneCallbacks <$> seq 0 n) s2).
  { unfold s', drain. fold n. by rewrite !run_activity_app. }
  destruct (loop_iterations_spec (qsize (queue s)) s Hon) as (H1t & H1q & _).
  fold s1 in H1t, H1q.
  assert (Hq1 : items (queue s1) = []).
  { rewrite H1q. unfold qsize. by rewrite drop_all. }
  assert (Hl1 : length (tasks s1) = n).
  { rewrite H1t, length_app, length_fmap, length_take. unfold n, qsize. lia. }
  destruct (run_activity_spec (replicate (qsize (queue s)) LoopIteration) s Hc Ho)
    as (Hc1 & Ho1 & _). fold s1 in Hc1, Ho1.
  destruct (run_activity_spec ((fun t => HandlerEnds t (endings t)) <$> seq 0 n) s1 Hc1 Ho1)
    as (Hc2 & Ho2 & _). fold s2 in Hc2, Ho2.
  destruct (run_activity_spec (DoneCallbacks <$> seq 0 n) s2 Hc2 Ho2) as (Hc3 & Ho3 & _).
  rewrite <- Hs' in Hc3, Ho3.
  assert (Hsig : signalled s').
  { rewrite Hrun. apply run_activity_signalled;
      [apply started_consistent|apply started_signalled]. }
  destruct (run_activity_ending_frame ((fun t => HandlerEnds t (endings t)) <$> seq 0 n) s1)
    as [Hl2 Hq2].
  { apply Forall_fmap, Forall_forall. done. }
  fold s2 in Hl2, Hq2.
  destruct (run_activity_ending_frame (DoneCallbacks <$> seq 0 n) s2) as [Hl3 Hq3].
  { apply Forall_fmap, Forall_forall. done. }
  rewrite <- Hs' in Hl3, Hq3.
  assert (Hitems : items (queue s') = []) by congruence.
  assert (Hlen : length (tasks s') = n) by congruence.
  rewrite Hitems, app_nil_r in Hf'.
  assert (Htasks : forall t, t < n ->
            exists x o, tasks s' !! t = Some x /\ task_on_done x = t
                        /\ state_of x = Done o /\ o <> Cancelled /\ callbacks x = []
                        /\ t ∈ set_calls s').
  { intros t Hlt.
    destruct (handlers_end_spec endings (seq 0 n) s1 t Hc1 Ho1) as (o & Hst2 & Hno);
      [apply elem_of_seq; lia|lia|]. fold s2 in Hst2.
    destruct (done_callbacks_spec (seq 0 n) s2 t o Hc2 Hst2) as (x & Hx & Hnil);
      [apply elem_of_seq; lia|]. rewrite <- Hs' in Hx.
    assert (Hst3 : status_of t s' = Some (Done o)).
    { rewrite Hs'. by apply run_activity_done. }
    assert (Hev : task_on_done x = t).
    { assert (Hitem : (task_item <$> tasks s') !! t = Some (task_item x)).
      { by rewrite list_lookup_fmap, Hx. }
      rewrite Hf' in Hitem. unfold numbered in Hitem.
      rewrite list_lookup_imap in Hitem.
      destruct (sent (Activity <$> l) !! t); simpl in Hitem; [|done].
      by injection Hitem as _ <-. }
    exists x, o. unfold status_of in Hst3. rewrite Hx in Hst3. injection Hst3 as Hst3.
    split_and!; try done. rewrite <- Hev at 1. by apply (called_set s' Hsig t). }
  assert (Hempty : running_commands s' = ∅).
  { apply set_eq. intros t. split; [|by intros ?%not_elem_of_empty].
    intros Hin. exfalso.
    assert (Hlt : t < n).
    { rewrite <- Hlen, Hrun. apply run_activity_running_bounded; [|by rewrite <- Hrun].
      intros ? ?%not_elem_of_empty. done. }
    destruct (Htasks t Hlt) as (x & o & Hx & Hev & _ & _ & _ & Hset).
    destruct (set_after_done s' Hc3 t Hset) as (t' & x' & Hx' & Hev' & _ & Hnot).
    assert (t' = t) as -> by (eapply task_lookup_unique; eauto; congruence).
    done. }
  split_and!; try done; try congruence.
  - intros t Hlt. apply Htasks. lia.
  - pose proof (accounting s' Hc3) as Hacc. rewrite Hitems, Hlen in Hacc. simpl in Hacc.
    assert (Hsub : seq 0 n ⊆+ set_calls s').
    { apply NoDup_submseteq; [apply NoDup_seq|].
      intros t Ht%elem_of_seq. destruct (Htasks t) as (_ & _ & _ & _ & _ & _ & _ & ?); [lia|done]. }
    apply submseteq_length in Hsub. rewrite length_seq in Hsub. lia.
Qed.

(** X11: a consumer that has not been stopped can always finish its work.
    From every state reached by sending, loop iterations, handlers ending
    and done callbacks, if the loop picks up what is queued, every handler
    ends (by returning or by raising, as [endings] says) and the done
    callbacks are called, then the event of every command sent is set, every
    task has ended without being cancelled, the queue is empty with every
    item marked as done, and the running set is empty. *)
Theorem running_consumer_can_signal_every_command
    (l : list activity) (endings : nat -> option exn) :
  let s := run_activity l started in
  let s' := run_activity (drain endings s) s in
  (forall e, e < next_event s -> e ∈ set_calls s')
  /\ (forall t, t < next_event s ->
        exists o, status_of t s' = Some (Done o) /\ o <> Cancelled)
  /\ length (tasks s') = next_event s
  /\ items (queue s') = []
  /\ unfinished_tasks (queue s') = 0
  /\ running_commands s' = ∅.
Proof.
  intros s s'. destruct (drain_spec l endings) as (H1 & H2 & H3 & H4 & H5 & H6).
  fold s in H1, H2, H3, H4, H5, H6. fold s' in H1, H2, H3, H4, H5, H6.
  split_and!; try done.
  - intros e He. by destruct (H4 e He) as (x & o & _ & _ & _ & _ & _ & ?).
  - intros t Ht. destruct (H4 t Ht) as (x & o & Hx & _ & Hst & Hno & _).
    exists o. split; [|done]. unfold status_of. by rewrite Hx; simpl; rewrite Hst.
Qed.

(** X12: the consumer loop starts handlers without waiting for the ones
    that run.  After [k] further iterations of the loop, with nothing else
    happening, the first [k] queued items (all of them if there are fewer)
    have each become a task, in queue order; all these tasks are pending at
    the same time and in the running set, and no event has been set. *)
Theorem consumer_loop_starts_handlers_concurrently (l : list activity) (k : nat) :
  let s := run_activity l started in
  let s' := run_activity (replicate k LoopIteration) s in
  let picked := take k (items (queue s)) in
  task_item <$> tasks s' = (task_item <$> tasks s) ++ picked
  /\ items (queue s') = drop k (items (queue s))
  /\ (forall i, i < length picked ->
        status_of (length (tasks s) + i) s' = Some Pending
        /\ length (tasks s) + i ∈ running_commands s')
  /\ set_calls s' = set_calls s.
Proof.
  intros s s' picked.
  assert (Hon : consumer_task s = true).
  { unfold s. by rewrite run_activity_consumer_task. }
  destruct (loop_iterations_spec k s Hon) as (Ht & Hq & Hr & Hs & _).
  fold s' in Ht, Hq, Hr, Hs. fold picked in Ht.
  split_and!; try done.
  - rewrite Ht, fmap_app. f_equal. rewrite <- list_fmap_compose.
    rewrite <- (list_fmap_id picked) at 2. apply list_fmap_ext. by intros _ [c e] _.
  - intros i Hi. split.
    + unfold status_of. rewrite Ht, lookup_app_r by lia.
      replace (length (tasks s) + i - length (tasks s)) with i by lia.
      rewrite list_lookup_fmap.
      destruct (lookup_lt_is_Some_2 picked i Hi) as [item ->]. done.
    + rewrite Hr. apply elem_of_union; left. apply elem_of_list_to_set, elem_of_seq.
      unfold picked in Hi. rewrite length_take in Hi. unfold qsize. lia.
Qed.

(** *** The state [stop] returns *)


End Consumer.

(** ** The event client *)

Section Client.

Import Asyncio EventClient.

#[local] Instance str_le_total : Total str_le.
Proof. intros a b. unfold str_le. apply String.leb_total. Qed.

Lemma sorted_spec (names : list string) :
  Sorted str_le (sorted names) /\ sorted names ≡ₚ names.
Proof. split; [apply Sorted_merge_sort; apply _|apply merge_sort_Permutation]. Qed.

Lemma sorted_elements (names : gset string) :
  Sorted str_le (sorted (elements names))
  /\ NoDup (sorted (elements names))
  /\ (forall n, n ∈ sorted (elements names) <-> n ∈ names).
Proof.
  destruct (sorted_spec (elements names)) as [Hs Hp]. split; [done|]. split.
  - rewrite Hp. apply NoDup_elements.
  - intros n. rewrite Hp. apply elem_of_elements.
Qed.

Lemma run_bind {A B : Type} (c : coro A) (k : A -> coro B) (w : world) :
  run (coro_bind k c) w =
    match run c w with
    | (w', Returned a) => run (k a) w'
    | (w', Raised e) => (w', Raised e)
    | (w', Suspended rest) => (w', Suspended (coro_bind k rest))
    end.
Proof.
  revert w. induction c as [r|e|X e k' IH]; intros w; simpl; try done.
  destruct (perform e w) as [[x w']|]; [apply IH|done].
Qed.

(** Waiting for an event, then going on with [k]. *)
Lemma run_wait {A : Type} (on_done : nat) (k : unit -> coro A) (w : world) :
  run (Vis (EventWait on_done) k) w =
    if decide (on_done ∈ InternalConsumer.set_calls (channel w))
    then run (k tt) w else (w, Suspended (Vis (EventWait on_done) k)).
Proof. simpl. by destruct (decide _). Qed.

(** C4, as stated, fails: the name check runs before the event is looked
    up and before the arguments are compared.  For an event that exists
    under a name the name check refuses, fired with arguments that differ
    from the declared ones, [fire_event] raises the error of the name check,
    not [InvalidEventArguments]. *)
Lemma fire_event_refused_name_hides_argument_mismatch :
  api_registry Scenario.ext_internal !! "shop" = Some Scenario.shop_internal
  /\ events Scenario.shop_internal !! "_internal" = Some Scenario.order_placed
  /\ dom ({["extra" := VInt 2]} : gmap string value)
     <> parameter_names Scenario.order_placed
  /\ run (fire_event Scenario.ext_internal "shop" "_internal"
            (Some {["extra" := VInt 2]}) None) Scenario.w0
     = (observe LazyLoaded Scenario.w0, Raised (InvalidName "shop" "_internal")).
Proof.
  split; [reflexivity|]. split; [reflexivity|]. split; [|reflexivity].
  vm_compute. discriminate.
Qed.

(** C4 (amended): for [fire_event] on a registered API and an existing
    event, with [given] the supplied keyword arguments ([kwargs or {}]):
    - if the name check refuses the event name, [fire_event] fails with the
      error of the name check, whatever the arguments;
    - if the name passes the name check and the set of supplied names
      differs from the set of declared parameter names, [fire_event] fails,
      before anything but the lazy load has happened, with
      [InvalidEventArguments] carrying the number of supplied arguments,
      their sorted names, the number of declared parameters and the sorted
      declared names;
    - if the name passes and the two sets are equal, the only error
      [fire_event] can raise is the one of the outgoing schema validation;
    - the two reported lists are sorted, without repetition, and hold
      exactly the names of the two sets. *)
Theorem fire_event_checks_argument_names
    (ext : collaborators) (w : world) (api_name name : string)
    (kwargs : option (gmap string value)) (options : options)
    (api : Api) (event : Event) :
  api_registry ext !! api_name = Some api ->
  events api !! name = Some event ->
  let given := default ∅ kwargs in
  let result := run (fire_event ext api_name name kwargs options) w in
  let message :=
    {| api_name := meta_name api; event_name := name;
       kwargs := deform_to_bus ext given; version := meta_version api |} in
  (forall e, validate_event_or_rpc_name ext api_name "event" name = Err e ->
     result = (observe LazyLoaded w, Raised e))
  /\ (validate_event_or_rpc_name ext api_name "event" name = Ok tt ->
      (dom given <> parameter_names event ->
         result = (observe LazyLoaded w,
                   Raised (InvalidEventArguments
                             (size given) (sorted (elements (dom given)))
                             (length (parameters event))
                             (sorted (elements (parameter_names event))))))
      /\ (dom given = parameter_names event ->
          forall e, result.2 = Raised e -> validate_outgoing ext message = Err e))
  /\ (Sorted str_le (sorted (elements (dom given)))
      /\ NoDup (sorted (elements (dom given)))
      /\ forall n, n ∈ sorted (elements (dom given)) <-> n ∈ dom given)
  /\ (Sorted str_le (sorted (elements (parameter_names event)))
      /\ NoDup (sorted (elements (parameter_names event)))
      /\ forall n, n ∈ sorted (elements (parameter_names event))
                   <-> n ∈ parameter_names event).
Proof.
  intros Hapi Hevent given result message.
  split; [|split; [|split; apply sorted_elements]].
  - intros e He. unfold result, fire_event; simpl. by rewrite Hapi, He.
  - intros Hname. split.
    + intros Hne. unfold result, fire_event; simpl.
      rewrite Hapi, Hname; simpl. rewrite Hevent.
      fold given. by rewrite decide_True.
    + intros Heq e. unfold result, fire_event; simpl.
      rewrite Hapi, Hname; simpl. rewrite Hevent.
      fold given. rewrite decide_False by (intros H; by apply H).
      fold message. destruct (validate_outgoing ext message) as [[]|e']; simpl.
      * destruct (decide _); simpl; done.
      * by intros [= ->].
Qed.

(** The scenario of the specification: one extra argument. *)
Lemma fire_event_checks_argument_names_witness :
  run (fire_event Scenario.ext "shop" "order_placed"
         (Some {["order_id" := VInt 1; "extra" := VInt 2]}) None) Scenario.w0
  = (observe LazyLoaded Scenario.w0,
     Raised (InvalidEventArguments 2 ["extra"; "order_id"] 1 ["order_id"])).
Proof.
  destruct (fire_event_checks_argument_names Scenario.ext Scenario.w0
              "shop" "order_placed" (Some {["order_id" := VInt 1; "extra" := VInt 2]}) None
              Scenario.shop Scenario.order_placed eq_refl eq_refl) as (_ & H & _).
  destruct (H eq_refl) as [H' _].
  rewrite H'; [vm_compute; reflexivity|].
  vm_compute. discriminate.
Defined.


(** *** The channel between the client and the transports *)

Import InternalConsumer.

Lemma run_labels_app (ls ls' : list label) (s : state) :
  run_labels (ls ++ ls') s = run_labels ls' (run_labels ls s).
Proof. unfold run_labels. by rewrite foldl_app. Qed.

Lemma next_event_sent (ls : list label) :
  next_event (run_labels ls started) = length (sent ls).
Proof. by destruct (run_labels_fifo ls). Qed.

(** The event [send] returns is not set when [send] returns. *)
Lemma producer_send_fresh (ls : list label) (c : command) :
  let ch := run_labels ls started in
  (producer_send c ch).1 = next_event ch
  /\ (next_event ch ∉ set_calls (producer_send c ch).2)
  /\ (producer_send c ch).2 = run_labels (ls ++ [Activity (Send c)]) started
  /\ items (queue (producer_send c ch).2) = items (queue ch) ++ [(c, next_event ch)].
Proof.
  intros ch. assert (Hc : consistent ch) by apply run_labels_consistent, started_consistent.
  split; [done|]. split; [|split; [|done]].
  - simpl. intros He. apply (set_calls_allocated ch) in He; [lia|done].
  - by rewrite run_labels_app.
Qed.

(** Once the event returned for a sent command is set, the handler of that
    very command has ended. *)
Lemma handled_when_set (ls ls' : list label) (c : command) :
  let ch := run_labels (ls ++ Activity (Send c) :: ls') started in
  length (sent ls) ∈ set_calls ch ->
  exists t x, tasks ch !! t = Some x /\ task_item x = (c, length (sent ls))
              /\ is_done x /\ t ∉ running_commands ch.
Proof.
  intros ch He.
  assert (Hc : consistent ch) by apply run_labels_consistent, started_consistent.
  destruct (set_after_done ch Hc _ He) as (t & x & Hx & Hxe & Hxd & Hxr).
  exists t, x. repeat split; try done.
  destruct (run_labels_fifo (ls ++ Activity (Send c) :: ls')) as [Hf _]. fold ch in Hf.
  assert (Hin : task_item x ∈ numbered (sent (ls ++ Activity (Send c) :: ls'))).
  { rewrite <- Hf. apply elem_of_app; left. apply list_elem_of_fmap.
    exists x. split; [done|]. by eapply list_elem_of_lookup_2. }
  unfold numbered in Hin. apply elem_of_lookup_imap in Hin as (i & c' & Hitem & Hi).
  unfold task_item in *. injection Hitem as Hcmd Hev. rewrite Hcmd.
  f_equal; [|done]. rewrite Hxe in Hev. subst i.
  unfold sent in Hi. rewrite omap_app in Hi. simpl in Hi.
  fold (sent ls) in Hi. rewrite list_lookup_middle in Hi by done. congruence.
Qed.


(** C7: firing [shop.order_placed] with [{"order_id": 1}] when the declared
    parameter names are [{"order_id"}] (the API is registered, the name
    check and the outgoing validation pass), in a client whose producer
    feeds a consumer with any history [ls]:
    - [fire_event] runs the "before send" hook, puts exactly one command on
      the producer's queue, the [SendEventCommand] carrying the constructed
      message, and suspends on the event [send] returned, which is not set;
    - as long as that event is not set the coroutine stays suspended and
      does nothing;
    - when it is resumed with the event set, it runs the "after send" hook
      and returns, sending nothing more;
    - and whenever the event is set, the consumer's handler for this very
      command has ended. *)
Theorem fire_event_dispatches_and_awaits
    (ext : collaborators) (listeners : gset string) (ls : list label)
    (queues : list (list EventMessage)) (trace : list observation)
    (options : options) (api : Api) (event : Event) :
  api_registry ext !! "shop" = Some api ->
  validate_event_or_rpc_name ext "shop" "event" "order_placed" = Ok tt ->
  events api !! "order_placed" = Some event ->
  parameter_names event = {["order_id"]} ->
  let message :=
    {| api_name := meta_name api; event_name := "order_placed";
       kwargs := deform_to_bus ext {["order_id" := VInt 1]};
       version := meta_version api |} in
  validate_outgoing ext message = Ok tt ->
  let w := World listeners (run_labels ls started) queues trace in
  let command := SendEventCommand message options in
  let on_done := next_event (channel w) in
  let dispatched :=
    World listeners (producer_send command (channel w)).2 queues
      (trace ++ [LazyLoaded; Hook "before_event_sent" message;
                 Logged (SendingEvent "shop" "order_placed")]) in
  exists rest,
    run (fire_event ext "shop" "order_placed" (Some {["order_id" := VInt 1]}) options) w
      = (dispatched, Suspended rest)
    /\ items (queue (channel dispatched)) = items (queue (channel w)) ++ [(command, on_done)]
    /\ (on_done ∉ set_calls (channel dispatched))
    /\ (forall w', on_done ∉ set_calls (channel w') -> run rest w' = (w', Suspended rest))
    /\ (forall w', on_done ∈ set_calls (channel w') ->
          run rest w' = (observe (Hook "after_event_sent" message) w', Returned tt))
    /\ (forall ls', let ch := run_labels ls' (channel dispatched) in
          on_done ∈ set_calls ch ->
          exists t x, tasks ch !! t = Some x /\ task_item x = (command, on_done)
                      /\ is_done x /\ t ∉ running_commands ch).
Proof.
  intros Hapi Hname Hevent Hparams message Hvalid w command on_done dispatched.
  destruct (producer_send_fresh ls command) as (Hev & Hfresh & Hrun & Hitems).
  eexists. split; [|split; [exact Hitems|split; [exact Hfresh|split; [|split]]]].
  - unfold fire_event; simpl. rewrite Hapi, Hname; simpl. rewrite Hevent.
    rewrite decide_False by (intros H; apply H; by rewrite Hparams, dom_singleton_L).
    fold message. rewrite Hvalid; simpl.
    rewrite decide_False by exact Hfresh.
    unfold dispatched, observe, with_channel; simpl.
    rewrite <- !app_assoc. reflexivity.
  - intros w' Hw'. simpl. by rewrite decide_False.
  - intros w' Hw'. simpl. by rewrite decide_True.
  - intros ls' ch Hset. unfold ch, dispatched in *; simpl in *.
    rewrite Hrun, <- run_labels_app, <- app_assoc in *. simpl in *.
    unfold on_done in *; simpl in *. rewrite next_event_sent in *.
    by apply handled_when_set.
Qed.

Lemma fire_event_dispatches_and_awaits_witness :
  exists rest,
    run (fire_event Scenario.ext "shop" "order_placed" (Some Scenario.order_1) None)
        Scenario.w0
      = (World ∅ (producer_send (SendEventCommand Scenario.M None) started).2 []
           [LazyLoaded; Hook "before_event_sent" Scenario.M;
            Logged (SendingEvent "shop" "order_placed")],
         Suspended rest)
    /\ forall w', 0 ∈ set_calls (channel w') ->
         run rest w' = (observe (Hook "after_event_sent" Scenario.M) w', Returned tt).
Proof.
  destruct (fire_event_dispatches_and_awaits Scenario.ext ∅ [] [] [] None
              Scenario.shop Scenario.order_placed eq_refl eq_refl eq_refl)
    as (rest & Hrun & _ & _ & _ & Hresume & _).
  - vm_compute. reflexivity.
  - reflexivity.
  - exists rest. split; [exact Hrun|exact Hresume].
Defined.


(** *** Listening *)

Lemma count_parameters_spec (parameters : list parameter_kind) (n : nat) (b : bool) :
  let r := foldl count_parameter (n, b) parameters in
  r.2 = b || existsb is_var_positional parameters
  /\ (r.1 =? 0) = (n =? 0) && negb (existsb takes_positional parameters).
Proof.
  revert n b. induction parameters as [|k ps IH]; intros n b; simpl.
  { by rewrite orb_false_r, andb_true_r. }
  destruct k; simpl; destruct (IH (S n) b) as [IH1 IH2], (IH n true) as [IH3 IH4],
    (IH n b) as [IH5 IH6]; simpl in *;
    rewrite ?IH1, ?IH2, ?IH3, ?IH4, ?IH5, ?IH6, ?orb_true_r, ?andb_false_r; try done.
  all: split; try done; by rewrite ?orb_true_r.
Qed.

(** The sanity check passes exactly for a callable that takes variable
    positional arguments or at least one positional parameter. *)
Lemma sanity_check_listener_spec (listener : pyobject) :
  sanity_check_listener listener =
    match listener with
    | NotCallable => Err (InvalidEventListener "is not callable")
    | Callable parameters =>
        if existsb is_var_positional parameters || existsb takes_positional parameters
        then Ok tt
        else Err (InvalidEventListener "must take at one positional argument")
    | CallableWithoutSignature raised => Err raised
    end.
Proof.
  destruct listener as [|ps|]; [done| |done]. unfold sanity_check_listener.
  destruct (count_parameters_spec ps 0 false) as [H1 H2]; simpl in *.
  destruct (foldl count_parameter (0, false) ps) as [n b]; simpl in *.
  rewrite H1, H2. destruct (existsb is_var_positional ps); simpl; [done|].
  by destruct (existsb takes_positional ps).
Qed.


(** What [listen] does once its validation has passed: it makes the intake
    queue, sends the [ConsumeEventsCommand] and waits for its event; resumed
    with the event set, it adds the name and returns. *)
Lemma listen_run (ext : collaborators) (w : world) (events : list (string * string))
    (listener : pyobject) (listener_name : string) (options : options) :
  let command := ConsumeEventsCommand events (length (queues w)) listener_name in
  let on_done := next_event (channel w) in
  let dispatched :=
    World (event_listeners w) (producer_send command (channel w)).2
      (queues w ++ [[]]) (trace w) in
  run (listen ext events listener listener_name options) w =
    match sanity_check_listener listener with
    | Err e => (w, Raised e)
    | Ok _ =>
        if decide (listener_name ∈ event_listeners w)
        then (w, Raised (ListenerAlreadyRegistered listener_name))
        else match validate_events ext events with
             | Err e => (w, Raised e)
             | Ok _ => run (Vis (EventWait on_done)
                              (fun _ => trigger (EventListenersAdd listener_name))) dispatched
             end
    end.
Proof.
  unfold listen; simpl. destruct (sanity_check_listener listener) as [[]|e]; simpl; [|done].
  destruct (decide (listener_name ∈ event_listeners w)); simpl; [done|].
  destruct (validate_events ext events) as [[]|e]; simpl; [|done].
  destruct (decide _); simpl; done.
Qed.

Lemma run_wait_then_add (on_done : nat) (listener_name : string) (w : world) :
  run (Vis (EventWait on_done) (fun _ => trigger (EventListenersAdd listener_name))) w =
    if decide (on_done ∈ set_calls (channel w))
    then (with_event_listeners ({[listener_name]} ∪ event_listeners w) w, Returned tt)
    else (w, Suspended (Vis (EventWait on_done)
                          (fun _ => trigger (EventListenersAdd listener_name)))).
Proof. simpl. by destruct (decide _). Qed.








(** *** Inbound dispatch *)

(** C2, on the code: for a registered listener name, [handle] of a
    [ReceiveEventCommand] raises [TypeError] at
    [self._event_listeners[command.listener_name]], because the registered
    listeners are a set of names; the world is left as it was, so the
    message reaches no intake queue. *)
Theorem receive_event_for_registered_listener_raises
    (w : world) (message : EventMessage) (listener_name : string) :
  listener_name ∈ event_listeners w ->
  run (handle (ReceiveEventCommand message listener_name)) w
    = (w, Raised (TypeError "'set' object is not subscriptable")).
Proof.
  intros Hin. simpl. destruct (decide (listener_name ∉ event_listeners w)); [done|].
  reflexivity.
Qed.

(** The scenario of the specification: "L1" is registered by [listen] (the
    consumer handles the [ConsumeEventsCommand], [listen] is resumed and
    returns); then the [ReceiveEventCommand] for "L1" with message M raises,
    the intake queue of "L1" stays empty, and the only command ever sent is
    the [ConsumeEventsCommand]: no [AcknowledgeEventCommand]. *)
Lemma receive_event_for_registered_listener_raises_witness :
  event_listeners Scenario.registered = {["L1"]}
  /\ run (handle (ReceiveEventCommand Scenario.M "L1")) Scenario.registered
     = (Scenario.registered, Raised (TypeError "'set' object is not subscriptable"))
  /\ queues Scenario.registered = [[]]
  /\ items (queue (channel Scenario.registered)) = []
  /\ task_command <$> tasks (channel Scenario.registered)
     = [ConsumeEventsCommand [("shop", "order_placed")] 0 "L1"].
Proof.
  split; [vm_compute; reflexivity|]. split; [|vm_compute; repeat split].
  apply receive_event_for_registered_listener_raises.
  vm_compute. reflexivity.
Defined.

(** X13: for a listener name that is not registered, [handle] of a
    [ReceiveEventCommand] raises [AttributeError]: the arguments of the
    debug log call [self._event_listeners.keys()], and a set has no [keys];
    the client is left as it was. *)
Lemma receive_event_for_unknown_listener_raises
    (w : world) (message : EventMessage) (listener_name : string) :
  listener_name ∉ event_listeners w ->
  run (handle (ReceiveEventCommand message listener_name)) w
    = (w, Raised (AttributeError "keys")).
Proof.
  intros Hin. simpl. destruct (decide (listener_name ∉ event_listeners w)); [|done].
  reflexivity.
Qed.

Lemma receive_event_for_unknown_listener_raises_witness :
  run (handle (ReceiveEventCommand Scenario.M "L1")) Scenario.w0
    = (Scenario.w0, Raised (AttributeError "keys")).
Proof.
  exact (receive_event_for_unknown_listener_raises Scenario.w0 Scenario.M "L1"
           (not_elem_of_empty "L1")).
Defined.

(** C10, on the code: for every command other than a [ReceiveEventCommand],
    [handle] raises [AttributeError] while formatting [command.__name__]
    into the message of the [NotImplementedError] it was about to raise. *)
Theorem handle_other_command_raises_attribute_error (w : world) (c : command) :
  is_receive_event c = false ->
  run (handle c) w = (w, Raised (AttributeError "__name__")).
Proof. destruct c; simpl; intros H; try discriminate; reflexivity. Qed.

Lemma handle_other_command_raises_attribute_error_witness :
  run (handle (SendEventCommand Scenario.M None)) Scenario.w0
    = (Scenario.w0, Raised (AttributeError "__name__")).
Proof.
  exact (handle_other_command_raises_attribute_error Scenario.w0
           (SendEventCommand Scenario.M None) eq_refl).
Defined.

(** *** Firing: the configuration errors *)

(** [fire_event] once the API, the name and the event have been found. *)
Lemma fire_event_run (ext : collaborators) (w : world) (api_name name : string)
    (kwargs : option (gmap string value)) (options : options) (api : Api) (event : Event) :
  api_registry ext !! api_name = Some api ->
  validate_event_or_rpc_name ext api_name "event" name = Ok tt ->
  events api !! name = Some event ->
  let given := default ∅ kwargs in
  let message :=
    {| api_name := meta_name api; event_name := name;
       kwargs := deform_to_bus ext given; version := meta_version api |} in
  let on_done := next_event (channel w) in
  let dispatched :=
    World (event_listeners w)
      (producer_send (SendEventCommand message options) (channel w)).2 (queues w)
      (trace w ++ [LazyLoaded; Hook "before_event_sent" message;
                   Logged (SendingEvent api_name name)]) in
  run (fire_event ext api_name name kwargs options) w =
    if decide (dom given ≠ parameter_names event) then
      (observe LazyLoaded w,
       Raised (InvalidEventArguments
                 (size given) (sorted (elements (dom given)))
                 (length (parameters event)) (sorted (elements (parameter_names event)))))
    else match validate_outgoing ext message with
         | Err e => (observe LazyLoaded w, Raised e)
         | Ok _ =>
             run (Vis (EventWait on_done)
                    (fun _ => trigger (ExecuteHook "after_event_sent" message))) dispatched
         end.
Proof.
  intros Hapi Hname Hevent given message on_done dispatched.
  unfold fire_event; simpl. rewrite Hapi, Hname; simpl. rewrite Hevent. fold given.
  destruct (decide (dom given ≠ parameter_names event)); [done|]. fold message.
  destruct (validate_outgoing ext message) as [[]|e]; simpl; [|done].
  unfold dispatched, observe, with_channel; simpl. rewrite <- !app_assoc. simpl.
  by destruct (decide _).
Qed.

Lemma run_wait_then_hook (on_done : nat) (name : string) (m : EventMessage) (w : world) :
  run (Vis (EventWait on_done) (fun _ => trigger (ExecuteHook name m))) w =
    if decide (on_done ∈ set_calls (channel w))
    then (observe (Hook name m) w, Returned tt)
    else (w, Suspended (Vis (EventWait on_done) (fun _ => trigger (ExecuteHook name m)))).
Proof. simpl. by destruct (decide _). Qed.

(** X14: the configuration errors of [fire_event] and their order.  An
    API that is not in the registry gives [UnknownApi], whatever the event
    name; for a registered API a name the name check refuses gives the
    check's error, whether or not the event exists; a valid name of an event
    the API does not have gives [EventNotFound].  And whenever [fire_event]
    raises, all it has done is the lazy load: no hook has run, nothing has
    been logged and nothing has been sent to the producer. *)
Theorem fire_event_fails_before_dispatch
    (ext : collaborators) (w : world) (api_name name : string)
    (kwargs : option (gmap string value)) (options : options) :
  let result := run (fire_event ext api_name name kwargs options) w in
  (api_registry ext !! api_name = None ->
     result = (observe LazyLoaded w, Raised (UnknownApi api_name name)))
  /\ (forall api e,
        api_registry ext !! api_name = Some api ->
        validate_event_or_rpc_name ext api_name "event" name = Err e ->
        result = (observe LazyLoaded w, Raised e))
  /\ (forall api,
        api_registry ext !! api_name = Some api ->
        validate_event_or_rpc_name ext api_name "event" name = Ok tt ->
        events api !! name = None ->
        result = (observe LazyLoaded w, Raised (EventNotFound api_name name)))
  /\ (forall e, result.2 = Raised e -> result.1 = observe LazyLoaded w).
Proof.
  intros result. unfold result. split_and!.
  - intros Hapi. unfold fire_event; simpl. by rewrite Hapi.
  - intros api e Hapi He. unfold fire_event; simpl. by rewrite Hapi, He.
  - intros api Hapi Hname Hevent. unfold fire_event; simpl.
    rewrite Hapi, Hname; simpl. by rewrite Hevent.
  - intros e.
    destruct (api_registry ext !! api_name) as [api|] eqn:Hapi.
    2: { unfold fire_event; simpl. by rewrite Hapi. }
    destruct (validate_event_or_rpc_name ext api_name "event" name) as [[]|e'] eqn:Hname.
    2: { unfold fire_event; simpl. by rewrite Hapi, Hname. }
    destruct (events api !! name) as [event|] eqn:Hevent.
    2: { unfold fire_event; simpl. rewrite Hapi, Hname; simpl. by rewrite Hevent. }
    rewrite (fire_event_run ext w api_name name kwargs options api event) by done.
    destruct (decide _); [done|].
    destruct (validate_outgoing ext _) as [[]|e'']; [|done].
    rewrite run_wait_then_hook. by destruct (decide _).
Qed.

(** *** Processing a received message *)

(** X15: [_on_message], in a client whose producer feeds a consumer with
    any history [ls].  If the incoming validation fails, the call raises
    after the log line: no hook runs, the listener is not called and nothing
    is sent.  Otherwise the "before execution" hook runs, the listener is
    called with the message as its only positional argument and with the
    message's keyword arguments (cast to the listener's signature when the
    API's [cast_values] is on), exactly one [AcknowledgeEventCommand] for
    this message with the caller's options is sent, and the call waits for
    its event; resumed with the event set it runs the "after execution"
    hook and returns. *)
Theorem on_message_acknowledges_after_listener
    (ext : collaborators) (listeners : gset string) (ls : list label)
    (queues : list (list EventMessage)) (trace : list observation)
    (m : EventMessage) (listener : pyobject) (options : options) :
  let w := World listeners (run_labels ls started) queues trace in
  let result := run (_on_message ext m listener options) w in
  let received := observe (Logged (ReceivedEvent (api_name m) (event_name m))) w in
  (forall e, validate_incoming ext m = Err e -> result = (received, Raised e))
  /\ (validate_incoming ext m = Ok tt ->
      let parameters :=
        if cast_values ext (api_name m)
        then cast_to_signature ext (kwargs m) listener else kwargs m in
      let command := AcknowledgeEventCommand m options in
      let on_done := next_event (channel w) in
      let dispatched :=
        World listeners (producer_send command (channel w)).2 queues
          (trace ++ [Logged (ReceivedEvent (api_name m) (event_name m));
                     Hook "before_event_execution" m;
                     UserCallable listener [m] parameters]) in
      exists rest,
        result = (dispatched, Suspended rest)
        /\ items (queue (channel dispatched))
           = items (queue (channel w)) ++ [(command, on_done)]
        /\ (forall w', on_done ∉ set_calls (channel w') -> run rest w' = (w', Suspended rest))
        /\ (forall w', on_done ∈ set_calls (channel w') ->
              run rest w' = (observe (Hook "after_event_execution" m) w', Returned tt))).
Proof.
  intros w result received. unfold result. split.
  - intros e He. unfold _on_message; simpl. by rewrite He.
  - intros Hvalid. cbv zeta.
    destruct (producer_send_fresh ls (AcknowledgeEventCommand m options))
      as (Hev & Hfresh & Hrun & Hitems).
    eexists. split_and!.
    + unfold _on_message; simpl. rewrite Hvalid; simpl.
      rewrite decide_False by exact Hfresh.
      unfold observe, with_channel; simpl.
      rewrite <- !app_assoc. reflexivity.
    + exact Hitems.
    + intros w' Hw'. simpl. by rewrite decide_False.
    + intros w' Hw'. simpl. by rewrite decide_True.
Qed.

(** *** The listener check *)

(** X16: [sanity_check_listener] accepts exactly the callables whose
    signature has a positional-only parameter, a positional-or-keyword
    parameter or variable positional arguments.  It refuses a value that is
    not callable, and a callable whose signature has none of these, with
    [InvalidEventListener]; for a callable on which [inspect.signature]
    raises it is that exception that leaves [sanity_check_listener], not
    [InvalidEventListener]. *)
Theorem sanity_check_listener_accepts (listener : pyobject) :
  (sanity_check_listener listener = Ok tt
   <-> exists parameters kind,
         listener = Callable parameters /\ kind ∈ parameters
         /\ (kind = POSITIONAL_ONLY \/ kind = POSITIONAL_OR_KEYWORD \/ kind = VAR_POSITIONAL))
  /\ (forall e, sanity_check_listener listener = Err e ->
        match listener with
        | CallableWithoutSignature raised => e = raised
        | _ => exists reason, e = InvalidEventListener reason
        end)
  /\ (forall raised, sanity_check_listener (CallableWithoutSignature raised) = Err raised).
Proof.
  rewrite sanity_check_listener_spec. split; [|split; [|reflexivity]].
  - destruct listener as [|ps|].
    { split; [done|]. by intros (? & ? & ? & _). }
    2: { split; [done|]. by intros (? & ? & ? & _). }
    destruct (existsb is_var_positional ps) eqn:Hv; simpl.
    { split; [intros _|done]. apply existsb_exists in Hv as (k & Hin & Hk).
      exists ps, k. split; [done|]. split; [by apply list_elem_of_In|].
      destruct k; try done. auto. }
    destruct (existsb takes_positional ps) eqn:Hp; simpl.
    { split; [intros _|done]. apply existsb_exists in Hp as (k & Hin & Hk).
      exists ps, k. split; [done|]. split; [by apply list_elem_of_In|].
      destruct k; try done; auto. }
    split; [done|]. intros (ps' & k & Heq & Hin & Hk).
    injection Heq as <-. apply list_elem_of_In in Hin.
    assert (Hv' : existsb is_var_positional ps = true \/ existsb takes_positional ps = true).
    { destruct Hk as [Hk | [Hk | Hk]]; subst k; [right|right|left];
        apply existsb_exists; by eexists. }
    destruct Hv'; congruence.
  - intros e. destruct listener as [|ps|]; [intros [= <-]; eauto| |by intros [= <-]].
    destruct (_ || _); [done|]. intros [= <-]. eauto.
Qed.

(** *** Two calls of [listen] under one name *)

(** X17: the name test of [listen] does not see a call that is still
    waiting.  With a name that is not registered, a second [listen] under
    the same name, made while the first waits for its
    [ConsumeEventsCommand], is not refused: it makes a second intake queue
    and sends a second [ConsumeEventsCommand] for the same name; once both
    events are set both calls return, and the name is registered. *)
Theorem listen_same_name_while_waiting
    (ext : collaborators) (listeners : gset string) (ls : list label)
    (qs : list (list EventMessage)) (trace : list observation)
    (events events' : list (string * string)) (listener listener' : pyobject)
    (listener_name : string) (options options' : options) :
  listener_name ∉ listeners ->
  sanity_check_listener listener = Ok tt ->
  sanity_check_listener listener' = Ok tt ->
  validate_events ext events = Ok tt ->
  validate_events ext events' = Ok tt ->
  let w := World listeners (run_labels ls started) qs trace in
  let first := ConsumeEventsCommand events (length qs) listener_name in
  let second := ConsumeEventsCommand events' (S (length qs)) listener_name in
  let on_done := next_event (channel w) in
  exists w1 w2 rest1 rest2,
    run (listen ext events listener listener_name options) w = (w1, Suspended rest1)
    /\ run (listen ext events' listener' listener_name options') w1 = (w2, Suspended rest2)
    /\ event_listeners w2 = listeners
    /\ queues w2 = qs ++ [[]; []]
    /\ items (queue (channel w2))
       = items (queue (channel w)) ++ [(first, on_done); (second, S on_done)]
    /\ (forall w3, on_done ∈ set_calls (channel w3) -> S on_done ∈ set_calls (channel w3) ->
          exists w4 w5,
            run rest1 w3 = (w4, Returned tt) /\ run rest2 w4 = (w5, Returned tt)
            /\ event_listeners w5 = {[listener_name]} ∪ event_listeners w3).
Proof.
  intros Hnew Hsane Hsane' Hvalid Hvalid' w first second on_done.
  destruct (producer_send_fresh ls first) as (_ & Hfresh & Hrun & Hitems).
  destruct (producer_send_fresh (ls ++ [Activity (Send first)]) second)
    as (_ & Hfresh' & _ & Hitems').
  rewrite <- Hrun in Hfresh', Hitems'.
  set (w1 := World listeners (producer_send first (run_labels ls started)).2
               (qs ++ [[]]) trace).
  set (w2 := World listeners (producer_send second (channel w1)).2
               (qs ++ [[]; []]) trace).
  exists w1, w2. do 2 eexists. split_and!.
  - rewrite listen_run, Hsane. simpl event_listeners.
    rewrite decide_False by done. rewrite Hvalid, run_wait_then_add.
    rewrite decide_False by exact Hfresh. reflexivity.
  - rewrite listen_run, Hsane'. simpl event_listeners.
    rewrite decide_False by done. rewrite Hvalid', run_wait_then_add.
    simpl queues. rewrite length_app. simpl length. rewrite Nat.add_1_r.
    fold second. rewrite <- app_assoc. simpl app.
    rewrite decide_False; [reflexivity|].
    simpl channel. exact Hfresh'.
  - done.
  - done.
  - unfold w2, w1. simpl channel. etrans; [exact Hitems'|].
    rewrite Hitems, <- app_assoc. reflexivity.
  - intros w3 H1 H2. do 2 eexists. split_and!.
    + rewrite run_wait_then_add. rewrite decide_True by exact H1. reflexivity.
    + rewrite run_wait_then_add. simpl channel.
      rewrite decide_True; [reflexivity|exact H2].
    + simpl. by rewrite (assoc_L (∪)), union_idemp_L.
Qed.

(** "L1" twice on the fresh client of the scenario. *)
Lemma listen_same_name_while_waiting_witness :
  exists w1 w2 rest1 rest2,
    run (listen Scenario.ext [("shop", "order_placed")] Scenario.on_order "L1" None)
        Scenario.w0 = (w1, Suspended rest1)
    /\ run (listen Scenario.ext [("shop", "order_placed")] Scenario.on_order "L1" None) w1
       = (w2, Suspended rest2)
    /\ items (queue (channel w2))
       = [(ConsumeEventsCommand [("shop", "order_placed")] 0 "L1", 0);
          (ConsumeEventsCommand [("shop", "order_placed")] 1 "L1", 1)].
Proof.
  destruct (listen_same_name_while_waiting Scenario.ext ∅ [] [] []
              [("shop", "order_placed")] [("shop", "order_placed")]
              Scenario.on_order Scenario.on_order "L1" None None)
    as (w1 & w2 & rest1 & rest2 & H1 & H2 & _ & _ & H5 & _);
    [apply not_elem_of_empty|reflexivity|reflexivity|reflexivity|reflexivity|].
  exists w1, w2, rest1, rest2. split; [exact H1|]. split; [exact H2|exact H5].
Defined.

(** *** From the caller to the consumer and back *)

(** X18: a call of [fire_event] that has sent its command returns once the
    consumer has handled the command, and returns normally even if the
    handler raised.  In a client whose producer feeds a consumer that has
    not been stopped, with a registered API, a valid name, an existing event
    and the declared argument names: [fire_event] suspends; after the
    consumer has picked up what is queued, the handlers have ended (as
    [endings] says, by returning or by raising) and the done callbacks have
    been called, the suspended call runs the "after send" hook and
    returns. *)
Theorem fire_event_returns_once_consumer_has_handled
    (ext : collaborators) (listeners : gset string) (l : list activity)
    (qs : list (list EventMessage)) (trace : list observation)
    (api_name name : string) (kwargs : option (gmap string value)) (options : options)
    (api : Api) (event : Event) (endings : nat -> option exn) :
  api_registry ext !! api_name = Some api ->
  validate_event_or_rpc_name ext api_name "event" name = Ok tt ->
  events api !! name = Some event ->
  dom (default ∅ kwargs) = parameter_names event ->
  let message :=
    {| api_name := meta_name api; event_name := name;
       kwargs := deform_to_bus ext (default ∅ kwargs); version := meta_version api |} in
  validate_outgoing ext message = Ok tt ->
  let w := World listeners (run_activity l started) qs trace in
  exists w1 rest,
    run (fire_event ext api_name name kwargs options) w = (w1, Suspended rest)
    /\ let handled :=
         with_channel (run_activity (drain endings (channel w1)) (channel w1)) w1 in
       run rest handled = (observe (Hook "after_event_sent" message) handled, Returned tt)
       /\ items (queue (channel handled)) = []
       /\ running_commands (channel handled) = ∅.
Proof.
  intros Hapi Hname Hevent Hdom message Hvalid w.
  set (command := SendEventCommand message options).
  destruct (producer_send_fresh (Activity <$> l) command) as (_ & Hfresh & Hrun & _).
  change (run_labels (Activity <$> l) started) with (run_activity l started) in Hfresh, Hrun.
  assert (Hch : (producer_send command (run_activity l started)).2
                = run_activity (l ++ [Send command]) started).
  { rewrite Hrun. unfold run_activity. by rewrite fmap_app. }
  rewrite (fire_event_run ext w api_name name kwargs options api event) by done.
  rewrite decide_False by (intros H; by apply H). fold message. rewrite Hvalid.
  rewrite run_wait_then_hook.
  set (dispatched := World _ _ _ _).
  assert (Hd : channel dispatched = run_activity (l ++ [Send command]) started) by exact Hch.
  rewrite decide_False by exact Hfresh.
  exists dispatched. eexists. split; [reflexivity|]. cbv zeta.
  destruct (drain_spec (l ++ [Send command]) endings) as (Hq & _ & _ & Hset & Hempty & _).
  rewrite <- Hd in Hq, Hset, Hempty.
  split_and!; [|exact Hq|exact Hempty].
  rewrite run_wait_then_hook. rewrite decide_True; [reflexivity|].
  change (channel (with_channel ?x ?y)) with x.
  destruct (Hset (next_event (run_activity l started))) as (_ & _ & _ & _ & _ & _ & _ & ?);
    [|done].
  rewrite Hd, <- Hch. simpl. lia.
Qed.

(** The event of the scenario on a fresh client; the handler raises. *)
Lemma fire_event_returns_once_consumer_has_handled_witness :
  exists w1 rest,
    run (fire_event Scenario.ext "shop" "order_placed" (Some Scenario.order_1) None)
        Scenario.w0 = (w1, Suspended rest)
    /\ (run rest
          (with_channel
             (run_activity (drain (fun _ => Some (ValueError "boom")) (channel w1))
                (channel w1)) w1)).2 = Returned tt.
Proof.
  destruct (fire_event_returns_once_consumer_has_handled Scenario.ext ∅ [] [] []
              "shop" "order_placed" (Some Scenario.order_1) None
              Scenario.shop Scenario.order_placed (fun _ => Some (ValueError "boom")))
    as (w1 & rest & H1 & H2 & _);
    [reflexivity|reflexivity|reflexivity|vm_compute; reflexivity|reflexivity|].
  exists w1, rest. split; [exact H1|]. by rewrite H2.
Defined.




(** X20: [listen] from the caller to the consumer and back, and the name
    test afterwards.  With a name that is not registered, a listener that
    passes the sanity check and valid event names, on a client whose
    consumer has not been stopped: [listen] suspends; once the consumer has
    handled what is queued, the suspended call returns with the name
    registered; from then on every [listen] under that name (with a listener
    that passes the sanity check) raises the "already registered"
    exception and leaves the client as it is. *)
Theorem listen_registers_once_consumer_has_handled
    (ext : collaborators) (listeners : gset string) (l : list activity)
    (qs : list (list EventMessage)) (trace : list observation)
    (events : list (string * string)) (listener : pyobject)
    (listener_name : string) (options : options) (endings : nat -> option exn) :
  listener_name ∉ listeners ->
  sanity_check_listener listener = Ok tt ->
  validate_events ext events = Ok tt ->
  let w := World listeners (run_activity l started) qs trace in
  exists w1 rest,
    run (listen ext events listener listener_name options) w = (w1, Suspended rest)
    /\ let handled :=
         with_channel (run_activity (drain endings (channel w1)) (channel w1)) w1 in
       exists w2,
         run rest handled = (w2, Returned tt)
         /\ event_listeners w2 = {[listener_name]} ∪ listeners
         /\ forall events' listener' options',
              sanity_check_listener listener' = Ok tt ->
              run (listen ext events' listener' listener_name options') w2
                = (w2, Raised (ListenerAlreadyRegistered listener_name)).
Proof.
  intros Hnew Hsane Hvalid w.
  set (command := ConsumeEventsCommand events (length qs) listener_name).
  destruct (producer_send_fresh (Activity <$> l) command) as (_ & Hfresh & Hrun & _).
  change (run_labels (Activity <$> l) started) with (run_activity l started) in Hfresh, Hrun.
  assert (Hch : (producer_send command (run_activity l started)).2
                = run_activity (l ++ [Send command]) started).
  { rewrite Hrun. unfold run_activity. by rewrite fmap_app. }
  rewrite listen_run, Hsane. simpl event_listeners.
  rewrite decide_False by done. rewrite Hvalid, run_wait_then_add.
  set (dispatched := World _ _ _ _).
  assert (Hd : channel dispatched = run_activity (l ++ [Send command]) started) by exact Hch.
  rewrite decide_False by exact Hfresh.
  exists dispatched. eexists. split; [reflexivity|]. cbv zeta.
  destruct (drain_spec (l ++ [Send command]) endings) as (_ & _ & _ & Hset & _).
  rewrite <- Hd in Hset.
  rewrite run_wait_then_add. rewrite decide_True.
  2: { change (channel (with_channel ?x ?y)) with x.
       destruct (Hset (next_event (run_activity l started)))
         as (_ & _ & _ & _ & _ & _ & _ & ?); [|done].
       rewrite Hd, <- Hch. simpl. lia. }
  eexists. split; [reflexivity|]. split; [reflexivity|].
  intros events' listener' options' Hsane'.
  rewrite listen_run, Hsane'. rewrite decide_True; [reflexivity|].
  simpl. apply elem_of_union; left. by apply elem_of_singleton.
Qed.

(** "L1" on the fresh client of the scenario, then "L1" again. *)
Lemma listen_registers_once_consumer_has_handled_witness :
  exists w1 rest w2,
    run (listen Scenario.ext [("shop", "order_placed")] Scenario.on_order "L1" None)
        Scenario.w0 = (w1, Suspended rest)
    /\ run rest
         (with_channel (run_activity (drain (fun _ => None) (channel w1)) (channel w1)) w1)
       = (w2, Returned tt)
    /\ run (listen Scenario.ext [] Scenario.on_order "L1" None) w2
       = (w2, Raised (ListenerAlreadyRegistered "L1")).
Proof.
  destruct (listen_registers_once_consumer_has_handled Scenario.ext ∅ [] [] []
              [("shop", "order_placed")] Scenario.on_order "L1" None (fun _ => None))
    as (w1 & rest & H1 & w2 & H2 & _ & H4);
    [apply not_elem_of_empty|reflexivity|reflexivity|].
  exists w1, rest, w2. split; [exact H1|]. split; [exact H2|].
  apply H4. reflexivity.
Defined.

End Client.

(** ** The config structure of a transport or plugin *)

Section ConfigStructure.

Import EventClient Config.

Lemma append_assoc (a b c : string) : (a +:+ b) +:+ c = a +:+ (b +:+ c).
Proof.
  induction a as [|x a IH]; [reflexivity|].
  change (String x ((a +:+ b) +:+ c) = String x (a +:+ (b +:+ c))). by rewrite IH.
Qed.

Lemma append_empty_r (a : string) : a +:+ EmptyString = a.
Proof.
  induction a as [|x a IH]; [reflexivity|].
  change (String x (a +:+ EmptyString) = String x a). by rewrite IH.
Qed.

(** What one parameter contributes. *)
Lemma add_parameter_cases (class_name : string) (acc : structure) (x : signature_parameter) :
  (is_field x = true /\ warning_for class_name x = None
   /\ add_parameter class_name acc x
      = Structure (code acc +:+ field_line (name x)) (<[name x := x]> (p acc)) (log acc))
  \/ (is_field x = false
      /\ add_parameter class_name acc x
         = Structure (code acc) (p acc) (log acc ++ option_list (warning_for class_name x))).
Proof.
  unfold is_field, warning_for, add_parameter.
  destruct (String.eqb (name x) "config"); simpl.
  { right. split; [done|]. rewrite app_nil_r. by destruct acc. }
  destruct (kind x); simpl; try (right; by split); left; by split_and!.
Qed.

Lemma fold_add_parameter (class_name : string) (ps : list signature_parameter)
    (acc : structure) :
  let r := foldl (add_parameter class_name) acc ps in
  let fields := filter (fun x => is_field x = true) ps in
  code r = code acc +:+ lines (name <$> fields)
  /\ (forall n, p r !! n
        = match last (filter (fun x => name x = n) fields) with
          | Some x => Some x
          | None => p acc !! n
          end)
  /\ log r = log acc ++ omap (warning_for class_name) ps.
Proof.
  revert acc. induction ps as [|x ps IH]; intros acc.
  { simpl. rewrite append_empty_r, app_nil_r. done. }
  cbv zeta. simpl foldl.
  destruct (IH (add_parameter class_name acc x)) as (I1 & I2 & I3).
  rewrite I1, I3. clear I1 I3. simpl omap.
  destruct (add_parameter_cases class_name acc x) as [(Hf & Hw & Ha)|(Hf & Ha)];
    rewrite Ha in *; simpl in *.
  - rewrite filter_cons_True by done. rewrite Hw. simpl. split_and!; try done.
    + by rewrite append_assoc.
    + intros n. rewrite I2. simpl. rewrite filter_cons.
      destruct (decide (name x = n)) as [<-|Hne].
      * rewrite lookup_insert_eq.
        destruct (filter _ (filter _ ps)) as [|y l] eqn:E; simpl; [done|].
        by destruct (proj2 (last_is_Some (y :: l))) as [z ->].
      * by rewrite lookup_insert_ne.
  - rewrite filter_cons_False by (by rewrite Hf). split_and!; try done.
    rewrite <- app_assoc. by destruct (warning_for class_name x).
Qed.

(** X21: what [make_from_config_structure] does with the parameters of
    [from_config] followed by the extra parameters, whatever the interpreter
    makes of the generated source.  When [inspect.signature] raises, the
    exception is raised and nothing is logged.  Otherwise one warning is
    logged, in order, for each parameter not named "config" that is
    positional-only, variable positional or variable keyword, and the
    interpreter is given: as source, the header followed by one field line
    per parameter that is not named "config" and is positional-or-keyword or
    keyword-only, in order; as [p], a dictionary that maps each such name to
    the last parameter of that name, in which "config" is never a key.  When
    [exec] or the lookup of the class raises, the exception is raised and no
    class is returned; otherwise the class it made is returned, marked as
    supporting config inheritance and with its other attributes as they
    were. *)
Theorem make_from_config_structure_fields (exec : interpreter) (class_name : string)
    (parameters extra_parameters : list signature_parameter) :
  let fields := filter (fun x => is_field x = true) (parameters ++ extra_parameters) in
  (forall e, make_from_config_structure exec class_name (WithoutSignature e) extra_parameters
             = ([], Err e))
  /\ exists vars : gmap string signature_parameter,
       (forall n, vars !! n = last (filter (fun x => name x = n) fields))
       /\ dom vars = list_to_set (name <$> fields)
       /\ ("config" ∉ dom vars)
       /\ let made :=
            exec (class_header class_name +:+ lines (name <$> fields)) vars
              (class_name +:+ "Config") in
          let result :=
            make_from_config_structure exec class_name (WithSignature parameters)
              extra_parameters in
          result.1 = omap (warning_for class_name) (parameters ++ extra_parameters)
          /\ (forall e, made = Err e -> result.2 = Err e)
          /\ (forall cls, made = Ok cls ->
                exists marked,
                  result.2 = Ok marked
                  /\ marked !! "_enable_config_inheritance" = Some (VBool true)
                  /\ forall attribute, attribute <> "_enable_config_inheritance" ->
                       marked !! attribute = cls !! attribute).
Proof.
  intros fields. split; [done|].
  destruct (fold_add_parameter class_name (parameters ++ extra_parameters)
              (Structure (class_header class_name) ∅ [])) as (H1 & H2 & H3).
  set (r := foldl (add_parameter class_name) (Structure (class_header class_name) ∅ [])
              (parameters ++ extra_parameters)) in *.
  simpl in H1, H2, H3. fold fields in H1, H2.
  assert (Hp : forall n, p r !! n = last (filter (fun x => name x = n) fields)).
  { intros n. rewrite H2. by destruct (last _). }
  assert (Hdom : dom (p r) = list_to_set (name <$> fields)).
  { apply set_eq. intros n. rewrite elem_of_dom, Hp, elem_of_list_to_set, list_elem_of_fmap.
    split.
    - intros [x Hx]. apply last_Some in Hx as [l' Hl'].
      assert (Hin : x ∈ filter (fun x => name x = n) fields).
      { rewrite Hl'. apply elem_of_app. right. by apply list_elem_of_singleton. }
      apply list_elem_of_filter in Hin as [Hn Hin]. by exists x.
    - intros (x & -> & Hin).
      assert (Hin' : x ∈ filter (fun y => name y = name x) fields).
      { by apply list_elem_of_filter. }
      destruct (filter _ fields) as [|y l] using rev_ind.
      + by apply elem_of_nil in Hin'.
      + rewrite last_snoc. by eexists. }
  exists (p r). split_and!; try done.
  - rewrite Hdom, elem_of_list_to_set, list_elem_of_fmap. intros (x & Hn & Hin).
    apply list_elem_of_filter in Hin as [Hf _]. unfold is_field in Hf.
    rewrite <- Hn in Hf. by rewrite String.eqb_refl in Hf.
  - cbv zeta. unfold make_from_config_structure, signature. cbv beta iota zeta. fold r.
    rewrite H1. simpl fst. simpl snd. split_and!; [done| |].
    + by intros e ->.
    + intros cls ->. exists (enable_config_inheritance cls). split; [done|].
      unfold enable_config_inheritance.
      split; [apply lookup_insert_eq|].
      intros attribute Hne. by apply lookup_insert_ne.
Qed.

End ConfigStructure.
